(** * Jacobi relaxation for the Poisson problem over MPI

    A shallow embedding of the two solvers of the repository:

    - [Jacobi1D]: [src/C/mpi/jacobi.c], the 1D solver for
      [u_xx = f(x)] on [[a, b]], [SerialOutput], the branch of it that
      writes one file from all processes, and [PerProcess], the same
      solver with the loop variables of every process kept apart;
    - [Jacobi2D]: the 2D solver for [u_xx + u_yy = f(x, y)] on
      [[0, pi] x [0, pi]].

    Modelling conventions.

    - A C [int] is a [Z]; the arithmetic on the problem size is written
      with its 32-bit wrap-around ([Int32]).  Loop counters range over
      array indices and are plain [Z].
    - A C [double] is a binary64 primitive float.  [exp], [pow], [sin] and
      [cos] come from libm and are parameters of the development.
    - A work array is a [list float]; an access out of range is undefined
      behaviour in C and is a [Fault] here.  The contents [malloc] hands
      out are unknown and are parameters.
    - The [P] processes of a run are the positions of a list of
      per-rank memories, and a step of the run is a step of every process.
      A non-blocking send reads its buffer when it is posted; a blocking
      receive that finds no matching message is the fault [Hang]. *)

From Stdlib Require Import ZArith Lia Floats Uint63 String.
From stdpp Require Import base list list_numbers.

Local Open Scope Z_scope.
Local Set Warnings "-inexact-float".

(** ** Machine integers *)

Module Int32.

Definition int_min : Z := -2147483648.
Definition int_max : Z := 2147483647.

(** Two's complement wrap-around to 32 bits. *)
Definition wrap (z : Z) : Z := (z + 2147483648) mod 4294967296 - 2147483648.

Definition add (x y : Z) : Z := wrap (x + y).
Definition sub (x y : Z) : Z := wrap (x - y).
Definition mul (x y : Z) : Z := wrap (x * y).
(** C division truncates towards zero. *)
Definition div (x y : Z) : Z := wrap (x ÷ y).

Definition in_range (z : Z) : Prop := int_min ≤ z ≤ int_max.

End Int32.

(** [(int) fmin ((double) x, (double) y)] on two [int]s: every 32-bit
    integer is a binary64 value, [fmin] returns one of its arguments and the
    conversion back is exact, so the result is the smaller integer. *)
Definition fmin_int (x y : Z) : Z := Z.min x y.

(** [for (i = lo; i < hi; ++i)] and [for (i = lo; i <= hi; ++i)]. *)
Definition range_excl (lo hi : Z) : list Z := seqZ lo (hi - lo).
Definition range_incl (lo hi : Z) : list Z := seqZ lo (hi + 1 - lo).

(** ** Domain partitioner *)

Module Partition.

(** [jacobi.c] line 66, and line 68 of the 2D solver. *)
Definition points_per_proc (num_points num_procs : Z) : Z :=
  Int32.div (Int32.sub (Int32.add num_points num_procs) 1) num_procs.

(** [jacobi.c] lines 72-73: the 0-based interval printed as diagnostic. *)
Definition start_index0 (num_points num_procs rank : Z) : Z :=
  Int32.mul rank (points_per_proc num_points num_procs).
Definition end_index0 (num_points num_procs rank : Z) : Z :=
  Int32.sub
    (fmin_int (Int32.mul (Int32.add rank 1) (points_per_proc num_points num_procs))
              num_points) 1.

(** [jacobi.c] lines 80-81 (69-70 in the 2D solver): the 1-based indices
    used for looping, the arrays holding a boundary point in front. *)
Definition start_index (num_points num_procs rank : Z) : Z :=
  Int32.add (Int32.mul rank (points_per_proc num_points num_procs)) 1.
Definition end_index (num_points num_procs rank : Z) : Z :=
  fmin_int (Int32.mul (Int32.add rank 1) (points_per_proc num_points num_procs))
           num_points.

(** The 0-based interior indices of rank [rank]. *)
Definition block (num_points num_procs rank : Z) : list Z :=
  range_incl (start_index0 num_points num_procs rank)
             (end_index0 num_points num_procs rank).

End Partition.

(** ** Doubles and libm *)

Module Double.

(** [(double) z] for an [int] [z]. *)
Definition of_int (z : Z) : float :=
  if z <? 0 then (- PrimFloat.of_uint63 (Uint63.of_Z (- z)))%float
  else PrimFloat.of_uint63 (Uint63.of_Z z).

Definition fabs (x : float) : float := PrimFloat.abs x.

(** C's [fmax]: a NaN argument is treated as missing data. *)
Definition fmax (x y : float) : float :=
  if PrimFloat.is_nan x then y
  else if PrimFloat.is_nan y then x
  else if (x <? y)%float then y else x.

(** The functions the solvers take from libm. *)
Record libm := Libm {
  exp : float → float;
  pow : float → float → float;
  sin : float → float;
  cos : float → float
}.

End Double.

(** ** Faults, and the state and error monad of a process *)

Inductive array_name := U | U_OLD | F | BUFFER | SEND_BUFFER.

Inductive fault :=
| OutOfBounds (a : array_name) (i : Z)  (** access to [a[i]] outside [a] *)
| Hang (rank source tag : Z)            (** a receive no send matches *)
| NoProcess.                            (** a collective over no process *)

Inductive result (A : Type) :=
| Ok (x : A)
| Fault (e : fault).
Arguments Ok {A} x.
Arguments Fault {A} e.

Global Instance result_ret : MRet result := λ A x, Ok x.
Global Instance result_bind : MBind result :=
  λ A B k c, match c with Ok x => k x | Fault e => Fault e end.

Definition M (S A : Type) : Type := S → result (A * S).

Global Instance M_ret {S} : MRet (M S) := λ A x s, Ok (x, s).
Global Instance M_bind {S} : MBind (M S) :=
  λ A B k c s, match c s with Ok (x, s') => k x s' | Fault e => Fault e end.

(** [l[i]] for a C index [i]. *)
Definition lookupZ {A} (l : list A) (i : Z) : option A :=
  if 0 <=? i then l !! Z.to_nat i else None.

(** A loop over [l] that threads the local variable [acc]. *)
Fixpoint foreach {S A} (l : list Z) (body : Z → A → M S A) (acc : A) : M S A :=
  match l with
  | [] => mret acc
  | i :: l' => acc' ← body i acc; foreach l' body acc'
  end.

Definition for_each {S} (l : list Z) (body : Z → M S unit) : M S unit :=
  foreach l (λ i _, body i) ().

(** The same loop, collecting what each pass yields. *)
Fixpoint collect {S A} (l : list Z) (body : Z → M S A) : M S (list A) :=
  match l with
  | [] => mret []
  | i :: l' => x ← body i; xs ← collect l' body; mret (x :: xs)
  end.

Definition when {S} (c : bool) (body : M S unit) : M S unit :=
  if c then body else mret ().

(** Every process runs [step] on its own memory; the process of rank
    [rank + k] owns the [k]-th memory of the list. *)
Fixpoint on_ranks {Mem A} (step : Z → M Mem A) (rank : Z) : M (list Mem) (list A) :=
  λ w, match w with
       | [] => Ok ([], [])
       | m :: w' =>
           '(x, m') ← step rank m;
           '(xs, w'') ← on_ranks step (rank + 1) w';
           Ok (x :: xs, m' :: w'')
       end.

(** ** What a run shows to the outside *)

Inductive field :=
| Num (x : float)
| RowAddress (i : Z).  (** the pointer [u[i]] of the 2D solver, printed as such *)

Inductive event :=
| Print (s : string)
| PointsPerProc (n : Z)
| Interval (rank lo hi : Z)
| RankInterval (rank n lo hi : Z)
| Progress (N : Z) (du_max : float)
| Finished (rank N : Z) (du_max : float)
| NotConverged (du_max tolerance : float)
| OutputFile (rank : Z) (lines : list (list field)).

(** What one process leaves behind: its exit status and its events. *)
Record outcome := Outcome { exit_status : Z; events : list event }.

(** ** MPI *)

Module MPI.

(** A message in flight. *)
Record message := Message {
  source : Z;
  dest : Z;
  tag : Z;
  payload : list float
}.

Definition matches (src dst t : Z) (m : message) : bool :=
  (source m =? src) && (dest m =? dst) && (tag m =? t).

(** The first message of [net] sent by [src] to [dst] with tag [t]. *)
Definition matching (net : list message) (src dst t : Z) : option message :=
  List.find (matches src dst t) net.

(** [MPI_MAX] on doubles. *)
Definition MAX (x y : float) : float := if (y <? x)%float then x else y.

(** [MPI_Allreduce] with [MPI_MAX] over one double per process: the
    reduction of all contributions, the same for every process. *)
Definition Allreduce_MAX {W} (contributions : list float) : M W float :=
  λ w, match contributions with
       | [] => Fault NoProcess
       | x :: xs => Ok (fold_left MAX xs x, w)
       end.

End MPI.

(** ** The iteration driver

    Both solvers run the same loop and the same check for failure after it;
    they differ in the sweep, in whether a process tells when it has left
    the loop and in the output it writes. *)

Module Driver.

Record loop_state := LoopState {
  N : Z;                    (** the sweep counter *)
  du_max : float;           (** the last global change *)
  progress : list event     (** what rank 0 printed in the loop *)
}.

Section Driver.
Context {Mem : Type}.
Variables (MAX_ITERATIONS PRINT_INTERVAL : Z) (tolerance : float).
(** One sweep of all processes, up to and including the all-reduce. *)
Variable sweep : M (list Mem) float.
(** Whether a process tells when it has left the loop ([jacobi.c] lines
    155-156; the 2D solver does not). *)
Variable announces : bool.
(** The lines a process writes to its own file. *)
Variable write_output : Z → M Mem (list (list field)).

(** One pass through the body of [while (N < MAX_ITERATIONS)]; the
    boolean tells whether the loop goes on. *)
Definition iteration (st : loop_state) : M (list Mem) (bool * loop_state) :=
  d ← sweep;
  let shown :=
    if N st `rem` PRINT_INTERVAL =? 0
    then progress st ++ [Progress (N st) d] else progress st in
  if (d <? tolerance)%float
  then mret (false, LoopState (N st) d shown)
  else mret (true, LoopState (N st + 1) d shown).

Fixpoint while_loop (fuel : nat) (st : loop_state) : M (list Mem) loop_state :=
  match fuel with
  | O => mret st
  | S fuel' =>
      if N st <? MAX_ITERATIONS then
        '(continue, st') ← iteration st;
        if continue : bool then while_loop fuel' st' else mret st'
      else mret st
  end.

(** The loop, entered with the counter at [N0]: it is left after at most
    [MAX_ITERATIONS - N0] passes. *)
Definition jacobi_iterations (N0 : Z) (du_max0 : float) : M (list Mem) loop_state :=
  while_loop (Z.to_nat (MAX_ITERATIONS - N0)) (LoopState N0 du_max0 []).

Definition announce (rank : Z) (st : loop_state) : list event :=
  if announces then [Finished rank (N st) (du_max st)] else [].

(** After the loop: the check for failure, then the output. *)
Definition conclude (st : loop_state) (rank : Z) : M Mem outcome :=
  if N st >=? MAX_ITERATIONS then
    mret (Outcome 1
            (announce rank st ++
             if rank =? 0 then [NotConverged (du_max st) tolerance] else []))
  else
    lines ← write_output rank;
    mret (Outcome 0 (announce rank st ++ [OutputFile rank lines])).

(** Rank 0 printed the progress reports before anything [conclude]
    prints. *)
Definition with_progress (st : loop_state) (outs : list outcome) : list outcome :=
  match outs with
  | [] => []
  | o :: outs' => Outcome (exit_status o) (progress st ++ events o) :: outs'
  end.

Definition solve (N0 : Z) (du_max0 : float) : M (list Mem) (list outcome) :=
  st ← jacobi_iterations N0 du_max0;
  outs ← on_ranks (conclude st) 0;
  mret (with_progress st outs).

End Driver.

End Driver.

(** ** The 1D solver, [src/C/mpi/jacobi.c] *)

Module Jacobi1D.
Import Double.

(** Problem parameters (line 29) and numerical parameters (line 32). *)
Definition alpha : float := 0.
Definition beta : float := 3.
Definition a : float := 0.
Definition b : float := 1.
Definition MAX_ITERATIONS : Z := 10000.
Definition PRINT_INTERVAL : Z := 1000.

(** The work arrays of one process (line 39). *)
Record mem := Mem { u : list float; u_old : list float; f : list float }.

Definition get (a : array_name) (m : mem) : list float :=
  match a with U => u m | U_OLD => u_old m | _ => f m end.

Definition set (a : array_name) (l : list float) (m : mem) : mem :=
  match a with
  | U => Mem l (u_old m) (f m)
  | U_OLD => Mem (u m) l (f m)
  | _ => Mem (u m) (u_old m) l
  end.

Definition load (a : array_name) (i : Z) : M mem float :=
  λ m, match lookupZ (get a m) i with
       | Some v => Ok (v, m)
       | None => Fault (OutOfBounds a i)
       end.

Definition store (a : array_name) (i : Z) (v : float) : M mem unit :=
  λ m, match lookupZ (get a m) i with
       | Some _ => Ok ((), set a (<[Z.to_nat i := v]> (get a m)) m)
       | None => Fault (OutOfBounds a i)
       end.

(** [malloc (n * sizeof (double))]: [n] doubles of unknown contents. *)
Definition malloc (garbage : Z → float) (n : Z) : list float :=
  garbage <$> seqZ 0 n.

Section Solver.
Context (lm : libm).
(** [num_points] is read by rank 0 and broadcast (lines 53-59);
    [num_procs] is the size of the communicator. *)
Variables (num_points num_procs : Z).

(** Lines 62-63. *)
Definition dx : float := ((b - a) / of_int (Int32.add num_points 1))%float.
Definition tolerance : float := (0.1 * pow lm dx 2)%float.

(** Lines 66-81. *)
Definition points_per_proc : Z := Partition.points_per_proc num_points num_procs.
Definition start_index (rank : Z) : Z := Partition.start_index num_points num_procs rank.
Definition end_index (rank : Z) : Z := Partition.end_index num_points num_procs rank.

(** Lines 53-76: what a process prints before it starts. *)
Definition startup (rank : Z) : list event :=
  (if rank =? 0
   then [Print "How many points to use?"; PointsPerProc points_per_proc]
   else []) ++
  [Interval rank (Partition.start_index0 num_points num_procs rank)
                 (Partition.end_index0 num_points num_procs rank)].

(** Lines 84-86. *)
Definition allocate (garbage : array_name → Z → float) : mem :=
  Mem (malloc (garbage U) (points_per_proc + 2))
      (malloc (garbage U_OLD) (points_per_proc + 2))
      (malloc (garbage F) (points_per_proc + 2)).

(** Lines 89-94. *)
Definition init_point (i : Z) : M mem unit :=
  let x := (dx * of_int i)%float in
  store F i (exp lm x);;
  store U i (alpha + x * (beta - alpha))%float.

(** Lines 89-102. *)
Definition initialize (rank : Z) : M mem unit :=
  for_each (range_incl (start_index rank) (end_index rank)) init_point;;
  when (rank =? 0) (store U (start_index rank - 1) alpha);;
  when (rank =? num_procs - 1) (store U (end_index rank + 1) beta).

(** Lines 108-109. *)
Definition copy_point (i : Z) : M mem unit :=
  v ← load U i; store U_OLD i v.
Definition copy_u : M mem unit :=
  for_each (range_excl 0 (points_per_proc + 2)) copy_point.

(** [MPI_Isend (&a[i], 1, MPI_DOUBLE_PRECISION, dst, t, ...)]. *)
Definition MPI_Isend (a : array_name) (i : Z) (rank dst t : Z) : M mem (list MPI.message) :=
  v ← load a i; mret [MPI.Message rank dst t [v]].

(** [MPI_Recv (&a[i], 1, MPI_DOUBLE_PRECISION, src, t, ...)]. *)
Definition MPI_Recv (net : list MPI.message) (a : array_name) (i : Z)
    (rank src t : Z) : M mem unit :=
  λ m, match MPI.matching net src rank t with
       | Some msg =>
           match MPI.payload msg with
           | v :: _ => store a i v m
           | [] => Ok ((), m)
           end
       | None => Fault (Hang rank src t)
       end.

(** Lines 114-123: the two non-blocking sends. *)
Definition post_sends (rank : Z) : M mem (list MPI.message) :=
  to_left ← (if rank >? 0
             then MPI_Isend U_OLD 0 rank (rank - 1) 1
             else mret []);
  to_right ← (if rank <? num_procs - 1
              then MPI_Isend U_OLD (end_index rank + 1) rank (rank + 1) 2
              else mret []);
  mret (to_left ++ to_right).

(** Lines 126-130: the two blocking receives; a process notes the
    messages it has taken. *)
Definition receive (net : list MPI.message) (rank : Z) : M mem (list (Z * Z)) :=
  from_right ← (if rank <? num_procs - 1
                then MPI_Recv net U_OLD (end_index rank + 1) rank (rank + 1) 1;;
                     mret [(rank + 1, 1)]
                else mret []);
  from_left ← (if rank >? 0
               then MPI_Recv net U_OLD 0 rank (rank - 1) 2;;
                    mret [(rank - 1, 2)]
               else mret []);
  mret (from_right ++ from_left).

(** Lines 114-130 over all processes: the messages posted and, for
    each process, the (source, tag) pairs it received. *)
Definition halo_exchange : M (list mem) (list MPI.message * list (list (Z * Z))) :=
  posted ← on_ranks post_sends 0;
  received ← on_ranks (receive (concat posted)) 0;
  mret (concat posted, received).

(** Lines 136-137. *)
Definition relax_point (i : Z) (du_max_proc : float) : M mem float :=
  left ← load U_OLD (i - 1);
  right ← load U_OLD (i + 1);
  rhs ← load F i;
  store U i (0.5 * (left + right - pow lm dx 2 * rhs))%float;;
  new ← load U i;
  old ← load U_OLD i;
  mret (fmax du_max_proc (fabs (new - old))).

(** The loop of lines 133-138, visiting the points in the given order. *)
Definition apply_jacobi_in (order : list Z) : M mem float :=
  foreach order relax_point 0%float.

(** Lines 133-138. *)
Definition apply_jacobi : M mem float :=
  apply_jacobi_in (range_excl 1 (points_per_proc + 1)).

(** Lines 107-141: one sweep of all processes. *)
Definition sweep : M (list mem) float :=
  on_ranks (λ _, copy_u) 0;;
  halo_exchange;;
  du_max_procs ← on_ranks (λ _, apply_jacobi) 0;
  MPI.Allreduce_MAX du_max_procs.

(** Lines 226-244; [serial_output] is the constant [false] (line 36),
    so the branch of lines 177-221 is never taken. *)
Definition write_output (rank : Z) : M mem (list (list field)) :=
  first ← (if rank =? 0
           then v ← load U 0; mret [[Num 0; Num v]]
           else mret []);
  inner ← collect (range_excl 1 (end_index rank))
            (λ i, v ← load U i; mret [Num (of_int i * dx); Num v]);
  last ← (if rank =? num_procs - 1
          then v ← load U (end_index rank + 1); mret [[Num b; Num v]]
          else mret []);
  mret (first ++ inner ++ last).

(** [main].  [N] and [du_max] are read before they are assigned (lines
    105 and 155): their initial values [N0] and [du_max0] are whatever
    the stack holds, here the same in every process ([PerProcess.main]
    lets them differ). *)
Definition main (N0 : Z) (du_max0 : float)
    (garbage : Z → array_name → Z → float) : result (list outcome) :=
  let heap := (λ rank, allocate (garbage rank)) <$> seqZ 0 num_procs in
  '(_, w) ← on_ranks initialize 0 heap;
  '(outs, _) ← Driver.solve MAX_ITERATIONS PRINT_INTERVAL tolerance
                 sweep true write_output N0 du_max0 w;
  Ok (zip_with (λ rank o, Outcome (exit_status o) (startup rank ++ events o))
               (seqZ 0 num_procs) outs).

End Solver.

End Jacobi1D.

(** ** The serial output of the 1D solver, [jacobi.c] lines 176-221

    The branch taken when [serial_output] is set (line 36 leaves it
    [false]): the processes write to the one file [jacobi_mpi.txt] in
    turn, each waiting for the previous rank to tell it to go. *)

Module SerialOutput.
Import Double Jacobi1D.

(** What the processes share: the messages in flight and the contents of
    [jacobi_mpi.txt]. *)
Record shared := Shared {
  net : list MPI.message;
  file : list (list field)
}.

(** [fopen (name, "w")] truncates the file to zero length; [fprintf]
    appends to it. *)
Definition fopen_w (contents : list (list field)) : list (list field) := [].
Definition fprintf (contents : list (list field)) (record : list field)
    : list (list field) :=
  contents ++ [record].

(** [MPI_Send (MPI_BOTTOM, 0, MPI_INTEGER, dst, 4, ...)]: an empty
    message. *)
Definition MPI_Send (rank dst : Z) (sh : shared) : shared :=
  Shared (net sh ++ [MPI.Message rank dst 4 []]) (file sh).

(** [MPI_Recv (MPI_BOTTOM, 0, MPI_INTEGER, src, 4, ...)]. *)
Definition MPI_Recv (rank src : Z) (sh : shared) : M mem unit :=
  λ m, match MPI.matching (net sh) src rank 4 with
       | Some _ => Ok ((), m)
       | None => Fault (Hang rank src 4)
       end.

Section Solver.
Variables (num_points num_procs : Z).

(** Lines 186-190 and 205-209. *)
Definition write_points (rank : Z) (contents : list (list field))
    : M mem (list (list field)) :=
  foreach (range_excl 1 (end_index num_points num_procs rank))
    (λ i contents,
       let x := (of_int i * dx num_points)%float in
       v ← load U i; mret (fprintf contents [Num x; Num v]))
    contents.

(** Lines 180-220, for the process of rank [rank]. *)
Definition write_serial (rank : Z) (sh : shared) : M mem shared :=
  if rank =? 0 then
    let contents := fopen_w (file sh) in
    v ← load U 0;
    let contents := fprintf contents [Num 0; Num v] in
    contents ← write_points rank contents;
    let sh := Shared (net sh) contents in
    mret (if num_procs >? 1 then MPI_Send rank 1 sh else sh)
  else
    MPI_Recv rank (rank - 1) sh;;
    let contents := fopen_w (file sh) in
    contents ← write_points rank contents;
    contents ← (if rank =? num_procs - 1
                then v ← load U (end_index num_points num_procs rank + 1);
                     mret (fprintf contents [Num b; Num v])
                else mret contents);
    let sh := Shared (net sh) contents in
    mret (if rank <? num_procs - 1 then MPI_Send rank (rank + 1) sh else sh).

(** The processes in the order the messages of tag 4 force: a process
    of rank above 0 opens the file only once the rank before it has closed
    it. *)
Fixpoint in_turn (rank : Z) (sh : shared) (w : list mem) : result (shared * list mem) :=
  match w with
  | [] => Ok (sh, [])
  | m :: w' =>
      '(sh', m') ← write_serial rank sh m;
      '(sh'', w'') ← in_turn (rank + 1) sh' w';
      Ok (sh'', m' :: w'')
  end.

(** The file after the run, from the contents [old] it had before. *)
Definition serial_output (old : list (list field)) : M (list mem) (list (list field)) :=
  λ w, '(sh, w') ← in_turn 0 (Shared [] old) w; Ok (file sh, w').

End Solver.

End SerialOutput.

(** ** The 1D solver, the loop variables of each process kept apart

    [N] and [du_max] are automatic variables of [main] (lines 33-34):
    every process has its own.  [du_max] is assigned by the all-reduce
    before the loop compares it, but [N] is read at line 105 without ever
    having been assigned, so the processes need not start from one value
    as they do in [Driver.solve].  Here every process carries its own loop
    variables and takes part in a sweep only while its own loop runs. *)

Module PerProcess.
Import Double Jacobi1D.

(** One process: its loop variables, and whether it is still in the
    loop. *)
Record process := Process {
  vars : Driver.loop_state;
  in_loop : bool
}.

Definition process_of (ps : list process) (rank : Z) : process :=
  default (Process (Driver.LoopState 0 0 []) false) (lookupZ ps rank).

(** The test of line 105, as the process of rank [rank] makes it. *)
Definition enters (ps : list process) (rank : Z) : bool :=
  in_loop (process_of ps rank)
  && (Driver.N (vars (process_of ps rank)) <? MAX_ITERATIONS).

(** A step made by the processes in the loop only. *)
Definition among {A} (active : Z → bool) (step : Z → M mem A) (idle : A)
    (rank : Z) : M mem A :=
  if active rank then step rank else mret idle.

(** [MPI_Allreduce] (line 141) returns once every process of the
    communicator has called it; otherwise those that called wait for ever
    for the first process that did not (a collective has no tag: 0). *)
Definition MPI_Allreduce (active : Z → bool) (du_max_procs : list float)
    : M (list mem) float :=
  λ w, let ranks := seqZ 0 (Z.of_nat (length w)) in
       match List.find (λ rank, negb (active rank)) ranks with
       | None => MPI.Allreduce_MAX du_max_procs w
       | Some missing =>
           match List.find active ranks with
           | Some waiting => Fault (Hang waiting missing 0)
           | None => Fault NoProcess
           end
       end.

Section Solver.
Context (lm : libm).
Variables (num_points num_procs : Z).

(** Lines 114-130 over the processes in the loop: only they post sends,
    and only their messages can be received. *)
Definition halo_exchange (active : Z → bool)
    : M (list mem) (list MPI.message * list (list (Z * Z))) :=
  posted ← on_ranks (among active (post_sends num_points num_procs) []) 0;
  received ← on_ranks (among active (receive num_points num_procs (concat posted)) []) 0;
  mret (concat posted, received).

(** Lines 107-141 over the processes in the loop. *)
Definition sweep (active : Z → bool) : M (list mem) float :=
  on_ranks (among active (λ _, copy_u num_points num_procs) ()) 0;;
  halo_exchange active;;
  du_max_procs ← on_ranks (among active (λ _, apply_jacobi lm num_points num_procs)
                             0%float) 0;
  MPI_Allreduce active du_max_procs.

(** Lines 143-151 in the process of rank [rank], which has received the
    global change [d]. *)
Definition after_sweep (rank : Z) (d : float) (st : Driver.loop_state) : process :=
  let shown :=
    if (rank =? 0) && (Driver.N st `rem` PRINT_INTERVAL =? 0)
    then Driver.progress st ++ [Progress (Driver.N st) d]
    else Driver.progress st in
  if (d <? tolerance lm num_points)%float
  then Process (Driver.LoopState (Driver.N st) d shown) false
  else Process (Driver.LoopState (Driver.N st + 1) d shown) true.

(** One pass through the loop body by every process whose test of line
    105 succeeds; the others have left the loop. *)
Definition round (ps : list process) : M (list mem) (list process) :=
  d ← sweep (enters ps);
  mret ((λ rank, if enters ps rank
                 then after_sweep rank d (vars (process_of ps rank))
                 else Process (vars (process_of ps rank)) false)
          <$> seqZ 0 (Z.of_nat (length ps))).

Fixpoint rounds (fuel : nat) (ps : list process) : M (list mem) (list process) :=
  match fuel with
  | O => mret ps
  | S fuel' =>
      if existsb (enters ps) (seqZ 0 (Z.of_nat (length ps)))
      then ps' ← round ps; rounds fuel' ps'
      else mret ps
  end.

(** The processes as they reach line 105, the counter of rank [rank] at
    [N0 rank]. *)
Definition start (N0 : Z → Z) (du_max0 : Z → float) : list process :=
  (λ rank, Process (Driver.LoopState (N0 rank) (du_max0 rank) []) true)
    <$> seqZ 0 num_procs.

(** No process makes more than [MAX_ITERATIONS - N0 rank] passes. *)
Definition passes (N0 : Z → Z) : nat :=
  Z.to_nat (foldr Z.max 0 ((λ rank, MAX_ITERATIONS - N0 rank) <$> seqZ 0 num_procs)).

(** [main], every process with the [N] and the [du_max] its own stack
    holds. *)
Definition main (N0 : Z → Z) (du_max0 : Z → float)
    (garbage : Z → array_name → Z → float) : result (list outcome) :=
  let heap := (λ rank, allocate num_points num_procs (garbage rank))
                <$> seqZ 0 num_procs in
  '(_, w) ← on_ranks (initialize lm num_points num_procs) 0 heap;
  '(ps, w') ← rounds (passes N0) (start N0 du_max0) w;
  '(outs, _) ← on_ranks (λ rank,
                  Driver.conclude MAX_ITERATIONS (tolerance lm num_points) true
                    (write_output num_points num_procs)
                    (vars (process_of ps rank)) rank) 0 w';
  Ok (zip_with (λ rank o,
                  Outcome (exit_status o)
                    (startup num_points num_procs rank
                     ++ Driver.progress (vars (process_of ps rank)) ++ events o))
               (seqZ 0 num_procs) outs).

End Solver.

End PerProcess.

(** ** The 2D solver *)

Module Jacobi2D.
Import Double.

(** Problem parameters (lines 28-29) and numerical parameters (lines 37
    and 62); [pow (2, 16)] is exact. *)
Definition pi : float := 3.141592654.
Definition a : float := 0.
Definition b : float := pi.
Definition MAX_ITERATIONS : Z := 65536.
Definition PRINT_INTERVAL : Z := 1000.
Definition num_points : Z := 20.

(** The work arrays of one process (lines 77-86): [u[i]] is a row of
    doubles.  [send_buffer] is used (lines 143-151) but declared nowhere;
    it is kept as one more array. *)
Record mem := Mem {
  u : list (list float);
  u_old : list (list float);
  f : list (list float);
  buffer : list float;
  send_buffer : list float
}.

Definition grid (a : array_name) (m : mem) : list (list float) :=
  match a with U => u m | U_OLD => u_old m | _ => f m end.

Definition set_grid (a : array_name) (g : list (list float)) (m : mem) : mem :=
  match a with
  | U => Mem g (u_old m) (f m) (buffer m) (send_buffer m)
  | U_OLD => Mem (u m) g (f m) (buffer m) (send_buffer m)
  | _ => Mem (u m) (u_old m) g (buffer m) (send_buffer m)
  end.

Definition vector (a : array_name) (m : mem) : list float :=
  match a with SEND_BUFFER => send_buffer m | _ => buffer m end.

Definition set_vector (a : array_name) (l : list float) (m : mem) : mem :=
  match a with
  | SEND_BUFFER => Mem (u m) (u_old m) (f m) (buffer m) l
  | _ => Mem (u m) (u_old m) (f m) l (send_buffer m)
  end.

(** [a[i][j]]. *)
Definition load (a : array_name) (i j : Z) : M mem float :=
  λ m, match lookupZ (grid a m) i with
       | Some row =>
           match lookupZ row j with
           | Some v => Ok (v, m)
           | None => Fault (OutOfBounds a j)
           end
       | None => Fault (OutOfBounds a i)
       end.

Definition store (a : array_name) (i j : Z) (v : float) : M mem unit :=
  λ m, match lookupZ (grid a m) i with
       | Some row =>
           match lookupZ row j with
           | Some _ =>
               Ok ((), set_grid a (<[Z.to_nat i := <[Z.to_nat j := v]> row]> (grid a m)) m)
           | None => Fault (OutOfBounds a j)
           end
       | None => Fault (OutOfBounds a i)
       end.

(** [a[i]] for the two buffers. *)
Definition load_vector (a : array_name) (i : Z) : M mem float :=
  λ m, match lookupZ (vector a m) i with
       | Some v => Ok (v, m)
       | None => Fault (OutOfBounds a i)
       end.

Definition store_vector (a : array_name) (i : Z) (v : float) : M mem unit :=
  λ m, match lookupZ (vector a m) i with
       | Some _ => Ok ((), set_vector a (<[Z.to_nat i := v]> (vector a m)) m)
       | None => Fault (OutOfBounds a i)
       end.

Definition new_vector (garbage : Z → float) (n : Z) : list float :=
  garbage <$> seqZ 0 n.

Definition new_grid (garbage : Z → Z → float) (rows cols : Z) : list (list float) :=
  (λ i, new_vector (garbage i) cols) <$> seqZ 0 rows.

Section Solver.
Context (lm : libm).
Variable num_procs : Z.

(** Lines 63-65. *)
Definition dx : float := ((pi - 0) / of_int (Int32.add num_points 1))%float.
Definition dy : float := dx.
Definition tolerance : float := (0.1 * pow lm dx 2)%float.

(** Lines 68-71. *)
Definition start_index (rank : Z) : Z := Partition.start_index num_points num_procs rank.
Definition end_index (rank : Z) : Z := Partition.end_index num_points num_procs rank.
Definition rank_num_points (rank : Z) : Z :=
  Int32.add (Int32.sub (end_index rank) (start_index rank)) 1.

(** Line 74. *)
Definition startup (rank : Z) : list event :=
  [RankInterval rank (rank_num_points rank) (start_index rank) (end_index rank)].

(** Lines 77-86.  With eight or more processes [rank_num_points + 2] can
    be negative, and [new double[n]] throws; the model hands out an empty
    array there. *)
Definition allocate (rank : Z) (garbage : array_name → Z → Z → float)
    (undeclared : list float) : mem :=
  let n := rank_num_points rank + 2 in
  Mem (new_grid (garbage U) n n) (new_grid (garbage U_OLD) n n)
      (new_grid (garbage F) n n) (new_vector (garbage BUFFER 0) n) undeclared.

(** Lines 91-100. *)
Definition init_point (rank i j : Z) : M mem unit :=
  let x := (dx * of_int i + a)%float in
  let y := (dy * of_int (j + start_index rank - 1) + a)%float in
  store F i j (-20.0 * sin lm x * cos lm (3.0 * y))%float;;
  store U i j (-20.0)%float.

(** Lines 91-127. *)
Definition initialize (rank : Z) : M mem unit :=
  for_each (range_excl 0 (num_points + 2)) (λ i,
    for_each (range_excl 0 (rank_num_points rank + 1)) (init_point rank i));;
  when (rank =? 0)
    (for_each (range_excl 0 (num_points + 2)) (λ i,
       let x := (of_int i + a)%float in
       store U i 0 (2.0 * sin lm x)%float));;
  for_each (range_excl 0 (rank_num_points rank + 1)) (λ j,
    store U 0 j 0%float;;
    store U (num_points + 1) j 0%float);;
  when (rank =? num_procs - 1)
    (for_each (range_excl 0 (num_points + 2)) (λ i,
       let x := (of_int i + a)%float in
       store U i (num_points + 1) (-2.0 * sin lm x)%float)).

(** Lines 134-136. *)
Definition copy_u (rank : Z) : M mem unit :=
  for_each (range_excl 0 (num_points + 2)) (λ i,
    for_each (range_excl 0 (rank_num_points rank + 2)) (λ j,
      v ← load U i j; store U_OLD i j v)).

(** [MPI_Isend (&send_buffer, num_points + 2, ..., dst, t, ...)]. *)
Definition MPI_Isend (rank dst t : Z) : M mem (list MPI.message) :=
  data ← collect (range_excl 0 (num_points + 2)) (load_vector SEND_BUFFER);
  mret [MPI.Message rank dst t data].

(** Lines 140-167.  The two [MPI_Recv] are commented out (lines 157 and
    164): the ghost rows are filled from the process's own [buffer]. *)
Definition exchange (rank : Z) : M mem (list MPI.message) :=
  up ← (if rank <? num_procs - 1
        then for_each (range_excl 0 (num_points + 2)) (λ i,
               v ← load U_OLD i (rank_num_points rank);
               store_vector SEND_BUFFER i v);;
             MPI_Isend rank (rank + 1) 1
        else mret []);
  down ← (if rank >? 0
          then for_each (range_excl 0 (num_points + 2)) (λ i,
                 v ← load U_OLD i 1;
                 store_vector BUFFER i v);;
               MPI_Isend rank (rank - 1) 2
          else mret []);
  when (rank <? num_procs - 1)
    (for_each (range_excl 0 (num_points + 2)) (λ i,
       v ← load_vector BUFFER i;
       store U_OLD i (rank_num_points rank + 1) v));;
  when (rank >? 0)
    (for_each (range_excl 0 (num_points + 2)) (λ i,
       v ← load_vector BUFFER i;
       store U_OLD i 0 v));;
  mret (up ++ down).

(** Lines 173-174. *)
Definition relax_point (i j : Z) (du_max_proc : float) : M mem float :=
  west ← load U_OLD (i - 1) j;
  east ← load U_OLD (i + 1) j;
  south ← load U_OLD i (j - 1);
  north ← load U_OLD i (j + 1);
  rhs ← load F i j;
  store U i j (0.25 * (west + east + south + north - pow lm dx 2 * rhs))%float;;
  new ← load U i j;
  old ← load U_OLD i j;
  mret (fmax du_max_proc (fabs (new - old))).

(** Lines 169-175. *)
Definition apply_jacobi (rank : Z) : M mem float :=
  foreach (range_excl 1 (num_points + 1)) (λ i,
    foreach (range_excl 1 (rank_num_points rank + 1)) (relax_point i)) 0%float.

(** Lines 133-178: one sweep of all processes. *)
Definition sweep : M (list mem) float :=
  on_ranks copy_u 0;;
  on_ranks exchange 0;;
  du_max_procs ← on_ranks apply_jacobi 0;
  MPI.Allreduce_MAX du_max_procs.

(** Lines 207-235. *)
Definition write_row (j : Z) : M mem (list field) :=
  collect (range_excl 0 (num_points + 2)) (λ i, v ← load U i j; mret (Num v)).

Definition write_output (rank : Z) : M mem (list (list field)) :=
  first ← (if rank =? 0 then mret [[Num 0; RowAddress 0]] else mret []);
  bottom ← (if rank =? 0 then row ← write_row 0; mret [row] else mret []);
  inner ← collect (range_excl 1 (rank_num_points rank + 1)) write_row;
  top ← (if rank =? num_procs - 1
         then row ← write_row (num_points + 1); mret [row]
         else mret []);
  mret (first ++ bottom ++ inner ++ top).

(** [main]; [du_max] is read unassigned when the loop is not entered. *)
Definition main (du_max0 : float)
    (garbage : Z → array_name → Z → Z → float)
    (undeclared : Z → list float) : result (list outcome) :=
  if num_procs =? 1 then
    Ok [Outcome 0 [Print "This program only handles more than one process."]]
  else
    let heap := (λ rank, allocate rank (garbage rank) (undeclared rank))
                  <$> seqZ 0 num_procs in
    '(_, w) ← on_ranks initialize 0 heap;
    '(outs, _) ← Driver.solve MAX_ITERATIONS PRINT_INTERVAL tolerance
                   sweep false write_output 0 du_max0 w;
    Ok (zip_with (λ rank o, Outcome (exit_status o) (startup rank ++ events o))
                 (seqZ 0 num_procs) outs).

End Solver.

End Jacobi2D.

(** * Vocabulary of the properties *)

(** The ceiling of [a / b], for [b > 0]: the least [c] with [a ≤ c * b]. *)
Definition ceil_div (a b : Z) : Z := - ((- a) `div` b).

(** ** Doubles *)

(** No sign bit: what [fabs] returns. *)
Definition sf_unsigned (s : spec_float) : Prop := SFabs s = s.
Definition unsigned (x : float) : Prop := PrimFloat.abs x = x.
Definition not_nan (x : float) : Prop := PrimFloat.is_nan x = false.

(** [fmax] on the specification of binary64. *)
Definition sf_max (s t : spec_float) : spec_float :=
  match s, t with
  | S754_nan, _ => t
  | _, S754_nan => s
  | _, _ => if SFltb s t then t else s
  end.

(** A change as the kernels compute it: an absolute value, not a NaN. *)
Definition is_change (x : float) : Prop := unsigned x ∧ not_nan x.

Definition fle (x y : float) : Prop := (x <=? y)%float = true.

(** ** Arrays and grids *)

(** The value of [l[i]], for stating what a loop computes. *)
Definition cell (l : list float) (i : Z) : float := default 0%float (lookupZ l i).

(** [l] with [l[i]] set to [val i] for the [i] of [order], in that order. *)
Definition bulk (val : Z → float) (order : list Z) (l : list float) : list float :=
  fold_left (λ l i, <[Z.to_nat i := val i]> l) order l.

Definition lookup2 (g : list (list float)) (i j : Z) : option float :=
  row ← lookupZ g i; lookupZ row j.

Definition cell2 (g : list (list float)) (i j : Z) : float :=
  default 0%float (lookup2 g i j).

(** [rows] rows of [cols] doubles each. *)
Definition shaped (g : list (list float)) (rows cols : Z) : Prop :=
  Z.of_nat (length g) = rows ∧ Forall (λ row, Z.of_nat (length row) = cols) g.

(** [g] with [g[i][j]] set to [v]. *)
Definition set2 (g : list (list float)) (i j : Z) (v : float) : list (list float) :=
  match lookupZ g i with
  | Some row =>
      match lookupZ row j with
      | Some _ => <[Z.to_nat i := <[Z.to_nat j := v]> row]> g
      | None => g
      end
  | None => g
  end.

(** A loop over the points [ps] of a grid. *)
Fixpoint foreach2 {S A} (ps : list (Z * Z)) (body : Z → Z → A → M S A) (acc : A) : M S A :=
  match ps with
  | [] => mret acc
  | (i, j) :: ps' => acc' ← body i j acc; foreach2 ps' body acc'
  end.

(** The points of a loop over [js] nested in a loop over [idx], in the
    order they are visited. *)
Definition pairs (idx js : list Z) : list (Z * Z) :=
  i ← idx; (λ j, (i, j)) <$> js.

(** ** Events *)

Definition is_report (e : event) : bool :=
  match e with NotConverged _ _ => true | _ => false end.

Definition is_output (e : event) : bool :=
  match e with OutputFile _ _ => true | _ => false end.

(** No event of [l] is a failure report or an output file. *)
Definition quiet (l : list event) : Prop :=
  List.filter is_report l = [] ∧ List.filter is_output l = [].

(** ** The 1D solver *)

Module Spec1D.
Import Double Jacobi1D.

(** The new value of point [i], from the previous iterate [uo] and the
    source term [ff]. *)
Definition relaxed (lm : libm) (num_points : Z) (uo ff : list float) (i : Z) : float :=
  (0.5 * (cell uo (i - 1) + cell uo (i + 1) - pow lm (dx num_points) 2 * cell ff i))%float.

Definition change (lm : libm) (num_points : Z) (uo ff : list float) (i : Z) : float :=
  fabs (relaxed lm num_points uo ff i - cell uo i).

(** The arrays as [malloc] made them (lines 84-86). *)
Definition allocated (num_points num_procs : Z) (m : mem) : Prop :=
  Z.of_nat (length (u m)) = points_per_proc num_points num_procs + 2
  ∧ Z.of_nat (length (u_old m)) = points_per_proc num_points num_procs + 2
  ∧ Z.of_nat (length (f m)) = points_per_proc num_points num_procs + 2.

(** A run of one process, its three arrays of [num_points + 2] doubles. *)
Definition single_allocated (num_points : Z) (w : list mem) : Prop :=
  ∃ m, w = [m] ∧ allocated num_points 1 m.

(** From [m] to [m'] the current iterate, the source term and the interior
    of the previous iterate are kept. *)
Definition interior_kept (num_points num_procs : Z) (m m' : mem) : Prop :=
  u m' = u m ∧ f m' = f m ∧ length (u_old m') = length (u_old m)
  ∧ ∀ i, 1 ≤ i ≤ points_per_proc num_points num_procs →
         lookupZ (u_old m') i = lookupZ (u_old m) i.

(** The serial Jacobi iteration on [num_points] interior points: every
    interior point of the new iterate is computed from the old iterate alone,
    the two boundary values stay, and the change is the largest
    [|new - old|]. *)
Definition serial_jacobi (lm : libm) (num_points : Z) (u f : list float)
    : list float * float :=
  let new i :=
    (0.5 * (cell u (i - 1) + cell u (i + 1) - pow lm (dx num_points) 2 * cell f i))%float in
  (imap (λ k old, if decide (1 ≤ Z.of_nat k ≤ num_points) then new (Z.of_nat k) else old) u,
   fold_left fmax ((λ i, fabs (new i - cell u i)) <$> seqZ 1 num_points) 0%float).

End Spec1D.

(** ** The 2D solver *)

Module Spec2D.
Import Double Jacobi2D.

Definition relaxed (lm : libm) (uo ff : list (list float)) (i j : Z) : float :=
  (0.25 * (cell2 uo (i - 1) j + cell2 uo (i + 1) j + cell2 uo i (j - 1) + cell2 uo i (j + 1)
           - pow lm dx 2 * cell2 ff i j))%float.

Definition change (lm : libm) (uo ff : list (list float)) (i j : Z) : float :=
  fabs (relaxed lm uo ff i j - cell2 uo i j).

Definition updates (lm : libm) (uo ff : list (list float)) (ps : list (Z * Z))
    (uc : list (list float)) : list (list float) :=
  fold_left (λ g p, set2 g p.1 p.2 (relaxed lm uo ff p.1 p.2)) ps uc.

(** The points the kernel visits (lines 170-171). *)
Definition interior (num_procs rank : Z) : list (Z * Z) :=
  pairs (range_excl 1 (num_points + 1))
        (range_excl 1 (rank_num_points num_procs rank + 1)).

(** The grids as the loops take them: [num_points + 2] rows ([u[i]]) of
    [rank_num_points + 2] doubles. *)
Definition grids_shaped (num_procs rank : Z) (m : mem) : Prop :=
  shaped (u m) (num_points + 2) (rank_num_points num_procs rank + 2)
  ∧ shaped (u_old m) (num_points + 2) (rank_num_points num_procs rank + 2)
  ∧ shaped (f m) (num_points + 2) (rank_num_points num_procs rank + 2).

(** The grids as lines 77-86 allocate them: [rank_num_points + 2] rows of
    [rank_num_points + 2] doubles. *)
Definition allocated (num_procs rank : Z) (m : mem) : Prop :=
  let n := rank_num_points num_procs rank + 2 in
  shaped (u m) n n ∧ shaped (u_old m) n n ∧ shaped (f m) n n.

(** From [m] to [m'] the three grids are kept. *)
Definition grids_kept (m m' : mem) : Prop :=
  u m' = u m ∧ u_old m' = u_old m ∧ f m' = f m.

(** From [m] to [m'] the current iterate and the source term are kept, and
    so are the owned rows of the previous iterate. *)
Definition rows_kept (num_procs rank : Z) (m m' : mem) : Prop :=
  u m' = u m ∧ f m' = f m
  ∧ ∀ i j, 1 ≤ j ≤ rank_num_points num_procs rank →
           lookup2 (u_old m') i j = lookup2 (u_old m) i j.

End Spec2D.

(** ** Faults, files and initial states *)

(** A computation that returns or stops at an access out of bounds: it
    waits for no message. *)
Definition in_bounds_or_fault {A} (r : result A) : Prop :=
  (∃ x, r = Ok x) ∨ (∃ a i, r = Fault (OutOfBounds a i)).

Definition oob_only {S A} (c : M S A) : Prop := ∀ s, in_bounds_or_fault (c s).

(** The record of the point of local index [i] (lines 188-189, 207-208
    and 237-238). *)
Definition point_record (num_points : Z) (m : Jacobi1D.mem) (i : Z) : list field :=
  [Num (Double.of_int i * Jacobi1D.dx num_points); Num (cell (Jacobi1D.u m) i)].

(** What the last of two or more processes writes to the serial file. *)
Definition last_file (num_points : Z) (m : Jacobi1D.mem) : list (list field) :=
  (point_record num_points m <$> seqZ 1 (num_points - 1))
  ++ [[Num Jacobi1D.b; Num (cell (Jacobi1D.u m) (num_points + 1))]].

(** The state the 1D solver starts from. *)
Module Initial1D.
Import Double Jacobi1D.

(** The values of lines 91-93 at the point [i]. *)
Definition source_term (lm : libm) (num_points i : Z) : float :=
  exp lm (dx num_points * of_int i).
Definition initial_guess (num_points i : Z) : float :=
  (alpha + (dx num_points * of_int i) * (beta - alpha))%float.


End Initial1D.


(** Two runs of one process that agree on the current iterate and on the
    source term at the interior points. *)
Definition single_agree (num_points : Z) (w1 w2 : list Jacobi1D.mem) : Prop :=
  ∃ m1 m2, w1 = [m1] ∧ w2 = [m2]
           ∧ Spec1D.allocated num_points 1 m1 ∧ Spec1D.allocated num_points 1 m2
           ∧ Jacobi1D.u m1 = Jacobi1D.u m2
           ∧ ∀ i, 1 ≤ i ≤ num_points → cell (Jacobi1D.f m1) i = cell (Jacobi1D.f m2) i.

(** What a process prints and exits with when the loop is left at the cap:
    lines 155-169 of [jacobi.c]. *)
Definition failure (announces : bool) (tolerance : float) (st : Driver.loop_state)
    (rank : Z) : outcome :=
  Outcome 1 (Driver.announce announces rank st ++
             if rank =? 0 then [NotConverged (Driver.du_max st) tolerance] else []).

(** A progress report made at a counter from [lo] up to, not including,
    [hi] that [interval] divides. *)
Definition is_progress (interval lo hi : Z) (e : event) : Prop :=
  ∃ n d, e = Progress n d ∧ n `rem` interval = 0 ∧ lo ≤ n < hi.

(** ** Processes *)

(** The processes of a run in step: every one with the counter and the
    global change of [st], the progress reports with rank 0, which prints
    them. *)
Definition in_step (num_procs : Z) (st : Driver.loop_state) (running : bool)
    : list PerProcess.process :=
  (λ rank, PerProcess.Process
             (Driver.LoopState (Driver.N st) (Driver.du_max st)
                (if rank =? 0 then Driver.progress st else []))
             running)
    <$> seqZ 0 num_procs.

(** Counters two processes can find on their stacks: rank 0 finds the
    cap, rank 1 finds 0. *)
Definition stale_counters (rank : Z) : Z :=
  if rank =? 0 then Jacobi1D.MAX_ITERATIONS else 0.

(** * Properties *)

(** ** Integers and the partition *)

Lemma wrap_in_range z : Int32.in_range z → Int32.wrap z = z.
Proof.
  unfold Int32.in_range, Int32.int_min, Int32.int_max, Int32.wrap. intros Hz.
  rewrite Z.mod_small by lia. lia.
Qed.

Ltac int_range :=
  unfold Int32.in_range, Int32.int_min, Int32.int_max in *; try lia; try nia.

Lemma ceil_div_spec a b : 0 < b → (ceil_div a b - 1) * b < a ≤ ceil_div a b * b.
Proof.
  intros Hb. unfold ceil_div.
  pose proof (Z.div_mod (- a) b ltac:(lia)) as Hdm.
  pose proof (Z.mod_pos_bound (- a) b Hb) as Hm.
  nia.
Qed.

Lemma ceil_div_unique a b c : 0 < b → (c - 1) * b < a ≤ c * b → c = ceil_div a b.
Proof.
  intros Hb Hc. pose proof (ceil_div_spec a b Hb) as Hs. nia.
Qed.

Lemma ceil_bounds N P :
  1 ≤ N → 1 ≤ P → 1 ≤ ceil_div N P ∧ P * ceil_div N P ≤ N + P - 1.
Proof. intros HN HP. pose proof (ceil_div_spec N P ltac:(lia)). nia. Qed.

Section partition_facts.
Import Partition.
Context (N P : Z) (HN : 1 ≤ N) (HP : 1 ≤ P) (Hfit : N + P ≤ Int32.int_max).
Abbreviation c := (ceil_div N P).

Lemma points_per_proc_ceil : points_per_proc N P = c.
Proof.
  unfold points_per_proc, Int32.div, Int32.sub, Int32.add.
  rewrite (wrap_in_range (N + P)) by int_range.
  rewrite (wrap_in_range (N + P - 1)) by int_range.
  rewrite Z.quot_div_nonneg by lia.
  pose proof (Z.div_mod (N + P - 1) P ltac:(lia)) as Hdm.
  pose proof (Z.mod_pos_bound (N + P - 1) P ltac:(lia)) as Hm.
  assert (0 ≤ (N + P - 1) `div` P) by (apply Z.div_pos; lia).
  rewrite wrap_in_range by int_range.
  apply ceil_div_unique; [lia|]. nia.
Qed.

Lemma start_index0_eq r : 0 ≤ r < P → start_index0 N P r = r * c.
Proof.
  intros Hr. unfold start_index0. rewrite points_per_proc_ceil.
  pose proof (ceil_bounds N P HN HP) as [Hc1 Hc2].
  unfold Int32.mul. apply wrap_in_range. int_range.
Qed.

Lemma end_index_eq r : 0 ≤ r < P → end_index N P r = Z.min ((r + 1) * c) N.
Proof.
  intros Hr. unfold end_index, fmin_int. rewrite points_per_proc_ceil.
  pose proof (ceil_bounds N P HN HP) as [Hc1 Hc2].
  unfold Int32.mul, Int32.add.
  rewrite (wrap_in_range (r + 1)) by int_range.
  rewrite wrap_in_range; [done|]. int_range.
Qed.

Lemma end_index0_eq r : 0 ≤ r < P → end_index0 N P r = Z.min ((r + 1) * c) N - 1.
Proof.
  intros Hr. pose proof (end_index_eq r Hr) as He.
  unfold end_index0. unfold end_index in He. rewrite He.
  pose proof (ceil_bounds N P HN HP) as [Hc1 Hc2].
  unfold Int32.sub. apply wrap_in_range. int_range.
Qed.

Lemma start_index_eq r : 0 ≤ r < P → start_index N P r = r * c + 1.
Proof.
  intros Hr. pose proof (start_index0_eq r Hr) as He.
  unfold start_index. unfold start_index0 in He. rewrite He.
  pose proof (ceil_bounds N P HN HP) as [Hc1 Hc2].
  unfold Int32.add. apply wrap_in_range. int_range.
Qed.

Lemma block_eq r :
  0 ≤ r < P → block N P r = seqZ (r * c) (Z.min ((r + 1) * c) N - r * c).
Proof.
  intros Hr. unfold block, range_incl.
  rewrite start_index0_eq, end_index0_eq by done. f_equal. lia.
Qed.

(** The blocks of the first [k] ranks, one after the other, are the
    indices below [min (k * c) N]. *)
Lemma blocks_prefix (k : nat) :
  Z.of_nat k ≤ P →
  concat (block N P <$> seqZ 0 (Z.of_nat k)) = seqZ 0 (Z.min (Z.of_nat k * c) N).
Proof.
  pose proof (ceil_bounds N P HN HP) as [Hc1 Hc2].
  induction k as [|k IH]; intros Hk.
  - change (Z.of_nat 0) with 0. rewrite Z.mul_0_l, Z.min_l by lia. reflexivity.
  - rewrite seqZ_S, fmap_app, concat_app, IH by lia.
    change (concat (block N P <$> [0 + Z.of_nat k]))
      with (block N P (0 + Z.of_nat k) ++ []).
    rewrite app_nil_r, Z.add_0_l, block_eq by lia.
    destruct (decide (Z.of_nat k * c ≤ N)) as [Hle|Hgt].
    + rewrite (Z.min_l (Z.of_nat k * c)) by lia.
      rewrite <- (seqZ_app 0) by lia. f_equal. lia.
    + rewrite (seqZ_nil (Z.of_nat k * c)) by lia.
      rewrite app_nil_r. f_equal. lia.
Qed.

Lemma blocks_cover : concat (block N P <$> seqZ 0 P) = seqZ 0 N.
Proof.
  pose proof (ceil_div_spec N P ltac:(lia)) as Hs.
  pose proof (blocks_prefix (Z.to_nat P)) as Hk.
  rewrite Z2Nat.id in Hk by lia. rewrite Hk by lia. f_equal. lia.
Qed.
End partition_facts.

Lemma length_concat_sum {A} (ls : list (list A)) :
  length (concat ls) = sum_list (length <$> ls).
Proof. induction ls as [|l ls IH]; simpl; [done|]. by rewrite length_app, IH. Qed.

Import Double.

(** ** Doubles: [fmax] on absolute values *)

Lemma SFcompare_unsigned s t :
  sf_unsigned s → sf_unsigned t → s ≠ S754_nan → t ≠ S754_nan →
  (SFcompare s t = Some Lt ∧ SFcompare t s = Some Gt)
  ∨ (SFcompare s t = Some Gt ∧ SFcompare t s = Some Lt)
  ∨ (SFcompare s t = Some Eq ∧ s = t).
Proof.
  unfold sf_unsigned.
  destruct s as [[]|[]| |[] m1 e1], t as [[]|[]| |[] m2 e2]; simpl;
    intros Hs Ht Hns Hnt; try discriminate; try done; auto.
  rewrite (Z.compare_antisym e1 e2).
  change (Pos.compare_cont Eq m1 m2) with (Pos.compare m1 m2).
  change (Pos.compare_cont Eq m2 m1) with (Pos.compare m2 m1).
  rewrite (Pos.compare_antisym m1 m2).
  destruct (Z.compare_spec e1 e2) as [->| |]; simpl; auto.
  destruct (Pos.compare_spec m1 m2) as [->| |]; simpl; auto.
Qed.

Lemma SFcompare_unsigned_trans s t r :
  sf_unsigned s → sf_unsigned t → sf_unsigned r →
  SFcompare s t = Some Lt → SFcompare t r = Some Lt → SFcompare s r = Some Lt.
Proof.
  unfold sf_unsigned.
  destruct s as [[]|[]| |[] m1 e1], t as [[]|[]| |[] m2 e2], r as [[]|[]| |[] m3 e3];
    simpl; intros Hs Ht Hr Hst Htr; try discriminate; try done.
  change (PosDef.Pos.compare_cont Eq m1 m2) with (Pos.compare m1 m2) in Hst.
  change (PosDef.Pos.compare_cont Eq m2 m3) with (Pos.compare m2 m3) in Htr.
  change (PosDef.Pos.compare_cont Eq m1 m3) with (Pos.compare m1 m3).
  destruct (Z.compare_spec e1 e2) as [He12| |]; try discriminate;
    destruct (Z.compare_spec e2 e3) as [He23| |]; try discriminate;
    destruct (Z.compare_spec e1 e3) as [He13| |]; try lia; try done.
  destruct (Pos.compare_spec m1 m2), (Pos.compare_spec m2 m3); try discriminate.
  f_equal. apply Pos.compare_lt_iff. lia.
Qed.

Lemma Prim2SF_is_nan x : PrimFloat.is_nan x = true ↔ Prim2SF x = S754_nan.
Proof.
  unfold PrimFloat.is_nan. rewrite FloatAxioms.eqb_spec. unfold SFeqb.
  destruct (Prim2SF x) as [[]|[]| |[] m e]; simpl; try (split; [discriminate|discriminate]);
    try done.
  all: rewrite Z.compare_refl;
    change (PosDef.Pos.compare_cont Eq m m) with (Pos.compare m m);
    rewrite Pos.compare_refl; simpl; split; discriminate.
Qed.

Lemma unsigned_spec x : unsigned x ↔ sf_unsigned (Prim2SF x).
Proof.
  unfold unsigned, sf_unsigned. rewrite <- FloatAxioms.abs_spec. split.
  - by intros ->.
  - apply Prim2SF_inj.
Qed.

Lemma unsigned_fabs x : unsigned (fabs x).
Proof.
  apply unsigned_spec. unfold fabs, sf_unsigned. rewrite FloatAxioms.abs_spec.
  by destruct (Prim2SF x).
Qed.

Lemma Prim2SF_fmax x y : Prim2SF (fmax x y) = sf_max (Prim2SF x) (Prim2SF y).
Proof.
  unfold fmax, sf_max.
  destruct (PrimFloat.is_nan x) eqn:Hx.
  { apply Prim2SF_is_nan in Hx. by rewrite Hx. }
  destruct (PrimFloat.is_nan y) eqn:Hy.
  { apply Prim2SF_is_nan in Hy. rewrite Hy. by destruct (Prim2SF x). }
  rewrite FloatAxioms.ltb_spec.
  assert (Prim2SF x ≠ S754_nan) as Hx' by (rewrite <- Prim2SF_is_nan; congruence).
  assert (Prim2SF y ≠ S754_nan) as Hy' by (rewrite <- Prim2SF_is_nan; congruence).
  destruct (SFltb (Prim2SF x) (Prim2SF y)) eqn:Hlt;
    destruct (Prim2SF x), (Prim2SF y); try done; by rewrite Hlt.
Qed.

Lemma sf_max_unsigned s t : sf_unsigned s → sf_unsigned t → sf_unsigned (sf_max s t).
Proof. unfold sf_max. destruct s, t; try done; by destruct (SFltb _ _). Qed.

Lemma sf_max_not_nan s t : s ≠ S754_nan → sf_max s t ≠ S754_nan.
Proof. unfold sf_max. destruct s, t; try done; by destruct (SFltb _ _). Qed.

(** [sf_max] of two numbers without sign: the larger one. *)
Lemma sf_max_cases s t :
  sf_unsigned s → sf_unsigned t → s ≠ S754_nan → t ≠ S754_nan →
  (SFcompare s t = Some Lt ∧ sf_max s t = t)
  ∨ (SFcompare t s = Some Lt ∧ sf_max s t = s)
  ∨ (s = t ∧ sf_max s t = s).
Proof.
  intros Hs Ht Hns Hnt.
  assert (sf_max s t = if SFltb s t then t else s) as ->
    by (unfold sf_max; destruct s, t; done).
  unfold SFltb.
  destruct (SFcompare_unsigned s t Hs Ht Hns Hnt) as [[-> ?]|[[-> ?]|[-> ?]]]; auto.
Qed.

Lemma sf_nan_cases s : s = S754_nan ∨ s ≠ S754_nan.
Proof. destruct s; auto. Qed.

Lemma sf_max_nan_r s : sf_max s S754_nan = s.
Proof. by destruct s. Qed.

Lemma sf_max_comm s t : sf_unsigned s → sf_unsigned t → sf_max s t = sf_max t s.
Proof.
  intros Hs Ht.
  destruct (sf_nan_cases s) as [->|Hns]; [by rewrite sf_max_nan_r|].
  destruct (sf_nan_cases t) as [->|Hnt]; [by rewrite sf_max_nan_r|].
  destruct (sf_max_cases s t) as [[H1 ->]|[[H1 ->]|[H1 ->]]]; try done;
  destruct (sf_max_cases t s) as [[H2 ->]|[[H2 ->]|[H2 ->]]]; try done.
  all: destruct (SFcompare_unsigned s t) as [[? ?]|[[? ?]|[? ?]]]; try done; congruence.
Qed.

Lemma SFcompare_unsigned_irrefl s : sf_unsigned s → SFcompare s s ≠ Some Lt.
Proof.
  intros Hs Hlt. destruct (sf_nan_cases s) as [->|Hns]; [done|].
  destruct (SFcompare_unsigned s s) as [[? ?]|[[? ?]|[? ?]]]; try done; congruence.
Qed.

Ltac sf_order :=
  try done;
  try (exfalso;
       repeat match goal with
       | H1 : SFcompare ?a ?b = Some Lt, H2 : SFcompare ?b ?c = Some Lt |- _ =>
           lazymatch goal with
           | _ : SFcompare a c = Some Lt |- _ => fail
           | _ => assert (SFcompare a c = Some Lt)
                    by (by apply (SFcompare_unsigned_trans a b c))
           end
       end;
       match goal with
       | H : SFcompare ?a ?a = Some Lt |- _ =>
           by apply (SFcompare_unsigned_irrefl a)
       end).

Lemma sf_max_assoc s t r :
  sf_unsigned s → sf_unsigned t → sf_unsigned r →
  sf_max (sf_max s t) r = sf_max s (sf_max t r).
Proof.
  intros Hs Ht Hr.
  destruct (sf_nan_cases s) as [->|Hns]; [done|].
  destruct (sf_nan_cases t) as [->|Hnt]; [by rewrite sf_max_nan_r|].
  destruct (sf_nan_cases r) as [->|Hnr]; [by rewrite !sf_max_nan_r|].
  destruct (sf_max_cases s t) as [[H1 E1]|[[H1 E1]|[H1 E1]]]; try done;
    destruct (sf_max_cases t r) as [[H2 E2]|[[H2 E2]|[H2 E2]]]; try done;
    rewrite ?E1, ?E2;
    repeat match goal with
    | |- context [sf_max ?a ?b] =>
        destruct (sf_max_cases a b) as [[? ->]|[[? ->]|[? ->]]]; try done
    end;
    subst; sf_order.
Qed.

Lemma SFcompare_unsigned_refl s : sf_unsigned s → s ≠ S754_nan → SFcompare s s = Some Eq.
Proof.
  intros Hs Hns.
  destruct (SFcompare_unsigned s s) as [[? ?]|[[? ?]|[? ?]]]; try done; congruence.
Qed.

Lemma SFleb_unsigned s t :
  sf_unsigned s → sf_unsigned t → s ≠ S754_nan → t ≠ S754_nan →
  SFleb s t = true ↔ SFcompare s t = Some Lt ∨ s = t.
Proof.
  intros Hs Ht Hns Hnt. unfold SFleb.
  destruct (SFcompare_unsigned s t) as [[E ?]|[[E ?]|[E ?]]]; try done; rewrite E.
  - naive_solver.
  - split; [done|]. intros [?| ->]; [done|].
    rewrite SFcompare_unsigned_refl in E; done.
  - naive_solver.
Qed.

(** *** The same on doubles *)

Lemma not_nan_spec x : not_nan x ↔ Prim2SF x ≠ S754_nan.
Proof.
  unfold not_nan. rewrite <- Prim2SF_is_nan. by destruct (PrimFloat.is_nan x).
Qed.

Lemma fmax_unsigned x y : unsigned x → unsigned y → unsigned (fmax x y).
Proof.
  rewrite !unsigned_spec, Prim2SF_fmax. apply sf_max_unsigned.
Qed.

Lemma fmax_not_nan x y : not_nan x → not_nan (fmax x y).
Proof. rewrite !not_nan_spec, Prim2SF_fmax. apply sf_max_not_nan. Qed.

Lemma fmax_comm x y : unsigned x → unsigned y → fmax x y = fmax y x.
Proof.
  rewrite !unsigned_spec. intros Hx Hy. apply Prim2SF_inj.
  rewrite !Prim2SF_fmax. by apply sf_max_comm.
Qed.

Lemma fmax_assoc x y z :
  unsigned x → unsigned y → unsigned z → fmax (fmax x y) z = fmax x (fmax y z).
Proof.
  rewrite !unsigned_spec. intros Hx Hy Hz. apply Prim2SF_inj.
  rewrite !Prim2SF_fmax. by apply sf_max_assoc.
Qed.

Lemma fmax_swap acc x y :
  unsigned acc → unsigned x → unsigned y →
  fmax (fmax acc x) y = fmax (fmax acc y) x.
Proof.
  intros Ha Hx Hy. rewrite !fmax_assoc by done. f_equal. by apply fmax_comm.
Qed.

(** The running maximum does not depend on the order of the operands. *)
Lemma fold_fmax_perm l l' acc :
  unsigned acc → Forall unsigned l → l ≡ₚ l' →
  fold_left fmax l acc = fold_left fmax l' acc.
Proof.
  intros Ha Hl Hp. revert acc Ha Hl.
  induction Hp as [|x l l' Hp IH|x y l|l l' l'' Hp1 IH1 Hp2 IH2]; intros acc Ha Hl.
  - done.
  - simpl. inversion_clear Hl. apply IH; [by apply fmax_unsigned|done].
  - simpl. inversion_clear Hl as [|?? Hy Hl']. inversion_clear Hl' as [|?? Hx Hl''].
    by rewrite (fmax_swap acc y x).
  - rewrite IH1 by done. apply IH2; [done|]. by rewrite <- Hp1.
Qed.

(** *** The all-reduce *)

Lemma fle_spec x y :
  is_change x → is_change y →
  fle x y ↔ SFcompare (Prim2SF x) (Prim2SF y) = Some Lt ∨ x = y.
Proof.
  intros [Hx1 Hx2] [Hy1 Hy2]. unfold fle. rewrite FloatAxioms.leb_spec.
  apply unsigned_spec in Hx1, Hy1. apply not_nan_spec in Hx2, Hy2.
  rewrite SFleb_unsigned by done. split; (intros [?|?]; [by left|right]).
  - by apply Prim2SF_inj.
  - by subst.
Qed.

Lemma fle_refl x : is_change x → fle x x.
Proof. intros Hx. apply fle_spec; auto. Qed.

Lemma fle_trans x y z :
  is_change x → is_change y → is_change z → fle x y → fle y z → fle x z.
Proof.
  intros Hx Hy Hz. rewrite !fle_spec by done.
  intros [H1| ->] [H2| ->]; auto. left.
  destruct Hx as [Hx _], Hy as [Hy _], Hz as [Hz _].
  apply unsigned_spec in Hx, Hy, Hz.
  by apply (SFcompare_unsigned_trans _ (Prim2SF y)).
Qed.

Lemma MPI_MAX_cases x y :
  is_change x → is_change y →
  (MPI.MAX x y = x ∧ fle y x) ∨ (MPI.MAX x y = y ∧ fle x y).
Proof.
  intros Hx Hy. unfold MPI.MAX. rewrite FloatAxioms.ltb_spec. unfold SFltb.
  pose proof (proj1 (fle_spec x y Hx Hy)) as Hxy.
  pose proof (proj2 (fle_spec x y Hx Hy)) as Hxy'.
  pose proof (proj2 (fle_spec y x Hy Hx)) as Hyx'.
  destruct Hx as [Hx1 Hx2], Hy as [Hy1 Hy2].
  apply unsigned_spec in Hx1, Hy1. apply not_nan_spec in Hx2, Hy2.
  destruct (SFcompare_unsigned (Prim2SF y) (Prim2SF x)) as [[E ?]|[[E ?]|[E ?]]];
    try done; rewrite E; auto.
  right. split; [done|]. apply Hxy'. right. by apply Prim2SF_inj.
Qed.

Lemma fold_MPI_MAX_spec xs x :
  Forall is_change (x :: xs) →
  is_change (fold_left MPI.MAX xs x)
  ∧ fold_left MPI.MAX xs x ∈ x :: xs
  ∧ ∀ d, d ∈ x :: xs → fle d (fold_left MPI.MAX xs x).
Proof.
  revert x. induction xs as [|y xs IH]; intros x Hall; simpl.
  - inversion_clear Hall. split_and!; [done|left|].
    intros d ->%list_elem_of_singleton. by apply fle_refl.
  - inversion_clear Hall as [|?? Hx Hall']. inversion_clear Hall' as [|?? Hy Hxs].
    assert (is_change (MPI.MAX x y)) as Hm
      by (destruct (MPI_MAX_cases x y Hx Hy) as [[-> _]|[-> _]]; done).
    destruct (IH (MPI.MAX x y)) as (Hg & Hin & Hle); [by constructor|].
    split_and!; [done| |].
    + apply elem_of_cons in Hin as [->|Hin].
      * destruct (MPI_MAX_cases x y Hx Hy) as [[-> _]|[-> _]];
          [left|right; left].
      * by do 2 right.
    + assert (fle (MPI.MAX x y) (fold_left MPI.MAX xs (MPI.MAX x y))) as Hmg
        by (apply Hle; left).
      intros d Hd. apply elem_of_cons in Hd as [->|Hd].
      { apply (fle_trans _ (MPI.MAX x y)); try done.
        destruct (MPI_MAX_cases x y Hx Hy) as [[-> _]|[-> ?]]; [by apply fle_refl|done]. }
      apply elem_of_cons in Hd as [->|Hd].
      { apply (fle_trans _ (MPI.MAX x y)); try done.
        destruct (MPI_MAX_cases x y Hx Hy) as [[-> ?]|[-> _]]; [done|by apply fle_refl]. }
      apply Hle. by right.
Qed.

Lemma Allreduce_MAX_inv {W} locals (w : W) g w' :
  MPI.Allreduce_MAX locals w = Ok (g, w') → Forall is_change locals →
  w' = w ∧ g ∈ locals ∧ ∀ d, d ∈ locals → fle d g.
Proof.
  unfold MPI.Allreduce_MAX. destruct locals as [|x xs]; [done|].
  intros [= <- <-] Hall. split; [done|].
  by destruct (fold_MPI_MAX_spec xs x Hall) as (_ & ? & ?).
Qed.

(** ** The monad and the arrays *)

Lemma bind_Ok {S A B} (c : M S A) (k : A → M S B) s x s' :
  c s = Ok (x, s') → (c ≫= k) s = k x s'.
Proof. unfold mbind, M_bind. by intros ->. Qed.

Lemma bind_inv {S A B} (c : M S A) (k : A → M S B) s y s'' :
  (c ≫= k) s = Ok (y, s'') → ∃ x s', c s = Ok (x, s') ∧ k x s' = Ok (y, s'').
Proof.
  unfold mbind, M_bind. destruct (c s) as [[x s']|e]; [|done]. eauto.
Qed.

Lemma lookupZ_Some {A} (l : list A) i x :
  lookupZ l i = Some x ↔ 0 ≤ i ∧ l !! Z.to_nat i = Some x.
Proof.
  unfold lookupZ. destruct (Z.leb_spec 0 i).
  - split; [auto|by intros [_ ?]].
  - split; [done|lia].
Qed.

Lemma lookupZ_None {A} (l : list A) i :
  lookupZ l i = None ↔ i < 0 ∨ Z.of_nat (length l) ≤ i.
Proof.
  unfold lookupZ. destruct (Z.leb_spec 0 i).
  - rewrite lookup_ge_None. lia.
  - split; [lia|done].
Qed.

Lemma lookupZ_is_Some {A} (l : list A) i :
  is_Some (lookupZ l i) ↔ 0 ≤ i < Z.of_nat (length l).
Proof.
  rewrite <- not_eq_None_Some, lookupZ_None. lia.
Qed.

Lemma lookupZ_insert_eq {A} (l : list A) i v :
  0 ≤ i < Z.of_nat (length l) → lookupZ (<[Z.to_nat i := v]> l) i = Some v.
Proof.
  intros Hi. apply lookupZ_Some. split; [lia|].
  apply list_lookup_insert_eq. lia.
Qed.

Lemma lookupZ_insert_ne {A} (l : list A) i j v :
  0 ≤ i → i ≠ j → lookupZ (<[Z.to_nat i := v]> l) j = lookupZ l j.
Proof.
  intros Hi Hne. unfold lookupZ. destruct (Z.leb_spec 0 j); [|done].
  apply list_lookup_insert_ne. lia.
Qed.

Lemma lookupZ_cell l i : 0 ≤ i < Z.of_nat (length l) → lookupZ l i = Some (cell l i).
Proof.
  intros Hi. unfold cell. by destruct (proj2 (lookupZ_is_Some l i) Hi) as [v ->].
Qed.

Lemma lookupZ_bulk val order l j :
  Forall (λ i, 0 ≤ i < Z.of_nat (length l)) order →
  lookupZ (bulk val order l) j =
  if decide (j ∈ order) then Some (val j) else lookupZ l j.
Proof.
  intros Hord. revert l Hord.
  induction order as [|i order IH]; intros l Hord; simpl; [done|].
  inversion_clear Hord as [|?? Hi Hord'].
  unfold bulk in *. simpl. rewrite IH by (by rewrite length_insert).
  destruct (decide (j ∈ order)) as [Hin|Hnin].
  - rewrite decide_True by (by right). done.
  - destruct (decide (i = j)) as [->|Hne].
    + rewrite decide_True by left. by rewrite lookupZ_insert_eq.
    + rewrite decide_False by (rewrite elem_of_cons; intros [?|?]; congruence).
      by rewrite lookupZ_insert_ne by lia.
Qed.

Lemma lookupZ_ext {A} (l l' : list A) : (∀ i, lookupZ l i = lookupZ l' i) → l = l'.
Proof.
  intros H. apply list_eq. intros k. specialize (H (Z.of_nat k)).
  unfold lookupZ in H.
  by rewrite (proj2 (Z.leb_le 0 (Z.of_nat k)) ltac:(lia)), Nat2Z.id in H.
Qed.

Lemma bulk_perm val order order' l :
  Forall (λ i, 0 ≤ i < Z.of_nat (length l)) order →
  order ≡ₚ order' → bulk val order l = bulk val order' l.
Proof.
  intros Hord Hp.
  assert (Forall (λ i, 0 ≤ i < Z.of_nat (length l)) order') as Hord'
    by (by rewrite <- Hp).
  apply lookupZ_ext. intros j. rewrite !lookupZ_bulk by done.
  destruct (decide (j ∈ order)) as [Hin|Hnin].
  - rewrite decide_True by (by rewrite <- Hp). done.
  - rewrite decide_False by (by rewrite <- Hp). done.
Qed.

(** What a loop keeps true of the memory, and of its local variable. *)
Lemma foreach_state_inv {S A} (I : S → Prop) (l : list Z) (body : Z → A → M S A)
    acc s acc' s' :
  (∀ i a t a' t', i ∈ l → body i a t = Ok (a', t') → I t → I t') →
  foreach l body acc s = Ok (acc', s') → I s → I s'.
Proof.
  revert acc s. induction l as [|i l IH]; intros acc s Hbody Hrun Hs; simpl in Hrun.
  - by injection Hrun as _ <-.
  - apply bind_inv in Hrun as (a1 & s1 & H1 & Hrun).
    apply (IH a1 s1); [|done|].
    + intros j a t a' t' Hj. apply Hbody. by right.
    + apply (Hbody i acc s a1 s1); [left|done|done].
Qed.

Lemma foreach_acc_inv {S A} (Q : A → Prop) (l : list Z) (body : Z → A → M S A)
    acc s acc' s' :
  (∀ i a t a' t', body i a t = Ok (a', t') → Q a → Q a') →
  foreach l body acc s = Ok (acc', s') → Q acc → Q acc'.
Proof.
  intros Hbody. revert acc s. induction l as [|i l IH]; intros acc s Hrun Hacc; simpl in Hrun.
  - by injection Hrun as <- _.
  - apply bind_inv in Hrun as (a1 & s1 & H1 & Hrun).
    apply (IH a1 s1); [done|]. by apply (Hbody i acc s a1 s1).
Qed.

Lemma mret_inv {S A} (x y : A) (s s' : S) : mret (M := M S) x s = Ok (y, s') → y = x ∧ s' = s.
Proof. by intros [= <- <-]. Qed.

Section arrays_1d.
Import Jacobi1D.

Lemma load_Ok a i m :
  0 ≤ i < Z.of_nat (length (get a m)) → load a i m = Ok (cell (get a m) i, m).
Proof. intros Hi. unfold load. by rewrite lookupZ_cell. Qed.

Lemma store_Ok a i v m :
  0 ≤ i < Z.of_nat (length (get a m)) →
  store a i v m = Ok ((), set a (<[Z.to_nat i := v]> (get a m)) m).
Proof. intros Hi. unfold store. by rewrite lookupZ_cell. Qed.

Lemma load_inv a i m v m' :
  load a i m = Ok (v, m') →
  m' = m ∧ lookupZ (get a m) i = Some v.
Proof. unfold load. destruct (lookupZ _ _); naive_solver. Qed.

Lemma store_inv a i v m m' :
  store a i v m = Ok ((), m') →
  0 ≤ i < Z.of_nat (length (get a m)) ∧ m' = set a (<[Z.to_nat i := v]> (get a m)) m.
Proof.
  unfold store. destruct (lookupZ _ _) eqn:E; [|done].
  intros [= <-]. split; [|done]. apply lookupZ_is_Some. by rewrite E.
Qed.

End arrays_1d.

Ltac mem_step :=
  erewrite bind_Ok;
  [|first [apply load_Ok | apply store_Ok]; simpl; rewrite ?length_insert; lia].

Section kernel_1d.
Import Jacobi1D.
Context (lm : libm) (num_points num_procs : Z).
Abbreviation n := (points_per_proc num_points num_procs).
Abbreviation relaxed := (Spec1D.relaxed lm num_points).
Abbreviation change := (Spec1D.change lm num_points).
Abbreviation allocated := (Spec1D.allocated num_points num_procs).
Abbreviation interior_kept := (Spec1D.interior_kept num_points num_procs).

Lemma relax_point_Ok uc uo ff i acc :
  Z.of_nat (length uc) = n + 2 → Z.of_nat (length uo) = n + 2 →
  Z.of_nat (length ff) = n + 2 → 1 ≤ i ≤ n →
  relax_point lm num_points i acc (Mem uc uo ff) =
  Ok (fmax acc (change uo ff i), Mem (<[Z.to_nat i := relaxed uo ff i]> uc) uo ff).
Proof.
  intros Hu Ho Hf Hi. unfold relax_point.
  do 6 mem_step. simpl.
  unfold Spec1D.change, Spec1D.relaxed, mret, M_ret. do 3 f_equal.
  unfold cell at 1. rewrite lookupZ_insert_eq by lia. done.
Qed.

Lemma apply_jacobi_in_Ok order uc uo ff acc :
  Z.of_nat (length uc) = n + 2 → Z.of_nat (length uo) = n + 2 →
  Z.of_nat (length ff) = n + 2 → Forall (λ i, 1 ≤ i ≤ n) order →
  foreach order (relax_point lm num_points) acc (Mem uc uo ff) =
  Ok (fold_left fmax (change uo ff <$> order) acc,
      Mem (bulk (relaxed uo ff) order uc) uo ff).
Proof.
  intros Hu Ho Hf Hord. revert uc acc Hu.
  induction Hord as [|i order Hi Hord IH]; intros uc acc Hu; simpl; [done|].
  rewrite (bind_Ok _ _ _ _ _ (relax_point_Ok uc uo ff i acc Hu Ho Hf Hi)).
  apply IH. rewrite length_insert. done.
Qed.

Lemma apply_jacobi_in_allocated order m :
  allocated m → Forall (λ i, 1 ≤ i ≤ n) order →
  apply_jacobi_in lm num_points order m =
  Ok (fold_left fmax (change (u_old m) (f m) <$> order) 0%float,
      Mem (bulk (relaxed (u_old m) (f m)) order (u m)) (u_old m) (f m)).
Proof.
  destruct m as [uc uo ff]. intros (Hu & Ho & Hf) Hord.
  by apply apply_jacobi_in_Ok.
Qed.

Lemma Forall_range_excl lo hi : Forall (λ i, lo ≤ i ≤ hi - 1) (range_excl lo hi).
Proof. unfold range_excl. apply Forall_seqZ. lia. Qed.

Lemma copy_u_Ok m :
  allocated m → copy_u num_points num_procs m = Ok ((), Mem (u m) (u m) (f m)).
Proof.
  destruct m as [uc uo ff]. intros (Hu & Ho & Hf). simpl in *.
  unfold copy_u, for_each.
  assert (∀ order l, Z.of_nat (length l) = n + 2 →
            Forall (λ i, 0 ≤ i < n + 2) order →
            foreach order (λ i _, copy_point i) () (Mem uc l ff) =
            Ok ((), Mem uc (bulk (cell uc) order l) ff)) as Hloop.
  { intros order l Hl Hord. revert l Hl.
    induction Hord as [|i order Hi Hord IH]; intros l Hl; simpl; [done|].
    assert (copy_point i (Mem uc l ff) =
            Ok ((), Mem uc (<[Z.to_nat i := cell uc i]> l) ff)) as Hstep.
    { unfold copy_point. mem_step. by rewrite store_Ok by (simpl; lia). }
    rewrite (bind_Ok _ _ _ _ _ Hstep). apply IH.
    by rewrite length_insert. }
  rewrite Hloop; [|done|].
  - do 3 f_equal. apply lookupZ_ext. intros j.
    rewrite lookupZ_bulk by (unfold range_excl; apply Forall_seqZ; lia).
    unfold range_excl. destruct (decide (j ∈ seqZ 0 (n + 2 - 0))) as [Hin|Hnin].
    + apply elem_of_seqZ in Hin. by rewrite lookupZ_cell by lia.
    + rewrite elem_of_seqZ in Hnin.
      rewrite (proj2 (lookupZ_None uo j)), (proj2 (lookupZ_None uc j)) by lia. done.
  - unfold range_excl. apply Forall_seqZ. lia.
Qed.

Lemma MPI_Isend_inv a i rank dst t m msgs m' :
  MPI_Isend a i rank dst t m = Ok (msgs, m') →
  m' = m ∧ ∃ v, lookupZ (get a m) i = Some v ∧ msgs = [MPI.Message rank dst t [v]].
Proof.
  unfold MPI_Isend. intros H. apply bind_inv in H as (v & m1 & Hl & H).
  apply load_inv in Hl as [-> Hl]. apply mret_inv in H as [-> ->]. eauto.
Qed.

Lemma post_sends_inv rank m msgs m' :
  post_sends num_points num_procs rank m = Ok (msgs, m') → m' = m.
Proof.
  unfold post_sends. intros H.
  apply bind_inv in H as (l & m1 & H1 & H).
  apply bind_inv in H as (r & m2 & H2 & H).
  apply mret_inv in H as [_ ->].
  assert (m1 = m) as ->.
  { destruct (rank >? 0); [by apply MPI_Isend_inv in H1 as [-> _]|].
    by apply mret_inv in H1 as [_ ->]. }
  destruct (rank <? num_procs - 1); [by apply MPI_Isend_inv in H2 as [-> _]|].
  by apply mret_inv in H2 as [_ ->].
Qed.

(** A receive changes [a[i]] and nothing else. *)
Lemma MPI_Recv_inv net a i rank src t m m' :
  MPI_Recv net a i rank src t m = Ok ((), m') →
  m' = m ∨ ∃ v, m' = set a (<[Z.to_nat i := v]> (get a m)) m
                ∧ 0 ≤ i < Z.of_nat (length (get a m)).
Proof.
  unfold MPI_Recv. destruct (MPI.matching net src rank t) as [msg|]; [|done].
  destruct (MPI.payload msg) as [|v ?].
  - intros [= <-]. by left.
  - intros H. apply store_inv in H as [Hi ->]. right. eauto.
Qed.

Lemma interior_kept_trans m1 m2 m3 :
  interior_kept m1 m2 → interior_kept m2 m3 → interior_kept m1 m3.
Proof.
  intros (Hu1 & Hf1 & Hl1 & Hi1) (Hu2 & Hf2 & Hl2 & Hi2).
  split_and!; try congruence. intros i Hi. by rewrite Hi2, Hi1.
Qed.

Lemma MPI_Recv_interior_kept net i rank src t m m' :
  ¬ (1 ≤ i ≤ n) →
  MPI_Recv net U_OLD i rank src t m = Ok ((), m') → interior_kept m m'.
Proof.
  intros Hi H. apply MPI_Recv_inv in H as [->|(v & -> & Hlen)]; [done|].
  destruct m as [uc uo ff]. simpl in *. split_and!; try done.
  - apply length_insert.
  - intros j Hj. apply lookupZ_insert_ne; lia.
Qed.

Lemma receive_interior_kept net rank m r m' :
  1 ≤ num_points → 1 ≤ num_procs → num_points + num_procs ≤ Int32.int_max →
  0 ≤ rank < num_procs →
  receive num_points num_procs net rank m = Ok (r, m') → interior_kept m m'.
Proof.
  intros HN HP Hfit Hrank H. unfold receive in H.
  apply bind_inv in H as (r1 & m1 & H1 & H).
  apply bind_inv in H as (r2 & m2 & H2 & H).
  apply mret_inv in H as [_ ->].
  apply (interior_kept_trans m m1 m2).
  - destruct (rank <? num_procs - 1) eqn:Hlt.
    + apply bind_inv in H1 as ([] & m0 & H1 & H1').
      apply mret_inv in H1' as [_ ->].
      refine (MPI_Recv_interior_kept _ _ _ _ _ _ _ _ H1).
      unfold end_index. rewrite (end_index_eq num_points num_procs) by done.
      unfold points_per_proc. rewrite (points_per_proc_ceil num_points num_procs) by done.
      pose proof (ceil_div_spec num_points num_procs ltac:(lia)).
      pose proof (ceil_bounds num_points num_procs HN HP).
      assert (ceil_div num_points num_procs ≤ num_points) by nia.
      nia.
    + by apply mret_inv in H1 as [_ ->].
  - destruct (rank >? 0) eqn:Hgt.
    + apply bind_inv in H2 as ([] & m0 & H2 & H2').
      apply mret_inv in H2' as [_ ->].
      refine (MPI_Recv_interior_kept _ _ _ _ _ _ _ _ H2). lia.
    + by apply mret_inv in H2 as [_ ->].
Qed.

Lemma relax_point_inv i acc m acc' m' :
  relax_point lm num_points i acc m = Ok (acc', m') → ∃ d, acc' = fmax acc (fabs d).
Proof.
  unfold relax_point. intros H.
  repeat (apply bind_inv in H as (? & ? & _ & H)).
  apply mret_inv in H as [-> _]. eauto.
Qed.

Lemma apply_jacobi_in_du order m du m' :
  apply_jacobi_in lm num_points order m = Ok (du, m') → unsigned du ∧ not_nan du.
Proof.
  unfold apply_jacobi_in. intros H.
  apply (foreach_acc_inv (λ d, unsigned d ∧ not_nan d)) in H; [done| |done].
  intros i a t a' t' Hb [Ha1 Ha2]. apply relax_point_inv in Hb as [d ->]. split.
  - apply fmax_unsigned; [done|apply unsigned_fabs].
  - by apply fmax_not_nan.
Qed.

End kernel_1d.

(** ** Grids *)

Lemma shaped_row g rows cols i :
  shaped g rows cols → 0 ≤ i < rows →
  ∃ row, lookupZ g i = Some row ∧ Z.of_nat (length row) = cols.
Proof.
  intros [Hlen Hall] Hi.
  destruct (proj2 (lookupZ_is_Some g i) ltac:(lia)) as [row Hrow].
  exists row. split; [done|].
  apply lookupZ_Some in Hrow as [_ Hrow].
  by apply (Forall_lookup_1 _ _ _ _ Hall Hrow).
Qed.

Lemma shaped_set2 g rows cols i j v : shaped g rows cols → shaped (set2 g i j v) rows cols.
Proof.
  intros [Hlen Hall]. unfold set2. destruct (lookupZ g i) as [row|] eqn:Hrow; [|done].
  destruct (lookupZ row j); [|done].
  split; [by rewrite length_insert|].
  apply Forall_insert; [done|]. rewrite length_insert.
  apply lookupZ_Some in Hrow as [_ Hrow].
  by apply (Forall_lookup_1 _ _ _ _ Hall Hrow).
Qed.

Lemma lookup2_cell2 g rows cols i j :
  shaped g rows cols → 0 ≤ i < rows → 0 ≤ j < cols →
  lookup2 g i j = Some (cell2 g i j).
Proof.
  intros Hg Hi Hj. unfold cell2, lookup2.
  destruct (shaped_row g rows cols i Hg Hi) as (row & -> & Hrow). simpl.
  by rewrite (lookupZ_cell row j) by lia.
Qed.

Lemma lookup2_set2_eq g rows cols i j v :
  shaped g rows cols → 0 ≤ i < rows → 0 ≤ j < cols →
  lookup2 (set2 g i j v) i j = Some v.
Proof.
  intros Hg Hi Hj. unfold set2, lookup2.
  destruct (shaped_row g rows cols i Hg Hi) as (row & Hrow & Hlen). rewrite Hrow.
  rewrite (lookupZ_cell row j) by lia.
  destruct Hg as [Hg _].
  rewrite lookupZ_insert_eq by lia. simpl.
  by rewrite lookupZ_insert_eq by lia.
Qed.

Lemma lookup2_set2_ne g i j i' j' v :
  (i, j) ≠ (i', j') → lookup2 (set2 g i j v) i' j' = lookup2 g i' j'.
Proof.
  intros Hne. unfold set2, lookup2.
  destruct (lookupZ g i) as [row|] eqn:Hrow; [|done].
  destruct (lookupZ row j) as [old|] eqn:Hold; [|done].
  pose proof (proj1 (lookupZ_Some _ _ _) Hrow) as [Hi0 Hrow'].
  pose proof (proj1 (lookupZ_Some _ _ _) Hold) as [Hj0 Hold'].
  destruct (decide (i = i')) as [<-|Hi].
  - rewrite lookupZ_insert_eq, Hrow by (apply lookupZ_is_Some; by rewrite Hrow).
    simpl. apply lookupZ_insert_ne; [done|]. congruence.
  - by rewrite lookupZ_insert_ne by done.
Qed.

Lemma foreach2_app {S A} (ps qs : list (Z * Z)) (body : Z → Z → A → M S A) acc s :
  foreach2 (ps ++ qs) body acc s = (acc' ← foreach2 ps body acc; foreach2 qs body acc') s.
Proof.
  revert acc s. induction ps as [|[i j] ps IH]; intros acc s; simpl; [done|].
  unfold mbind, M_bind. destruct (body i j acc s) as [[acc' s']|e]; [|done].
  apply IH.
Qed.

Lemma foreach2_row {S A} i (js : list Z) (body : Z → Z → A → M S A) acc s :
  foreach2 ((λ j, (i, j)) <$> js) body acc s = foreach js (body i) acc s.
Proof.
  revert acc s. induction js as [|j js IH]; intros acc s; simpl; [done|].
  unfold mbind, M_bind. destruct (body i j acc s) as [[acc' s']|e]; [|done].
  apply IH.
Qed.

Lemma pairs_cons i idx js : pairs (i :: idx) js = ((λ j, (i, j)) <$> js) ++ pairs idx js.
Proof. done. Qed.

Lemma foreach_nested {S A} (idx js : list Z) (body : Z → Z → A → M S A) acc s :
  foreach idx (λ i, foreach js (body i)) acc s = foreach2 (pairs idx js) body acc s.
Proof.
  revert acc s. induction idx as [|i idx IH]; intros acc s; [done|].
  rewrite pairs_cons, foreach2_app. simpl.
  unfold mbind, M_bind. rewrite foreach2_row.
  destruct (foreach js (body i) acc s) as [[acc' s']|e]; [|done].
  apply IH.
Qed.

Lemma elem_of_pairs idx js i j : (i, j) ∈ pairs idx js ↔ i ∈ idx ∧ j ∈ js.
Proof.
  unfold pairs. rewrite list_elem_of_bind. setoid_rewrite list_elem_of_fmap.
  split.
  - by intros (x & (y & [= -> ->] & Hy) & Hx).
  - intros [Hi Hj]. exists i. split; [|done]. by exists j.
Qed.

Section arrays_2d.
Import Jacobi2D.

Lemma grid_load_Ok a i j m rows cols :
  shaped (grid a m) rows cols → 0 ≤ i < rows → 0 ≤ j < cols →
  load a i j m = Ok (cell2 (grid a m) i j, m).
Proof.
  intros Hg Hi Hj. unfold load.
  pose proof (lookup2_cell2 _ _ _ i j Hg Hi Hj) as Hc. unfold lookup2 in Hc.
  destruct (shaped_row _ _ _ i Hg Hi) as (row & Hrow & Hlen).
  rewrite Hrow in Hc |- *. simpl in Hc. by rewrite Hc.
Qed.

Lemma grid_store_Ok a i j v m rows cols :
  shaped (grid a m) rows cols → 0 ≤ i < rows → 0 ≤ j < cols →
  store a i j v m = Ok ((), set_grid a (set2 (grid a m) i j v) m).
Proof.
  intros Hg Hi Hj. unfold store, set2.
  destruct (shaped_row _ _ _ i Hg Hi) as (row & Hrow & Hlen).
  rewrite Hrow. by rewrite (lookupZ_cell row j) by lia.
Qed.

Lemma grid_store_inv a i j v m m' :
  store a i j v m = Ok ((), m') → m' = set_grid a (set2 (grid a m) i j v) m.
Proof.
  unfold store, set2. destruct (lookupZ (grid a m) i) as [row|]; [|done].
  destruct (lookupZ row j); [|done]. by intros [= <-].
Qed.

Lemma grid_load_inv a i j m v m' :
  load a i j m = Ok (v, m') → m' = m ∧ lookup2 (grid a m) i j = Some v.
Proof.
  unfold load, lookup2. destruct (lookupZ (grid a m) i) as [row|]; [|done]. simpl.
  destruct (lookupZ row j); naive_solver.
Qed.

End arrays_2d.

Section kernel_2d.
Import Jacobi2D.
Context (lm : libm) (num_procs rank : Z).
Abbreviation relaxed := (Spec2D.relaxed lm).
Abbreviation change := (Spec2D.change lm).
Abbreviation updates := (Spec2D.updates lm).
Abbreviation interior := (Spec2D.interior num_procs rank).
Abbreviation rows := (num_points + 2).
Abbreviation cols := (rank_num_points num_procs rank + 2).

Lemma grid_relax_point_Ok uc uo ff bf sb i j acc :
  shaped uc rows cols → shaped uo rows cols → shaped ff rows cols →
  1 ≤ i ≤ num_points → 1 ≤ j ≤ rank_num_points num_procs rank →
  relax_point lm i j acc (Mem uc uo ff bf sb) =
  Ok (fmax acc (change uo ff i j), Mem (set2 uc i j (relaxed uo ff i j)) uo ff bf sb).
Proof.
  intros Hu Ho Hf Hi Hj. unfold relax_point.
  erewrite bind_Ok by (apply (grid_load_Ok U_OLD _ _ _ rows cols); simpl; [done|lia..]).
  erewrite bind_Ok by (apply (grid_load_Ok U_OLD _ _ _ rows cols); simpl; [done|lia..]).
  erewrite bind_Ok by (apply (grid_load_Ok U_OLD _ _ _ rows cols); simpl; [done|lia..]).
  erewrite bind_Ok by (apply (grid_load_Ok U_OLD _ _ _ rows cols); simpl; [done|lia..]).
  erewrite bind_Ok by (apply (grid_load_Ok F _ _ _ rows cols); simpl; [done|lia..]).
  erewrite bind_Ok by (apply (grid_store_Ok U _ _ _ _ rows cols); simpl; [done|lia..]).
  simpl.
  erewrite bind_Ok by (apply (grid_load_Ok U _ _ _ rows cols); simpl;
                       [by apply shaped_set2|lia..]).
  erewrite bind_Ok by (apply (grid_load_Ok U_OLD _ _ _ rows cols); simpl; [done|lia..]).
  simpl. unfold Spec2D.change, Spec2D.relaxed, mret, M_ret. do 3 f_equal.
  unfold cell2 at 1. by rewrite (lookup2_set2_eq _ rows cols) by (done || lia).
Qed.

Lemma foreach2_relax_Ok ps uc uo ff bf sb acc :
  shaped uc rows cols → shaped uo rows cols → shaped ff rows cols →
  Forall (λ p, 1 ≤ p.1 ≤ num_points ∧ 1 ≤ p.2 ≤ rank_num_points num_procs rank) ps →
  foreach2 ps (relax_point lm) acc (Mem uc uo ff bf sb) =
  Ok (fold_left fmax ((λ p, change uo ff p.1 p.2) <$> ps) acc,
      Mem (updates uo ff ps uc) uo ff bf sb).
Proof.
  intros Hu Ho Hf Hps. revert uc acc Hu.
  induction Hps as [|[i j] ps [Hi Hj] Hps IH]; intros uc acc Hu; simpl; [done|].
  rewrite (bind_Ok _ _ _ _ _ (grid_relax_point_Ok uc uo ff bf sb i j acc Hu Ho Hf Hi Hj)).
  apply IH. by apply shaped_set2.
Qed.

Lemma lookup2_updates uo ff ps uc i j :
  shaped uc rows cols →
  Forall (λ p, 0 ≤ p.1 < rows ∧ 0 ≤ p.2 < cols) ps →
  lookup2 (updates uo ff ps uc) i j =
  if decide ((i, j) ∈ ps) then Some (relaxed uo ff i j) else lookup2 uc i j.
Proof.
  intros Hu Hps. revert uc Hu.
  induction Hps as [|[i' j'] ps [Hi Hj] Hps IH]; intros uc Hu; [done|].
  unfold Spec2D.updates in *. simpl in *. rewrite IH by (by apply shaped_set2).
  destruct (decide ((i, j) ∈ ps)) as [Hin|Hnin].
  - rewrite decide_True by (by right). done.
  - destruct (decide ((i', j') = (i, j))) as [[= -> ->]|Hne].
    + rewrite decide_True by left. by rewrite (lookup2_set2_eq _ rows cols).
    + rewrite decide_False by (rewrite elem_of_cons; intros [?|?]; congruence).
      by rewrite lookup2_set2_ne.
Qed.

Lemma elem_of_interior i j :
  (i, j) ∈ interior ↔ 1 ≤ i ≤ num_points ∧ 1 ≤ j ≤ rank_num_points num_procs rank.
Proof.
  unfold Spec2D.interior, range_excl. rewrite elem_of_pairs, !elem_of_seqZ. lia.
Qed.

Lemma grid_apply_jacobi_Ok uc uo ff bf sb :
  shaped uc rows cols → shaped uo rows cols → shaped ff rows cols →
  apply_jacobi lm num_procs rank (Mem uc uo ff bf sb) =
  Ok (fold_left fmax ((λ p, change uo ff p.1 p.2) <$> interior) 0%float,
      Mem (updates uo ff interior uc) uo ff bf sb).
Proof.
  intros Hu Ho Hf. unfold apply_jacobi. rewrite foreach_nested.
  apply foreach2_relax_Ok; try done.
  apply Forall_forall. intros [i j] Hin. by apply elem_of_interior.
Qed.

End kernel_2d.

(** ** Processes side by side *)

Lemma on_ranks_inv {Mem A} (step : Z → M Mem A) rank w xs w' :
  on_ranks step rank w = Ok (xs, w') →
  length xs = length w ∧ length w' = length w
  ∧ ∀ (k : nat) m, w !! k = Some m →
      ∃ x m', step (rank + Z.of_nat k) m = Ok (x, m')
              ∧ xs !! k = Some x ∧ w' !! k = Some m'.
Proof.
  revert rank xs w'. induction w as [|m0 w IH]; intros rank xs w' H; simpl in H.
  - injection H as <- <-. split_and!; try done.
  - destruct (step rank m0) as [[x0 m0']|e] eqn:H0; simpl in H; [|done].
    destruct (on_ranks step (rank + 1) w) as [[xs1 w1]|e] eqn:H1; simpl in H; [|done].
    injection H as <- <-. destruct (IH _ _ _ H1) as (Hl1 & Hl2 & Hk).
    split_and!; simpl; try congruence.
    intros [|k] m Hm; simpl in Hm.
    + injection Hm as <-. exists x0, m0'. rewrite Z.add_0_r. done.
    + destruct (Hk k m Hm) as (x & m' & Hs & Hx & Hm').
      exists x, m'. split_and!; try done.
      by replace (rank + Z.of_nat (S k)) with (rank + 1 + Z.of_nat k) by lia.
Qed.

Lemma on_ranks_single {Mem A} (step : Z → M Mem A) rank m x m' :
  step rank m = Ok (x, m') → on_ranks step rank [m] = Ok ([x], [m']).
Proof. intros H. cbn [on_ranks]. rewrite H. reflexivity. Qed.

(** ** The driver *)

Section driver_facts.
Import Driver.
Context {Mem : Type}.
Context (MAX_ITERATIONS PRINT_INTERVAL : Z) (tolerance : float).
Context (sweep : M (list Mem) float) (announces : bool).
Context (write_output : Z → M Mem (list (list field))).

Abbreviation iteration' := (iteration PRINT_INTERVAL tolerance sweep).
Abbreviation while_loop' := (while_loop MAX_ITERATIONS PRINT_INTERVAL tolerance sweep).
Abbreviation conclude' := (conclude MAX_ITERATIONS tolerance announces write_output).

Lemma iteration_inv st w continue st' w' :
  iteration' st w = Ok ((continue, st'), w') →
  ∃ d, sweep w = Ok (d, w')
       ∧ du_max st' = d
       ∧ continue = negb (d <? tolerance)%float
       ∧ N st' = (if continue then N st + 1 else N st)
       ∧ progress st' =
         progress st ++
         (if N st `rem` PRINT_INTERVAL =? 0 then [Progress (N st) d] else []).
Proof.
  unfold iteration. intros H. apply bind_inv in H as (d & w1 & Hs & H).
  exists d.
  assert ((if N st `rem` PRINT_INTERVAL =? 0
           then progress st ++ [Progress (N st) d] else progress st) =
          progress st ++
          (if N st `rem` PRINT_INTERVAL =? 0 then [Progress (N st) d] else [])) as Hp
    by (destruct (_ =? 0); [done|by rewrite app_nil_r]).
  rewrite Hp in H.
  destruct (d <? tolerance)%float; apply mret_inv in H as [[= -> ->] ->]; done.
Qed.

Lemma quiet_app l1 l2 : quiet l1 → quiet l2 → quiet (l1 ++ l2).
Proof. unfold quiet. rewrite !List.filter_app. by intros [-> ->] [-> ->]. Qed.

Lemma while_loop_exit fuel st w st' w' :
  MAX_ITERATIONS - N st ≤ Z.of_nat fuel → quiet (progress st) →
  while_loop' fuel st w = Ok (st', w') →
  quiet (progress st')
  ∧ ((N st' < MAX_ITERATIONS ∧ (du_max st' <? tolerance)%float = true)
     ∨ (MAX_ITERATIONS ≤ N st'
        ∧ (st' = st ∨ (du_max st' <? tolerance)%float = false))).
Proof.
  revert st w. induction fuel as [|fuel IH]; intros st w Hfuel Hq H; simpl in H.
  - apply mret_inv in H as [-> ->]. split; [done|]. right. split; [lia|by left].
  - destruct (Z.ltb_spec (N st) MAX_ITERATIONS) as [Hlt|Hge].
    + apply bind_inv in H as ([continue st1] & w1 & Hit & H).
      apply iteration_inv in Hit as (d & Hs & Hd & Hc & HN & Hp).
      assert (quiet (progress st1)) as Hq1.
      { rewrite Hp. apply quiet_app; [done|]. by destruct (_ =? 0). }
      destruct continue.
      * apply IH in H as [Hq' H]; [|lia|done]. split; [done|].
        destruct H as [H|[HN' [->|H]]]; [by left| |].
        -- right. split; [done|]. right. rewrite Hd.
           symmetry in Hc. by apply negb_true_iff in Hc.
        -- right. by split; [|right].
      * apply mret_inv in H as [-> ->]. split; [done|]. left. split; [lia|].
        rewrite Hd. symmetry in Hc. by apply negb_false_iff in Hc.
    + apply mret_inv in H as [-> ->]. split; [done|]. right. split; [lia|by left].
Qed.

Lemma jacobi_iterations_exit N0 du_max0 w st w' :
  jacobi_iterations MAX_ITERATIONS PRINT_INTERVAL tolerance sweep N0 du_max0 w = Ok (st, w') →
  quiet (progress st)
  ∧ ((N st < MAX_ITERATIONS ∧ (du_max st <? tolerance)%float = true)
     ∨ (MAX_ITERATIONS ≤ N st
        ∧ (st = LoopState N0 du_max0 [] ∨ (du_max st <? tolerance)%float = false))).
Proof.
  unfold jacobi_iterations. intros H. apply while_loop_exit in H; [done| |done].
  simpl. lia.
Qed.

Lemma conclude_inv st rank m o m' :
  conclude' st rank m = Ok (o, m') →
  (MAX_ITERATIONS ≤ N st ∧ m' = m
   ∧ o = Outcome 1 (announce announces rank st ++
                    if rank =? 0 then [NotConverged (du_max st) tolerance] else []))
  ∨ (N st < MAX_ITERATIONS
     ∧ ∃ lines, write_output rank m = Ok (lines, m')
                ∧ o = Outcome 0 (announce announces rank st ++ [OutputFile rank lines])).
Proof.
  unfold conclude. destruct (Z.geb_spec (N st) MAX_ITERATIONS) as [Hge|Hlt]; intros H.
  - apply mret_inv in H as [-> ->]. left. split_and!; [lia|done..].
  - apply bind_inv in H as (lines & m1 & Hw & H). apply mret_inv in H as [-> ->].
    right. split; [lia|]. eauto.
Qed.

Lemma quiet_announce rank st : quiet (announce announces rank st).
Proof. unfold announce. destruct announces; split; reflexivity. Qed.

End driver_facts.

(** *** Runs that do not fault return *)

Lemma collect_Ok {S A} (l : list Z) (body : Z → M S A) (g : Z → A) s :
  (∀ i, i ∈ l → body i s = Ok (g i, s)) → collect l body s = Ok (g <$> l, s).
Proof.
  induction l as [|i l IH]; intros H; [done|].
  cbn [collect]. rewrite (bind_Ok _ _ _ _ _ (H i ltac:(left))).
  rewrite (bind_Ok _ _ _ _ _ (IH (λ j Hj, H j ltac:(by right)))). done.
Qed.

Lemma on_ranks_total {Mem A} (step : Z → M Mem A) rank w :
  (∀ (k : nat) m, w !! k = Some m → ∃ x m', step (rank + Z.of_nat k) m = Ok (x, m')) →
  ∃ xs w', on_ranks step rank w = Ok (xs, w').
Proof.
  revert rank. induction w as [|m w IH]; intros rank H; [by eexists _, _|].
  destruct (H 0%nat m eq_refl) as (x & m' & Hx). rewrite Z.add_0_r in Hx.
  destruct (IH (rank + 1)) as (xs & w' & Hxs).
  { intros k m0 Hk. destruct (H (S k) m0 Hk) as (y & m0' & Hy).
    exists y, m0'. by replace (rank + 1 + Z.of_nat k) with (rank + Z.of_nat (S k)) by lia. }
  exists (x :: xs), (m' :: w'). cbn [on_ranks]. rewrite Hx. cbn [mbind result_bind].
  rewrite Hxs. done.
Qed.

Section driver_total.
Import Driver.
Context {Mem : Type}.
Context (MAX_ITERATIONS PRINT_INTERVAL : Z) (tolerance : float).
Context (sweep : M (list Mem) float) (announces : bool).
Context (write_output : Z → M Mem (list (list field))).
Context (Inv : list Mem → Prop).
Context (Hsweep : ∀ w, Inv w → ∃ d w', sweep w = Ok (d, w') ∧ Inv w').

Lemma while_loop_total fuel st w :
  Inv w →
  ∃ st' w', while_loop MAX_ITERATIONS PRINT_INTERVAL tolerance sweep fuel st w = Ok (st', w')
            ∧ Inv w'.
Proof.
  revert st w. induction fuel as [|fuel IH]; intros st w Hw; cbn [while_loop].
  - by exists st, w.
  - destruct (N st <? MAX_ITERATIONS); [|by exists st, w].
    destruct (Hsweep w Hw) as (d & w1 & Hs & Hw1).
    unfold iteration, mbind, M_bind. rewrite Hs.
    destruct (d <? tolerance)%float; cbn [mret M_ret].
    + by eexists _, _.
    + by apply IH.
Qed.

Lemma solve_total N0 du_max0 w :
  (∀ w (k : nat) m, Inv w → w !! k = Some m →
        ∃ lines m', write_output (Z.of_nat k) m = Ok (lines, m')) →
  Inv w →
  ∃ outs w',
    solve MAX_ITERATIONS PRINT_INTERVAL tolerance sweep announces write_output
      N0 du_max0 w = Ok (outs, w').
Proof.
  intros Hout Hw. unfold solve, jacobi_iterations.
  destruct (while_loop_total (Z.to_nat (MAX_ITERATIONS - N0)) (LoopState N0 du_max0 []) w Hw)
    as (st & w1 & Hloop & Hw1).
  rewrite (bind_Ok _ _ _ _ _ Hloop).
  destruct (on_ranks_total (conclude MAX_ITERATIONS tolerance announces write_output st) 0 w1)
    as (outs & w2 & Hc).
  { intros k m Hk. rewrite Z.add_0_l. unfold conclude.
    destruct (N st >=? MAX_ITERATIONS); [by eexists _, _|].
    destruct (Hout w1 k m Hw1 Hk) as (lines & m' & Hl).
    rewrite (bind_Ok _ _ _ _ _ Hl). by eexists _, _. }
  rewrite (bind_Ok _ _ _ _ _ Hc). by eexists _, _.
Qed.

End driver_total.

Lemma with_progress_lookup st outs (k : nat) :
  Driver.with_progress st outs !! k =
  (λ o, if decide (k = 0%nat)
        then Outcome (exit_status o) (Driver.progress st ++ events o) else o)
    <$> outs !! k.
Proof.
  destruct outs as [|o outs]; [done|]. destruct k as [|k]; simpl; [done|].
  by destruct (outs !! k).
Qed.

Lemma on_ranks_Forall {Mem A} (Q : A → Prop) (step : Z → M Mem A) rank w xs w' :
  (∀ r m x m', step r m = Ok (x, m') → Q x) →
  on_ranks step rank w = Ok (xs, w') → Forall Q xs.
Proof.
  intros Hstep H. apply on_ranks_inv in H as (Hl1 & Hl2 & Hk).
  apply Forall_lookup. intros k x Hx.
  destruct (lookup_lt_is_Some_2 w k) as [m Hm].
  { rewrite <- Hl1. by apply lookup_lt_Some in Hx. }
  destruct (Hk k m Hm) as (x' & m' & Hs & Hx' & _).
  assert (x' = x) as -> by congruence. by apply (Hstep _ _ _ _ Hs).
Qed.

Section sweep_1d.
Import Jacobi1D.
Context (lm : libm) (num_points num_procs : Z).

Lemma sweep_inv w g w' :
  sweep lm num_points num_procs w = Ok (g, w') →
  ∃ w0 du_max_procs,
    on_ranks (λ _, apply_jacobi lm num_points num_procs) 0 w0 = Ok (du_max_procs, w')
    ∧ g ∈ du_max_procs ∧ ∀ d, d ∈ du_max_procs → (d <=? g)%float = true.
Proof.
  unfold sweep. intros H.
  apply bind_inv in H as (? & w1 & _ & H).
  apply bind_inv in H as (? & w2 & _ & H).
  apply bind_inv in H as (locals & w3 & Hk & H).
  apply Allreduce_MAX_inv in H as (-> & Hin & Hle).
  - exists w2, locals. done.
  - eapply on_ranks_Forall; [|exact Hk]. intros r m d m' Hx.
    unfold apply_jacobi in Hx. by apply apply_jacobi_in_du in Hx.
Qed.

End sweep_1d.

(** *** One process *)

Section single.
Import Jacobi1D.
Context (lm : libm) (num_points : Z).
Context (HN : 1 ≤ num_points) (Hfit : num_points + 1 ≤ Int32.int_max).

Lemma points_per_proc_single : points_per_proc num_points 1 = num_points.
Proof.
  unfold points_per_proc. rewrite points_per_proc_ceil by lia.
  symmetry. apply ceil_div_unique; lia.
Qed.

Lemma exchange_single m :
  halo_exchange num_points 1 [m] = Ok (([], [[]]), [m]).
Proof. reflexivity. Qed.

Lemma sweep_single m :
  Z.of_nat (length (u m)) = num_points + 2 →
  Z.of_nat (length (u_old m)) = num_points + 2 →
  Z.of_nat (length (f m)) = num_points + 2 →
  sweep lm num_points 1 [m] =
  Ok ((Spec1D.serial_jacobi lm num_points (u m) (f m)).2, [Mem (Spec1D.serial_jacobi lm num_points (u m) (f m)).1 (u m) (f m)]).
Proof.
  intros Hu Ho Hf. unfold sweep.
  assert (Spec1D.allocated num_points 1 m) as Ha
    by (unfold Spec1D.allocated; rewrite points_per_proc_single; done).
  erewrite bind_Ok by (apply on_ranks_single, copy_u_Ok; exact Ha).
  erewrite bind_Ok by apply exchange_single.
  assert (Spec1D.allocated num_points 1 (Mem (u m) (u m) (f m))) as Ha'
    by (unfold Spec1D.allocated in *; cbn [u u_old f];
        rewrite points_per_proc_single in *; done).
  erewrite bind_Ok.
  2:{ apply on_ranks_single. unfold apply_jacobi.
      apply (apply_jacobi_in_allocated lm num_points 1); [exact Ha'|].
      eapply Forall_impl; [apply Forall_range_excl|]. cbn beta. lia. }
  cbn [u u_old f]. unfold Spec1D.serial_jacobi, range_excl.
  rewrite points_per_proc_single.
  replace (num_points + 1 - 1) with num_points by lia.
  unfold MPI.Allreduce_MAX. cbn [fold_left fst snd]. do 3 f_equal.
  enough (bulk (Spec1D.relaxed lm num_points (u m) (f m)) (seqZ 1 num_points) (u m) =
          imap (λ k old, if decide (1 ≤ Z.of_nat k ≤ num_points)
                         then Spec1D.relaxed lm num_points (u m) (f m) (Z.of_nat k) else old)
               (u m)) as -> by done.
  apply lookupZ_ext. intros j. rewrite lookupZ_bulk by (apply Forall_seqZ; lia).
  unfold lookupZ at 2. destruct (Z.leb_spec 0 j) as [Hj|Hj].
  - rewrite list_lookup_imap. unfold lookupZ. rewrite (proj2 (Z.leb_le 0 j) Hj).
    rewrite Z2Nat.id by done.
    destruct (decide (j ∈ seqZ 1 num_points)) as [Hin|Hnin].
    + apply elem_of_seqZ in Hin.
      destruct (lookup_lt_is_Some_2 (u m) (Z.to_nat j) ltac:(lia)) as [x ->]. simpl.
      by rewrite decide_True by lia.
    + rewrite elem_of_seqZ in Hnin.
      destruct (u m !! Z.to_nat j); simpl; [|done]. by rewrite decide_False by lia.
  - rewrite decide_False by (rewrite elem_of_seqZ; lia).
    apply lookupZ_None. lia.
Qed.

Lemma end_index_single : end_index num_points 1 0 = num_points.
Proof.
  unfold end_index. rewrite end_index_eq by lia.
  rewrite <- points_per_proc_ceil by lia.
  pose proof points_per_proc_single as Hp.
  unfold points_per_proc in Hp. rewrite Hp. lia.
Qed.


Lemma sweep_single_allocated w :
  Spec1D.single_allocated num_points w →
  ∃ d w', sweep lm num_points 1 w = Ok (d, w') ∧ Spec1D.single_allocated num_points w'.
Proof.
  intros (m & -> & Ha). pose proof Ha as (Hu & Ho & Hf).
  rewrite points_per_proc_single in Hu, Ho, Hf.
  eexists _, _. split; [by apply sweep_single|].
  eexists. split; [done|].
  unfold Spec1D.allocated. cbn [u u_old f]. unfold Spec1D.serial_jacobi. cbn [fst].
  rewrite length_imap. rewrite points_per_proc_single. done.
Qed.

End single.

Lemma collect_state_inv {S A} (I : S → Prop) (l : list Z) (body : Z → M S A) s xs s' :
  (∀ i t x t', body i t = Ok (x, t') → I t → I t') →
  collect l body s = Ok (xs, s') → I s → I s'.
Proof.
  intros Hbody. revert s xs. induction l as [|i l IH]; intros s xs Hrun Hs; simpl in Hrun.
  - by apply mret_inv in Hrun as [_ ->].
  - apply bind_inv in Hrun as (x & s1 & H1 & Hrun).
    apply bind_inv in Hrun as (xs1 & s2 & H2 & Hrun).
    apply mret_inv in Hrun as [_ ->].
    apply (IH s1 xs1); [done|]. by apply (Hbody i s x s1).
Qed.

Lemma for_each_state_inv {S} (I : S → Prop) (l : list Z) (body : Z → M S unit) s s' :
  (∀ i t t', i ∈ l → body i t = Ok ((), t') → I t → I t') →
  for_each l body s = Ok ((), s') → I s → I s'.
Proof.
  intros Hbody. unfold for_each. apply foreach_state_inv.
  intros i [] t [] t' Hi. by apply Hbody.
Qed.

Lemma when_inv {S} (c : bool) (body : M S unit) s s' :
  when c body s = Ok ((), s') → (c = true ∧ body s = Ok ((), s')) ∨ (c = false ∧ s' = s).
Proof.
  unfold when. destruct c; [by left|]. intros H. apply mret_inv in H as [_ ->]. by right.
Qed.

Section vectors_2d.
Import Jacobi2D.

Lemma load_vector_inv a i m v m' : load_vector a i m = Ok (v, m') → m' = m.
Proof. unfold load_vector. destruct (lookupZ _ _); naive_solver. Qed.

Lemma store_vector_inv a i v m m' :
  store_vector a i v m = Ok ((), m') →
  u m' = u m ∧ u_old m' = u_old m ∧ f m' = f m.
Proof.
  unfold store_vector. destruct (lookupZ _ _); [|done]. intros [= <-].
  by destruct a.
Qed.

End vectors_2d.

Section frames_2d.
Import Jacobi2D.
Context (lm : libm) (num_procs rank : Z).
Abbreviation rnp := (rank_num_points num_procs rank).
Abbreviation grids_kept := Spec2D.grids_kept.
Abbreviation rows_kept := (Spec2D.rows_kept num_procs rank).

Lemma grids_kept_rows_kept m m' : grids_kept m m' → rows_kept m m'.
Proof. intros (Hu & Ho & Hf). split_and!; try done. intros i j _. by rewrite Ho. Qed.

Lemma rows_kept_trans m1 m2 m3 : rows_kept m1 m2 → rows_kept m2 m3 → rows_kept m1 m3.
Proof.
  intros (Hu1 & Hf1 & Hr1) (Hu2 & Hf2 & Hr2). split_and!; try congruence.
  intros i j Hj. by rewrite Hr2, Hr1.
Qed.

Lemma grid_MPI_Isend_inv dst t m msgs m' : MPI_Isend rank dst t m = Ok (msgs, m') → m' = m.
Proof.
  unfold MPI_Isend. intros H. apply bind_inv in H as (data & m1 & Hc & H).
  apply mret_inv in H as [_ ->].
  apply (collect_state_inv (λ t, t = m)) in Hc; [done| |done].
  intros i s x s' Hl ->. by apply load_vector_inv in Hl.
Qed.

Lemma fill_buffer_kept l a c m m' :
  for_each l (λ i, v ← load U_OLD i c; store_vector a i v) m = Ok ((), m') →
  grids_kept m m'.
Proof.
  intros H. apply (for_each_state_inv (grids_kept m)) in H; [done| |done].
  intros i t t' _ Hb (Hu & Ho & Hf).
  apply bind_inv in Hb as (v & t1 & Hl & Hs).
  apply grid_load_inv in Hl as [-> _]. apply store_vector_inv in Hs as (Hu' & Ho' & Hf').
  split_and!; congruence.
Qed.

Lemma fill_ghost_kept l c m m' :
  ¬ (1 ≤ c ≤ rnp) →
  for_each l (λ i, v ← load_vector BUFFER i; store U_OLD i c v) m = Ok ((), m') →
  rows_kept m m'.
Proof.
  intros Hc H. apply (for_each_state_inv (rows_kept m)) in H; [done| |done].
  intros i t t' _ Hb Hk. apply (rows_kept_trans _ t); [done|].
  apply bind_inv in Hb as (v & t1 & Hl & Hs).
  apply load_vector_inv in Hl as ->. apply grid_store_inv in Hs as ->.
  destruct t as [uc uo ff bf sb]. simpl. split_and!; try done.
  intros i' j Hj. apply lookup2_set2_ne. intros [= -> ->]. lia.
Qed.

(** Lines 140-167 write the two buffers and the two ghost rows of the
    previous iterate, and nothing else. *)
Lemma exchange_rows_kept m msgs m' :
  exchange num_procs rank m = Ok (msgs, m') → rows_kept m m'.
Proof.
  unfold exchange. intros H.
  apply bind_inv in H as (up & m1 & H1 & H).
  apply bind_inv in H as (down & m2 & H2 & H).
  apply bind_inv in H as ([] & m3 & H3 & H).
  apply bind_inv in H as ([] & m4 & H4 & H).
  apply mret_inv in H as [_ ->].
  assert (rows_kept m m1) as K1.
  { destruct (rank <? num_procs - 1).
    - apply bind_inv in H1 as ([] & t & Hf & Hs). apply grid_MPI_Isend_inv in Hs as ->.
      apply grids_kept_rows_kept. by apply fill_buffer_kept in Hf.
    - by apply mret_inv in H1 as [_ ->]. }
  assert (rows_kept m1 m2) as K2.
  { destruct (rank >? 0).
    - apply bind_inv in H2 as ([] & t & Hf & Hs). apply grid_MPI_Isend_inv in Hs as ->.
      apply grids_kept_rows_kept. by apply fill_buffer_kept in Hf.
    - by apply mret_inv in H2 as [_ ->]. }
  assert (rows_kept m2 m3) as K3.
  { apply when_inv in H3 as [[_ H3]|[_ ->]]; [|done].
    apply fill_ghost_kept in H3; [done|lia]. }
  assert (rows_kept m3 m4) as K4.
  { apply when_inv in H4 as [[_ H4]|[_ ->]]; [|done].
    apply fill_ghost_kept in H4; [done|lia]. }
  eauto using rows_kept_trans.
Qed.

(** Lines 134-136 write the previous iterate and nothing else. *)
Lemma grid_copy_u_kept m m' :
  copy_u num_procs rank m = Ok ((), m') →
  u m' = u m ∧ f m' = f m ∧ buffer m' = buffer m ∧ send_buffer m' = send_buffer m.
Proof.
  unfold copy_u. intros H.
  apply (for_each_state_inv
           (λ t, u t = u m ∧ f t = f m ∧ buffer t = buffer m
                 ∧ send_buffer t = send_buffer m)) in H; [done| |done].
  intros i t t' _ Hrow Ht.
  apply (for_each_state_inv
           (λ t, u t = u m ∧ f t = f m ∧ buffer t = buffer m
                 ∧ send_buffer t = send_buffer m)) in Hrow; [done| |done].
  intros j s s' _ Hb Hs.
  apply bind_inv in Hb as (v & s1 & Hl & Hst).
  apply grid_load_inv in Hl as [-> _]. apply grid_store_inv in Hst as ->.
  by destruct s.
Qed.

End frames_2d.

(** * Sample inputs *)

(** Stand-ins for libm, to run the solvers on concrete inputs. *)
Definition sample_libm : libm :=
  Libm (λ x, 1 + x + x * x / 2)%float (λ x y, x * x)%float (λ x, x) (λ x, x).

(** One process on two points, and rank 0 of two processes on the grid of
    the 2D solver (ten rows of its own, twenty points a row). *)
Definition sample_mem : Jacobi1D.mem :=
  Jacobi1D.Mem [0; 1; 2; 3]%float [9; 9; 9; 9]%float [0; 1; 1; 0]%float.

Definition sample_grid : list (list float) := replicate 22 (replicate 12 0%float).

Definition sample_mem2 : Jacobi2D.mem :=
  Jacobi2D.Mem sample_grid sample_grid sample_grid [] [].

Lemma sample_mem_allocated : Spec1D.allocated 2 1 sample_mem.
Proof. repeat split; reflexivity. Qed.

Lemma sample_mem2_shaped : Spec2D.grids_shaped 2 0 sample_mem2.
Proof.
  repeat split; try reflexivity; apply Forall_replicate; reflexivity.
Qed.

(** Rank 1 of two processes on the grid of the 2D solver, with the two
    buffers. *)
Definition sample_mem2_buffers : Jacobi2D.mem :=
  Jacobi2D.Mem sample_grid sample_grid sample_grid
    (replicate 22 1%float) (replicate 22 2%float).

Lemma sample_mem2_buffers_shaped : Spec2D.grids_shaped 2 1 sample_mem2_buffers.
Proof.
  repeat split; try reflexivity; apply Forall_replicate; reflexivity.
Qed.

(** Rank 0 of two processes of the 2D solver, its grids as lines 77-86
    allocate them: twelve rows of twelve doubles. *)
Definition sample_mem2_allocated : Jacobi2D.mem :=
  Jacobi2D.allocate 2 0 (λ _ _ _, 0%float) [].

(** The verdict of a run that returned: the loop was left either with the
    sweep counter at the cap and the global change not below the tolerance
    (or without a single sweep), or through [break] with the counter below
    the cap and the global change below the tolerance, and what every
    process then exits with and prints is fixed by which. *)
Lemma solve_verdict {Mem : Type} (MAX_ITERATIONS PRINT_INTERVAL : Z)
    (tolerance : float) (sweep : M (list Mem) float) (announces : bool)
    (write_output : Z → M Mem (list (list field)))
    (N0 : Z) (du_max0 : float) (w : list Mem) (outs : list outcome) (w' : list Mem) :
  Driver.solve MAX_ITERATIONS PRINT_INTERVAL tolerance sweep announces write_output
    N0 du_max0 w = Ok (outs, w') →
  ∃ st w1,
    Driver.jacobi_iterations MAX_ITERATIONS PRINT_INTERVAL tolerance sweep N0 du_max0 w
      = Ok (st, w1)
    ∧ length outs = length w1
    ∧ ((MAX_ITERATIONS ≤ Driver.N st
        ∧ (st = Driver.LoopState N0 du_max0 []
           ∨ (Driver.du_max st <? tolerance)%float = false)
        ∧ ∀ (k : nat) o, outs !! k = Some o →
            exit_status o = 1
            ∧ List.filter is_report (events o) =
              (if decide (k = 0%nat)
               then [NotConverged (Driver.du_max st) tolerance] else [])
            ∧ List.filter is_output (events o) = [])
       ∨ (Driver.N st < MAX_ITERATIONS
          ∧ (Driver.du_max st <? tolerance)%float = true
          ∧ ∀ (k : nat) o, outs !! k = Some o →
              exit_status o = 0
              ∧ List.filter is_report (events o) = []
              ∧ ∃ m m' lines,
                  w1 !! k = Some m
                  ∧ write_output (Z.of_nat k) m = Ok (lines, m')
                  ∧ List.filter is_output (events o) = [OutputFile (Z.of_nat k) lines]
                  ∧ last (events o) = Some (OutputFile (Z.of_nat k) lines))).
Proof.
  intros H. unfold Driver.solve in H.
  apply bind_inv in H as (st & w1 & Hloop & H).
  apply bind_inv in H as (outs0 & w2 & Hc & H).
  apply mret_inv in H as [-> ->].
  exists st, w1. split; [done|].
  apply jacobi_iterations_exit in Hloop as [[Hq1 Hq2] Hexit].
  apply on_ranks_inv in Hc as (Hl1 & Hl2 & Hk).
  split.
  { destruct outs0; simpl in *; congruence. }
  assert (∀ (k : nat) o, Driver.with_progress st outs0 !! k = Some o →
            ∃ o0 m, outs0 !! k = Some o0 ∧ w1 !! k = Some m
                    ∧ o = (if decide (k = 0%nat)
                           then Outcome (exit_status o0) (Driver.progress st ++ events o0)
                           else o0)
                    ∧ ∃ m', Driver.conclude MAX_ITERATIONS tolerance announces write_output
                              st (Z.of_nat k) m = Ok (o0, m')) as Hout.
  { intros k o Ho. rewrite with_progress_lookup in Ho.
    destruct (outs0 !! k) as [o0|] eqn:Ho0; [|done]. injection Ho as <-.
    destruct (lookup_lt_is_Some_2 w1 k) as [m Hm].
    { rewrite <- Hl1. by apply lookup_lt_Some in Ho0. }
    destruct (Hk k m Hm) as (x & m' & Hs & Hx & Hm'). rewrite Z.add_0_l in Hs.
    exists o0, m. split_and!; try done. exists m'. congruence. }
  pose proof (quiet_announce announces) as Hqa.
  destruct Hexit as [[Hlt Hd]|[Hge Hd]].
  - right. split_and!; try done. intros k o Ho.
    destruct (Hout k o Ho) as (o0 & m & Ho0 & Hm & -> & m' & Hcon).
    apply conclude_inv in Hcon as [[? _]|(_ & lines & Hw & ->)]; [lia|].
    destruct (Hqa (Z.of_nat k) st) as [Ha1 Ha2].
    assert (∀ pre, List.filter is_report pre = [] → List.filter is_output pre = [] →
              let evs := pre ++ Driver.announce announces (Z.of_nat k) st
                             ++ [OutputFile (Z.of_nat k) lines] in
              List.filter is_report evs = []
              ∧ List.filter is_output evs = [OutputFile (Z.of_nat k) lines]
              ∧ last evs = Some (OutputFile (Z.of_nat k) lines)) as Hev.
    { intros pre Hp1 Hp2. simpl. rewrite !List.filter_app, Hp1, Hp2, Ha1, Ha2.
      split_and!; try done. by rewrite !app_assoc, last_snoc. }
    destruct (decide (k = 0%nat)) as [->|Hk0]; simpl.
    + destruct (Hev (Driver.progress st) Hq1 Hq2) as (? & ? & ?).
      split_and!; try done. exists m, m', lines. done.
    + destruct (Hev [] eq_refl eq_refl) as (? & ? & ?).
      split_and!; try done. exists m, m', lines. done.
  - left. split_and!; try done. intros k o Ho.
    destruct (Hout k o Ho) as (o0 & m & Ho0 & Hm & -> & m' & Hcon).
    apply conclude_inv in Hcon as [(_ & _ & ->)|[? _]]; [|lia].
    destruct (Hqa (Z.of_nat k) st) as [Ha1 Ha2].
    destruct (decide (k = 0%nat)) as [->|Hk0]; simpl.
    + rewrite !List.filter_app, Hq1, Hq2, Ha1, Ha2. done.
    + rewrite !List.filter_app, Ha1, Ha2.
      destruct (Z.eqb_spec (Z.of_nat k) 0); [lia|done].
Qed.

(** * Further properties of the two solvers *)

(** ** Faults and loops *)

Lemma oob_only_ret {S A} (x : A) : oob_only (mret (M := M S) x).
Proof. intros s. left. by eexists. Qed.

Lemma oob_only_bind {S A B} (c : M S A) (k : A → M S B) :
  oob_only c → (∀ x, oob_only (k x)) → oob_only (c ≫= k).
Proof.
  intros Hc Hk s. unfold mbind, M_bind.
  destruct (Hc s) as [[[x s'] ->]|(a & i & ->)]; [apply Hk|].
  right. by eexists _, _.
Qed.

Lemma oob_only_foreach {S A} (l : list Z) (body : Z → A → M S A) acc :
  (∀ i acc, oob_only (body i acc)) → oob_only (foreach l body acc).
Proof.
  intros Hbody. revert acc. induction l as [|i l IH]; intros acc; cbn [foreach].
  - apply oob_only_ret.
  - apply oob_only_bind; [apply Hbody|apply IH].
Qed.

Lemma oob_only_for_each {S} (l : list Z) (body : Z → M S unit) :
  (∀ i, oob_only (body i)) → oob_only (for_each l body).
Proof. intros Hbody. apply oob_only_foreach. intros i _. apply Hbody. Qed.

Lemma oob_only_collect {S A} (l : list Z) (body : Z → M S A) :
  (∀ i, oob_only (body i)) → oob_only (collect l body).
Proof.
  intros Hbody. induction l as [|i l IH]; cbn [collect].
  - apply oob_only_ret.
  - apply oob_only_bind; [apply Hbody|]. intros x.
    apply oob_only_bind; [apply IH|]. intros xs. apply oob_only_ret.
Qed.

Lemma oob_only_when {S} (c : bool) (body : M S unit) :
  oob_only body → oob_only (when c body).
Proof. intros Hb. unfold when. destruct c; [done|apply oob_only_ret]. Qed.

Lemma oob_only_load a i : oob_only (Jacobi1D.load a i).
Proof.
  intros m. unfold Jacobi1D.load. destruct (lookupZ _ _); [left; by eexists|right; by eexists _, _].
Qed.

Lemma oob_only_store a i v : oob_only (Jacobi1D.store a i v).
Proof.
  intros m. unfold Jacobi1D.store. destruct (lookupZ _ _); [left; by eexists|right; by eexists _, _].
Qed.

(** The processes run in rank order: the run stops at the first fault. *)
Lemma on_ranks_fault {Mem A} (step : Z → M Mem A) rank w (k : nat) m :
  (∀ (j : nat) mj, w !! j = Some mj → in_bounds_or_fault (step (rank + Z.of_nat j) mj)) →
  w !! k = Some m →
  (∀ x, step (rank + Z.of_nat k) m ≠ Ok x) →
  ∃ a i, on_ranks step rank w = Fault (OutOfBounds a i).
Proof.
  revert rank k. induction w as [|m0 w IH]; intros rank k Hall Hk Hbad; [done|].
  cbn [on_ranks].
  destruct (Hall 0%nat m0 eq_refl) as [[[x m0'] H0]|(a & i & H0)];
    rewrite Z.add_0_r in H0; rewrite H0; cbn [mbind result_bind].
  - destruct k as [|k].
    + injection Hk as <-. rewrite Z.add_0_r in Hbad. by destruct (Hbad (x, m0')).
    + destruct (IH (rank + 1) k) as (a & i & ->); [|done| |by eexists _, _].
      * intros j mj Hj. replace (rank + 1 + Z.of_nat j) with (rank + Z.of_nat (S j)) by lia.
        by apply Hall.
      * by replace (rank + 1 + Z.of_nat k) with (rank + Z.of_nat (S k)) by lia.
  - by eexists _, _.
Qed.

Lemma on_ranks_oob_only {Mem A} (step : Z → M Mem A) rank :
  (∀ r, oob_only (step r)) → oob_only (on_ranks step rank).
Proof.
  intros Hstep w. revert rank. induction w as [|m w IH]; intros rank; cbn [on_ranks].
  - left. by eexists.
  - destruct (Hstep rank m) as [[[x m'] ->]|(a & i & ->)]; cbn [mbind result_bind].
    + destruct (IH (rank + 1)) as [[[xs w'] ->]|(a & i & ->)]; cbn [mbind result_bind].
      * left. by eexists.
      * right. by eexists _, _.
    + right. by eexists _, _.
Qed.

(** ** The partition *)

(** X1.  No block is larger than [points_per_proc], the size the 1D arrays
    are allocated for, and a block that ends at or before the last point is
    exactly that large; rank 0 always owns a point.  The size of a block is
    [end_index - start_index + 1] where that is positive; it is what the 2D
    solver takes for [rank_num_points], also when it is 0 or negative, for a
    rank that starts beyond the last point. *)
Theorem block_sizes (N P r : Z) :
  1 ≤ N → 1 ≤ P → N + P ≤ Int32.int_max → 0 ≤ r < P →
  Z.of_nat (length (Partition.block N P r)) ≤ Partition.points_per_proc N P
  ∧ ((r + 1) * Partition.points_per_proc N P ≤ N →
     Z.of_nat (length (Partition.block N P r)) = Partition.points_per_proc N P)
  ∧ 1 ≤ Z.of_nat (length (Partition.block N P 0))
  ∧ Z.of_nat (length (Partition.block N P r)) =
    Z.max 0 (Partition.end_index N P r - Partition.start_index N P r + 1)
  ∧ (N = Jacobi2D.num_points →
     Jacobi2D.rank_num_points P r =
     Partition.end_index N P r - Partition.start_index N P r + 1).
Proof.
  intros HN HP Hfit Hr.
  pose proof (ceil_bounds N P HN HP) as [Hc1 Hc2].
  pose proof (ceil_div_spec N P ltac:(lia)) as Hs.
  rewrite !(block_eq N P) by lia. rewrite !length_seqZ.
  rewrite (points_per_proc_ceil N P), (end_index_eq N P), (start_index_eq N P) by lia.
  split_and!; try lia; try nia.
  intros ->. unfold Jacobi2D.rank_num_points, Jacobi2D.end_index, Jacobi2D.start_index.
  rewrite (end_index_eq _ P), (start_index_eq _ P) by lia.
  unfold Int32.add, Int32.sub.
  rewrite (wrap_in_range (_ - _)) by (unfold Jacobi2D.num_points in *; int_range).
  rewrite wrap_in_range by (unfold Jacobi2D.num_points in *; int_range). lia.
Qed.
Lemma block_sizes_witness :
  Z.of_nat (length (Partition.block 10 4 3)) ≤ Partition.points_per_proc 10 4.
Proof.
  refine (proj1 (block_sizes 10 4 3 _ _ _ _)); unfold Int32.int_max; lia.
Defined.

(** ** The 1D solver: two or more processes *)

Section init_1d.
Import Jacobi1D.
Context (lm : libm) (num_points num_procs : Z).

Lemma oob_only_initialize rank : oob_only (initialize lm num_points num_procs rank).
Proof.
  unfold initialize.
  apply oob_only_bind; [|intros _; apply oob_only_bind; [|intros _]].
  - apply oob_only_for_each. intros i. unfold init_point.
    apply oob_only_bind; [apply oob_only_store|intros _; apply oob_only_store].
  - apply oob_only_when, oob_only_store.
  - apply oob_only_when, oob_only_store.
Qed.

Lemma store_length a i v m m' :
  store a i v m = Ok ((), m') →
  length (u m') = length (u m) ∧ length (u_old m') = length (u_old m)
  ∧ length (f m') = length (f m).
Proof.
  intros H. apply store_inv in H as [_ ->].
  destruct a; cbn [set get u u_old f]; by rewrite ?length_insert.
Qed.

Lemma init_point_length i m m' :
  init_point lm num_points i m = Ok ((), m') →
  length (u m') = length (u m) ∧ length (u_old m') = length (u_old m)
  ∧ length (f m') = length (f m).
Proof.
  unfold init_point. intros H. apply bind_inv in H as ([] & m1 & H1 & H2).
  apply store_length in H1 as (? & ? & ?). apply store_length in H2 as (? & ? & ?).
  split_and!; congruence.
Qed.

Context (HN : 2 ≤ num_points) (HP : 2 ≤ num_procs).
Context (Hfit : num_points + num_procs ≤ Int32.int_max).

Lemma initialize_last_rank m :
  Spec1D.allocated num_points num_procs m →
  ∀ x, initialize lm num_points num_procs (num_procs - 1) m ≠ Ok x.
Proof.
  intros (Hu & _ & _) [[] m'] H. unfold initialize in H.
  apply bind_inv in H as ([] & m1 & H1 & H).
  apply bind_inv in H as ([] & m2 & H2 & H).
  assert (length (u m1) = length (u m)) as Hl1.
  { refine (for_each_state_inv (λ t, length (u t) = length (u m)) _ _ _ _ _ H1 eq_refl).
    intros i t t' _ Hi Ht. apply init_point_length in Hi as (-> & _). done. }
  assert (m2 = m1) as ->.
  { apply when_inv in H2 as [[Hc _]|[_ ->]]; [|done]. lia. }
  apply when_inv in H as [[_ H]|[Hc _]]; [|lia].
  apply store_inv in H as [Hi _]. cbn [get] in Hi.
  unfold end_index in Hi. rewrite end_index_eq in Hi by lia.
  unfold points_per_proc in Hu. rewrite points_per_proc_ceil in Hu by lia.
  pose proof (ceil_div_spec num_points num_procs ltac:(lia)).
  assert (ceil_div num_points num_procs < num_points) by nia.
  nia.
Qed.

End init_1d.

Lemma allocate_allocated num_points num_procs garbage :
  1 ≤ num_points → 1 ≤ num_procs → num_points + num_procs ≤ Int32.int_max →
  Spec1D.allocated num_points num_procs (Jacobi1D.allocate num_points num_procs garbage).
Proof.
  intros HN HP Hfit. unfold Spec1D.allocated, Jacobi1D.allocate, Jacobi1D.malloc.
  cbn [Jacobi1D.u Jacobi1D.u_old Jacobi1D.f].
  rewrite !length_fmap, !length_seqZ.
  unfold Jacobi1D.points_per_proc. rewrite points_per_proc_ceil by lia.
  pose proof (ceil_bounds num_points num_procs HN HP). lia.
Qed.

(** X5.  With two or more points on two or more processes the 1D solver
    does not get past its initialization: the last rank stores the right
    boundary value at [u[num_points + 1]], beyond the
    [points_per_proc + 2] doubles of [u], unless a store of the
    initialization loop has left the arrays before. *)
Theorem main_parallel_out_of_bounds (lm : libm) (num_points num_procs N0 : Z)
    (du_max0 : float) (garbage : Z → array_name → Z → float) :
  2 ≤ num_points → 2 ≤ num_procs → num_points + num_procs ≤ Int32.int_max →
  (∀ x, Jacobi1D.initialize lm num_points num_procs (num_procs - 1)
          (Jacobi1D.allocate num_points num_procs (garbage (num_procs - 1))) ≠ Ok x)
  ∧ ∃ a i, Jacobi1D.main lm num_points num_procs N0 du_max0 garbage
           = Fault (OutOfBounds a i).
Proof.
  intros HN HP Hfit.
  assert (∀ x, Jacobi1D.initialize lm num_points num_procs (num_procs - 1)
                 (Jacobi1D.allocate num_points num_procs (garbage (num_procs - 1))) ≠ Ok x)
    as Hlast.
  { apply initialize_last_rank; [done..|]. apply allocate_allocated; lia. }
  split; [exact Hlast|]. unfold Jacobi1D.main.
  edestruct (on_ranks_fault (Jacobi1D.initialize lm num_points num_procs) 0
               ((λ rank, Jacobi1D.allocate num_points num_procs (garbage rank))
                  <$> seqZ 0 num_procs) (Z.to_nat (num_procs - 1)))
    as (a & i & Hf).
  - intros j mj _. apply oob_only_initialize.
  - rewrite list_lookup_fmap, lookup_seqZ_lt by lia. cbn [fmap option_fmap option_map].
    reflexivity.
  - rewrite Z2Nat.id by lia. rewrite Z.add_0_l.
    replace (0 + (num_procs - 1)) with (num_procs - 1) by lia. exact Hlast.
  - exists a, i. cbv zeta. rewrite Hf. reflexivity.
Qed.
Lemma main_parallel_out_of_bounds_witness :
  ∃ a i, Jacobi1D.main sample_libm 4 2 0 0%float (λ _ _ _, 0%float)
         = Fault (OutOfBounds a i).
Proof.
  refine (proj2 (main_parallel_out_of_bounds sample_libm 4 2 0 0%float
                   (λ _ _ _, 0%float) _ _ _)).
  - lia.
  - lia.
  - unfold Int32.int_max. lia.
Defined.

(** ** The 1D solver: the two ways of writing the output *)

Lemma foreach_Ok {S A} (l : list Z) (body : Z → A → M S A) (g : Z → A → A) acc s :
  (∀ i acc, i ∈ l → body i acc s = Ok (g i acc, s)) →
  foreach l body acc s = Ok (fold_left (λ acc i, g i acc) l acc, s).
Proof.
  revert acc. induction l as [|i l IH]; intros acc H; [done|].
  cbn [foreach fold_left]. rewrite (bind_Ok _ _ _ _ _ (H i acc ltac:(left))).
  apply IH. intros j acc' Hj. apply H. by right.
Qed.

Lemma fold_left_snoc_map {A B} (g : A → B) (l : list A) (acc : list B) :
  fold_left (λ acc i, acc ++ [g i]) l acc = acc ++ (g <$> l).
Proof.
  revert acc. induction l as [|i l IH]; intros acc; cbn [fold_left fmap list_fmap].
  - by rewrite app_nil_r.
  - rewrite IH. by rewrite <- app_assoc.
Qed.

Section serial.
Import Jacobi1D SerialOutput.
Context (num_points num_procs : Z).

Lemma write_points_Ok rank contents m :
  end_index num_points num_procs rank ≤ Z.of_nat (length (u m)) →
  write_points num_points num_procs rank contents m =
  Ok (contents ++ (point_record num_points m <$> range_excl 1 (end_index num_points num_procs rank)), m).
Proof.
  intros He. unfold write_points.
  rewrite (foreach_Ok _ _ (λ i contents, fprintf contents (point_record num_points m i))).
  - unfold fprintf. by rewrite fold_left_snoc_map.
  - intros i acc Hi. apply elem_of_seqZ in Hi.
    by rewrite (bind_Ok _ _ _ _ _ (load_Ok U i m ltac:(cbn [get]; lia))).
Qed.

Lemma matching_posted net src dst t data :
  is_Some (MPI.matching (net ++ [MPI.Message src dst t data]) src dst t).
Proof.
  unfold MPI.matching. induction net as [|msg net IH]; cbn [app List.find].
  - unfold MPI.matches. cbn [MPI.source MPI.dest MPI.tag]. by rewrite !Z.eqb_refl.
  - by destruct (MPI.matches src dst t msg).
Qed.

Context (HN : 1 ≤ num_points) (HP : 1 ≤ num_procs).
Context (Hfit : num_points + num_procs ≤ Int32.int_max).

Lemma end_index_le rank : end_index num_points num_procs rank ≤ num_points.
Proof. unfold end_index, Partition.end_index, fmin_int. lia. Qed.

Lemma end_index_last : end_index num_points num_procs (num_procs - 1) = num_points.
Proof.
  unfold end_index. rewrite end_index_eq by lia.
  pose proof (ceil_div_spec num_points num_procs ltac:(lia)). nia.
Qed.

Lemma write_serial_later rank sh m :
  1 ≤ rank < num_procs →
  is_Some (MPI.matching (net sh) (rank - 1) rank 4) →
  num_points + 2 ≤ Z.of_nat (length (u m)) →
  ∃ sh', write_serial num_points num_procs rank sh m = Ok (sh', m)
         ∧ (rank = num_procs - 1 → file sh' = last_file num_points m)
         ∧ (rank < num_procs - 1 →
            is_Some (MPI.matching (net sh') rank (rank + 1) 4)).
Proof.
  intros Hr [msg Hmsg] Hm. unfold write_serial.
  destruct (Z.eqb_spec rank 0) as [|_]; [lia|].
  unfold mbind at 1, M_bind at 1, MPI_Recv at 1. rewrite Hmsg.
  pose proof (end_index_le rank) as He.
  assert (end_index num_points num_procs rank ≤ Z.of_nat (length (u m))) as He' by lia.
  rewrite (bind_Ok _ _ _ _ _ (write_points_Ok rank _ m He')).
  unfold fopen_w. cbn [app].
  destruct (Z.eqb_spec rank (num_procs - 1)) as [->|Hne].
  - rewrite end_index_last.
    rewrite (bind_Ok _ _ _ _ _ (bind_Ok _ _ _ _ _ (load_Ok U (num_points + 1) m ltac:(cbn [get]; lia)))).
    cbn [mret M_ret]. destruct (Z.ltb_spec (num_procs - 1) (num_procs - 1)); [lia|].
    eexists. split; [done|]. split; [|lia]. intros _. cbn [file]. unfold last_file, range_excl.
    by replace (num_points - 1) with (num_points - 1) by lia.
  - cbn [mbind M_bind mret M_ret]. destruct (Z.ltb_spec rank (num_procs - 1)); [|lia].
    eexists. split; [done|]. split; [lia|]. intros _. apply matching_posted.
Qed.

Lemma in_turn_later w : ∀ rank sh,
  1 ≤ rank → rank + Z.of_nat (length w) = num_procs →
  is_Some (MPI.matching (net sh) (rank - 1) rank 4) →
  Forall (λ m, num_points + 2 ≤ Z.of_nat (length (u m))) w →
  ∃ sh', in_turn num_points num_procs rank sh w = Ok (sh', w)
         ∧ file sh' = from_option (last_file num_points) (file sh) (last w).
Proof.
  induction w as [|m w IH]; intros rank sh Hr Hlen Htok Hw.
  - by exists sh.
  - apply Forall_cons in Hw as [Hm Hw]. cbn [length] in Hlen.
    destruct (write_serial_later rank sh m ltac:(lia) Htok Hm) as (sh1 & H1 & Hlast & Hnext).
    cbn [in_turn]. rewrite H1. cbn [mbind result_bind].
    destruct w as [|m2 w].
    + cbn [in_turn last from_option]. exists sh1. split; [done|]. apply Hlast.
      cbn [length] in Hlen. lia.
    + destruct (IH (rank + 1) sh1 ltac:(lia) ltac:(cbn [length] in *; lia)) as (sh2 & H2 & Hf); [|done|].
      { replace (rank + 1 - 1) with rank by lia. apply Hnext. cbn [length] in Hlen. lia. }
      rewrite H2. cbn [mbind result_bind]. exists sh2. split; [done|].
      rewrite Hf, last_cons_cons.
      destruct (last (m2 :: w)) eqn:Hl; [done|]. by apply last_None in Hl.
Qed.

End serial.

Lemma write_output_single_lines (num_points : Z) (m : Jacobi1D.mem) :
  1 ≤ num_points → num_points + 1 ≤ Int32.int_max →
  num_points + 2 ≤ Z.of_nat (length (Jacobi1D.u m)) →
  Jacobi1D.write_output num_points 1 0 m =
  Ok ([Num 0; Num (cell (Jacobi1D.u m) 0)]
        :: (point_record num_points m <$> seqZ 1 (num_points - 1))
        ++ [[Num Jacobi1D.b; Num (cell (Jacobi1D.u m) (num_points + 1))]], m).
Proof.
  intros HN Hfit Hu. unfold Jacobi1D.write_output.
  rewrite (end_index_single num_points HN Hfit).
  change (0 =? 0) with true. change (0 =? 1 - 1) with true. cbv iota.
  rewrite (bind_Ok _ _ _ _ _ (bind_Ok _ _ _ _ _
             (load_Ok U 0 m ltac:(cbn [Jacobi1D.get]; lia)))).
  cbn [mret M_ret].
  erewrite bind_Ok.
  2:{ apply (collect_Ok _ _ (point_record num_points m)).
      intros i Hi. apply elem_of_seqZ in Hi.
      by rewrite (bind_Ok _ _ _ _ _ (load_Ok U i m ltac:(cbn [Jacobi1D.get]; lia))). }
  rewrite (bind_Ok _ _ _ _ _ (bind_Ok _ _ _ _ _
             (load_Ok U (num_points + 1) m ltac:(cbn [Jacobi1D.get]; lia)))).
  done.
Qed.

(** X11.  On one process, on arrays that hold the [num_points + 2] points, the
    per-rank file holds the left boundary value, the points [1] to
    [num_points - 1] with the coordinates [i * dx] and the right boundary
    value, [num_points + 1] records: the last interior point,
    [num_points], is in no record. *)
Theorem write_output_single_file (num_points : Z) (m : Jacobi1D.mem) :
  1 ≤ num_points → num_points + 1 ≤ Int32.int_max →
  num_points + 2 ≤ Z.of_nat (length (Jacobi1D.u m)) →
  Jacobi1D.write_output num_points 1 0 m =
  Ok ([Num 0; Num (cell (Jacobi1D.u m) 0)]
        :: (point_record num_points m <$> seqZ 1 (num_points - 1))
        ++ [[Num Jacobi1D.b; Num (cell (Jacobi1D.u m) (num_points + 1))]], m).
Proof. apply write_output_single_lines. Qed.
Lemma write_output_single_file_witness :
  Jacobi1D.write_output 2 1 0 sample_mem =
  Ok ([[Num 0; Num 0]; [Num (of_int 1 * Jacobi1D.dx 2); Num 1];
       [Num Jacobi1D.b; Num 3]], sample_mem).
Proof.
  refine (write_output_single_file 2 sample_mem _ _ _).
  - lia.
  - unfold Int32.int_max. lia.
  - vm_compute. discriminate.
Defined.

(** X12.  The serial output of one process: it sends no message, and the file
    is the per-rank file without its last record, the right boundary value,
    which only a process of rank above 0 writes. *)
Theorem serial_output_single (num_points : Z) (old : list (list field))
    (m : Jacobi1D.mem) :
  1 ≤ num_points → num_points + 1 ≤ Int32.int_max →
  num_points + 2 ≤ Z.of_nat (length (Jacobi1D.u m)) →
  SerialOutput.in_turn num_points 1 0 (SerialOutput.Shared [] old) [m] =
    Ok (SerialOutput.Shared []
          ([Num 0; Num (cell (Jacobi1D.u m) 0)]
             :: (point_record num_points m <$> seqZ 1 (num_points - 1))), [m])
  ∧ ∃ file,
      SerialOutput.serial_output num_points 1 old [m] = Ok (file, [m])
      ∧ Jacobi1D.write_output num_points 1 0 m =
        Ok (file ++ [[Num Jacobi1D.b; Num (cell (Jacobi1D.u m) (num_points + 1))]], m).
Proof.
  intros HN Hfit Hu.
  assert (SerialOutput.in_turn num_points 1 0 (SerialOutput.Shared [] old) [m] =
          Ok (SerialOutput.Shared []
                ([Num 0; Num (cell (Jacobi1D.u m) 0)]
                   :: (point_record num_points m <$> seqZ 1 (num_points - 1))), [m])) as Hrun.
  { cbn [SerialOutput.in_turn]. unfold SerialOutput.write_serial.
    change (0 =? 0) with true. change (1 >? 1) with false. cbv iota.
    rewrite (bind_Ok _ _ _ _ _ (load_Ok U 0 m ltac:(cbn [Jacobi1D.get]; lia))).
    rewrite (bind_Ok _ _ _ _ _
               (write_points_Ok num_points 1 0 _ m
                  ltac:(rewrite (end_index_single num_points HN Hfit); lia))).
    rewrite (end_index_single num_points HN Hfit). done. }
  split; [exact Hrun|]. eexists. split.
  - unfold SerialOutput.serial_output. rewrite Hrun. done.
  - by rewrite write_output_single_lines.
Qed.
Lemma serial_output_single_witness :
  SerialOutput.in_turn 2 1 0 (SerialOutput.Shared [] [[Num 7]]) [sample_mem] =
  Ok (SerialOutput.Shared []
        [[Num 0; Num 0]; [Num (of_int 1 * Jacobi1D.dx 2); Num 1]], [sample_mem]).
Proof.
  refine (proj1 (serial_output_single 2 [[Num 7]] sample_mem _ _ _)).
  - lia.
  - unfold Int32.int_max. lia.
  - vm_compute. discriminate.
Defined.

(** X13.  The serial output of two or more processes, on arrays that hold the
    [num_points + 2] points: no receive waits for a message that is not
    sent, and since every process opens the file for writing anew, the file
    holds in the end what the last process wrote and nothing of what the
    others did. *)
Theorem serial_output_keeps_last_only (num_points num_procs : Z)
    (old : list (list field)) (w : list Jacobi1D.mem) :
  1 ≤ num_points → 2 ≤ num_procs → num_points + num_procs ≤ Int32.int_max →
  Z.of_nat (length w) = num_procs →
  Forall (λ m, num_points + 2 ≤ Z.of_nat (length (Jacobi1D.u m))) w →
  ∃ m, last w = Some m
       ∧ SerialOutput.serial_output num_points num_procs old w =
         Ok (last_file num_points m, w).
Proof.
  intros HN HP Hfit Hlen Hw.
  destruct w as [|m0 w]; [cbn [length] in Hlen; lia|].
  apply Forall_cons in Hw as [Hm0 Hw].
  unfold SerialOutput.serial_output. cbn [SerialOutput.in_turn].
  unfold SerialOutput.write_serial at 1. change (0 =? 0) with true. cbv iota.
  rewrite (bind_Ok _ _ _ _ _ (load_Ok U 0 m0 ltac:(cbn [Jacobi1D.get]; lia))).
  pose proof (end_index_le num_points num_procs 0) as He.
  rewrite (bind_Ok _ _ _ _ _ (write_points_Ok num_points num_procs 0 _ m0 ltac:(lia))).
  destruct (Z.gtb_spec num_procs 1) as [_|]; [|lia].
  cbn [mret M_ret mbind result_bind].
  change (0 + 1) with 1.
  match goal with
  | |- context [SerialOutput.in_turn _ _ 1 ?sh w] =>
      destruct (in_turn_later num_points num_procs ltac:(lia) ltac:(lia) Hfit w 1 sh)
        as (sh' & Hrun & Hfile); [lia|cbn [length] in Hlen; lia| |exact Hw|]
  end.
  { apply (matching_posted []). }
  rewrite Hrun. cbn [mbind result_bind]. rewrite Hfile.
  destruct w as [|m1 w]; [cbn [length] in Hlen; lia|].
  rewrite last_cons_cons.
  destruct (last (m1 :: w)) as [m|] eqn:Hl; [|by apply last_None in Hl].
  by exists m.
Qed.
Lemma serial_output_keeps_last_only_witness :
  ∃ m, last [sample_mem; sample_mem] = Some m
       ∧ SerialOutput.serial_output 2 2 [] [sample_mem; sample_mem] =
         Ok (last_file 2 m, [sample_mem; sample_mem]).
Proof.
  apply (serial_output_keeps_last_only 2 2 [] [sample_mem; sample_mem]).
  - lia.
  - lia.
  - unfold Int32.int_max. lia.
  - reflexivity.
  - repeat constructor; vm_compute; discriminate.
Defined.

(** ** The 1D solver: one process *)

Section initial_1d.
Import Jacobi1D Initial1D.
Context (lm : libm) (num_points : Z).

Lemma init_loop l : ∀ m,
  Forall (λ i, 0 ≤ i < Z.of_nat (length (u m))) l →
  length (f m) = length (u m) →
  for_each l (init_point lm num_points) m =
  Ok ((), Mem (bulk (initial_guess num_points) l (u m)) (u_old m)
              (bulk (source_term lm num_points) l (f m))).
Proof.
  unfold for_each. induction l as [|i l IH]; intros m Hl Hf.
  - by destruct m.
  - apply Forall_cons in Hl as [Hi Hl]. cbn [foreach].
    assert (init_point lm num_points i m =
            Ok ((), Mem (<[Z.to_nat i := initial_guess num_points i]> (u m)) (u_old m)
                        (<[Z.to_nat i := source_term lm num_points i]> (f m)))) as Hp.
    { unfold init_point.
      rewrite (bind_Ok _ _ _ _ _ (store_Ok F i _ m ltac:(cbn [get]; lia))).
      rewrite store_Ok by (cbn [get set u u_old f]; lia). done. }
    rewrite (bind_Ok _ _ _ _ _ Hp). rewrite IH.
    + done.
    + cbn [u]. eapply Forall_impl; [exact Hl|]. cbn beta. intros j Hj.
      by rewrite length_insert.
    + cbn [u f]. by rewrite !length_insert.
Qed.

Context (HN : 1 ≤ num_points) (Hfit : num_points + 1 ≤ Int32.int_max).

Lemma start_index_single : start_index num_points 1 0 = 1.
Proof. unfold start_index. by rewrite start_index_eq by lia. Qed.

Lemma initialize_single_Ok m :
  Spec1D.allocated num_points 1 m →
  initialize lm num_points 1 0 m =
  Ok ((), Mem (<[Z.to_nat (num_points + 1) := beta]>
                 (<[Z.to_nat 0 := alpha]>
                    (bulk (initial_guess num_points) (seqZ 1 num_points) (u m))))
              (u_old m)
              (bulk (source_term lm num_points) (seqZ 1 num_points) (f m))).
Proof.
  intros (Hu & Ho & Hf). rewrite (points_per_proc_single num_points HN Hfit) in Hu, Ho, Hf.
  unfold initialize. rewrite start_index_single, (end_index_single num_points HN Hfit).
  unfold range_incl. replace (num_points + 1 - 1) with num_points by lia.
  rewrite (bind_Ok _ _ _ _ _ (init_loop (seqZ 1 num_points) m
             ltac:(apply Forall_seqZ; lia) ltac:(lia))).
  assert (length (bulk (initial_guess num_points) (seqZ 1 num_points) (u m))
          = length (u m)) as Hlen.
  { unfold bulk. generalize (u m). induction (seqZ 1 num_points) as [|i l IH];
      intros l0; cbn [fold_left]; [done|]. by rewrite IH, length_insert. }
  change (0 =? 0) with true. change (0 =? 1 - 1) with true. unfold when.
  set (m1 := Mem (bulk (initial_guess num_points) (seqZ 1 num_points) (u m)) (u_old m)
                 (bulk (source_term lm num_points) (seqZ 1 num_points) (f m))).
  rewrite (bind_Ok _ _ _ _ _ (store_Ok U (1 - 1) alpha m1
             ltac:(cbn [get u m1]; rewrite Hlen; lia))).
  rewrite store_Ok by (cbn [get set u u_old f m1]; rewrite length_insert, Hlen; lia).
  done.
Qed.

End initial_1d.

Lemma length_bulk val order l : length (bulk val order l) = length l.
Proof.
  unfold bulk. revert l. induction order as [|i order IH]; intros l; cbn [fold_left]; [done|].
  by rewrite IH, length_insert.
Qed.

Lemma cell_insert_eq l i v : 0 ≤ i < Z.of_nat (length l) → cell (<[Z.to_nat i := v]> l) i = v.
Proof. intros Hi. unfold cell. by rewrite lookupZ_insert_eq. Qed.

Lemma cell_insert_ne l i j v : 0 ≤ i → i ≠ j → cell (<[Z.to_nat i := v]> l) j = cell l j.
Proof. intros Hi Hne. unfold cell. by rewrite lookupZ_insert_ne. Qed.

Lemma cell_bulk val order l j :
  Forall (λ i, 0 ≤ i < Z.of_nat (length l)) order →
  cell (bulk val order l) j = if decide (j ∈ order) then val j else cell l j.
Proof. intros Ho. unfold cell. rewrite lookupZ_bulk by done. by destruct (decide _). Qed.

Lemma initialize_single_cells (lm : libm) (num_points : Z) (m : Jacobi1D.mem) :
  1 ≤ num_points → num_points + 1 ≤ Int32.int_max →
  Spec1D.allocated num_points 1 m →
  ∃ m', Jacobi1D.initialize lm num_points 1 0 m = Ok ((), m')
        ∧ Spec1D.allocated num_points 1 m'
        ∧ Jacobi1D.u_old m' = Jacobi1D.u_old m
        ∧ cell (Jacobi1D.u m') 0 = Jacobi1D.alpha
        ∧ cell (Jacobi1D.u m') (num_points + 1) = Jacobi1D.beta
        ∧ (∀ i, 1 ≤ i ≤ num_points →
             cell (Jacobi1D.u m') i = Initial1D.initial_guess num_points i
             ∧ cell (Jacobi1D.f m') i = Initial1D.source_term lm num_points i)
        ∧ cell (Jacobi1D.f m') 0 = cell (Jacobi1D.f m) 0
        ∧ cell (Jacobi1D.f m') (num_points + 1) = cell (Jacobi1D.f m) (num_points + 1).
Proof.
  intros HN Hfit Ha. eexists. split; [by apply initialize_single_Ok|].
  destruct Ha as (Hu & Ho & Hf).
  rewrite (points_per_proc_single num_points HN Hfit) in Hu, Ho, Hf.
  assert (Forall (λ i, 0 ≤ i < Z.of_nat (length (Jacobi1D.u m))) (seqZ 1 num_points)) as Fu
    by (apply Forall_seqZ; lia).
  assert (Forall (λ i, 0 ≤ i < Z.of_nat (length (Jacobi1D.f m))) (seqZ 1 num_points)) as Ff
    by (apply Forall_seqZ; lia).
  cbn [Jacobi1D.u Jacobi1D.u_old Jacobi1D.f]. split_and!.
  - unfold Spec1D.allocated. cbn [Jacobi1D.u Jacobi1D.u_old Jacobi1D.f].
    rewrite (points_per_proc_single num_points HN Hfit), !length_insert, !length_bulk. done.
  - done.
  - rewrite cell_insert_ne by lia.
    apply (cell_insert_eq _ 0). rewrite length_bulk. lia.
  - apply cell_insert_eq. rewrite length_insert, length_bulk. lia.
  - intros i Hi. rewrite cell_insert_ne by lia. rewrite (cell_insert_ne _ 0) by lia.
    rewrite !cell_bulk by done. by rewrite !decide_True by (apply elem_of_seqZ; lia).
  - rewrite cell_bulk by done. by rewrite decide_False by (rewrite elem_of_seqZ; lia).
  - rewrite cell_bulk by done. by rewrite decide_False by (rewrite elem_of_seqZ; lia).
Qed.

(** X2.  On one process the initialization stays within the arrays and sets
    every element of [u]: the two boundary values and the initial guess at
    the interior points.  Of [f] it sets the interior points and leaves
    [f[0]] and [f[num_points + 1]] as [malloc] handed them out; [u_old] is
    not touched. *)
Theorem initialize_single (lm : libm) (num_points : Z) (m : Jacobi1D.mem) :
  1 ≤ num_points → num_points + 1 ≤ Int32.int_max →
  Spec1D.allocated num_points 1 m →
  ∃ m', Jacobi1D.initialize lm num_points 1 0 m = Ok ((), m')
        ∧ Spec1D.allocated num_points 1 m'
        ∧ Jacobi1D.u_old m' = Jacobi1D.u_old m
        ∧ cell (Jacobi1D.u m') 0 = Jacobi1D.alpha
        ∧ cell (Jacobi1D.u m') (num_points + 1) = Jacobi1D.beta
        ∧ (∀ i, 1 ≤ i ≤ num_points →
             cell (Jacobi1D.u m') i = Initial1D.initial_guess num_points i
             ∧ cell (Jacobi1D.f m') i = Initial1D.source_term lm num_points i)
        ∧ cell (Jacobi1D.f m') 0 = cell (Jacobi1D.f m) 0
        ∧ cell (Jacobi1D.f m') (num_points + 1) = cell (Jacobi1D.f m) (num_points + 1).
Proof. apply initialize_single_cells. Qed.
Lemma initialize_single_witness :
  ∃ m', Jacobi1D.initialize sample_libm 2 1 0 sample_mem = Ok ((), m')
        ∧ cell (Jacobi1D.u m') 0 = Jacobi1D.alpha
        ∧ cell (Jacobi1D.u m') 3 = Jacobi1D.beta.
Proof.
  destruct (initialize_single sample_libm 2 sample_mem) as (m' & H & _ & _ & H0 & H3 & _).
  - lia.
  - unfold Int32.int_max. lia.
  - exact sample_mem_allocated.
  - by exists m'.
Defined.


Section single_run.
Import Jacobi1D.
Context (lm : libm) (num_points : Z).
Context (HN : 1 ≤ num_points) (Hfit : num_points + 1 ≤ Int32.int_max).



End single_run.


Section driver_related.
Import Driver.
Context {Mem : Type}.
Context (MAX_ITERATIONS PRINT_INTERVAL : Z) (tolerance : float).
Context (sweep : M (list Mem) float) (announces : bool).
Context (write_output : Z → M Mem (list (list field))).
Context (R : list Mem → list Mem → Prop).
Context (Hsweep : ∀ w1 w2, R w1 w2 →
           ∃ d w1' w2', sweep w1 = Ok (d, w1') ∧ sweep w2 = Ok (d, w2') ∧ R w1' w2').

Lemma while_loop_related fuel st w1 w2 :
  R w1 w2 →
  ∃ st' w1' w2',
    while_loop MAX_ITERATIONS PRINT_INTERVAL tolerance sweep fuel st w1 = Ok (st', w1')
    ∧ while_loop MAX_ITERATIONS PRINT_INTERVAL tolerance sweep fuel st w2 = Ok (st', w2')
    ∧ R w1' w2'.
Proof.
  revert st w1 w2. induction fuel as [|fuel IH]; intros st w1 w2 Hw; cbn [while_loop].
  - by exists st, w1, w2.
  - destruct (N st <? MAX_ITERATIONS); [|by exists st, w1, w2].
    destruct (Hsweep w1 w2 Hw) as (d & w1' & w2' & H1 & H2 & Hw').
    unfold iteration, mbind, M_bind. rewrite H1, H2.
    destruct (d <? tolerance)%float; cbn [mret M_ret].
    + by eexists _, _, _.
    + by apply IH.
Qed.

Lemma solve_related N0 du_max0 w1 w2 :
  (∀ st w1 w2, R w1 w2 →
     ∃ outs w1' w2',
       on_ranks (conclude MAX_ITERATIONS tolerance announces write_output st) 0 w1
         = Ok (outs, w1')
       ∧ on_ranks (conclude MAX_ITERATIONS tolerance announces write_output st) 0 w2
         = Ok (outs, w2')) →
  R w1 w2 →
  ∃ outs w1' w2',
    solve MAX_ITERATIONS PRINT_INTERVAL tolerance sweep announces write_output
      N0 du_max0 w1 = Ok (outs, w1')
    ∧ solve MAX_ITERATIONS PRINT_INTERVAL tolerance sweep announces write_output
        N0 du_max0 w2 = Ok (outs, w2').
Proof.
  intros Hout Hw. unfold solve, jacobi_iterations.
  destruct (while_loop_related (Z.to_nat (MAX_ITERATIONS - N0)) (LoopState N0 du_max0 [])
              w1 w2 Hw) as (st & w1' & w2' & H1 & H2 & Hw').
  rewrite (bind_Ok _ _ _ _ _ H1), (bind_Ok _ _ _ _ _ H2).
  destruct (Hout st w1' w2' Hw') as (outs & w1'' & w2'' & Ho1 & Ho2).
  rewrite (bind_Ok _ _ _ _ _ Ho1), (bind_Ok _ _ _ _ _ Ho2). by eexists _, _, _.
Qed.

End driver_related.

Section single_agree.
Import Jacobi1D.
Context (lm : libm) (num_points : Z).
Context (HN : 1 ≤ num_points) (Hfit : num_points + 1 ≤ Int32.int_max).

Lemma serial_jacobi_agree uc f1 f2 :
  Z.of_nat (length uc) = num_points + 2 →
  (∀ i, 1 ≤ i ≤ num_points → cell f1 i = cell f2 i) →
  Spec1D.serial_jacobi lm num_points uc f1 = Spec1D.serial_jacobi lm num_points uc f2.
Proof.
  intros Hu Hf. unfold Spec1D.serial_jacobi. f_equal.
  - apply list_eq. intros k. rewrite !list_lookup_imap.
    destruct (uc !! k); [|done]. cbn [fmap option_fmap option_map]. f_equal.
    destruct (decide (1 ≤ Z.of_nat k ≤ num_points)); [|done]. by rewrite Hf.
  - f_equal. apply list_fmap_ext. intros k i Hi.
    apply lookup_seqZ in Hi as [-> Hk]. by rewrite Hf by lia.
Qed.

Lemma sweep_single_agree w1 w2 :
  single_agree num_points w1 w2 →
  ∃ d w1' w2', sweep lm num_points 1 w1 = Ok (d, w1')
               ∧ sweep lm num_points 1 w2 = Ok (d, w2')
               ∧ single_agree num_points w1' w2'.
Proof.
  intros (m1 & m2 & -> & -> & Ha1 & Ha2 & Hu & Hf).
  pose proof Ha1 as (Hu1 & Ho1 & Hf1). pose proof Ha2 as (Hu2 & Ho2 & Hf2).
  rewrite (points_per_proc_single num_points HN Hfit) in Hu1, Ho1, Hf1, Hu2, Ho2, Hf2.
  rewrite (sweep_single lm num_points HN Hfit m1), (sweep_single lm num_points HN Hfit m2)
    by done.
  rewrite <- Hu, (serial_jacobi_agree (u m1) (f m2) (f m1)) by (done || by symmetry; auto).
  eexists _, _, _. split; [done|]. split; [done|].
  eexists _, _. split; [done|]. split; [done|].
  unfold Spec1D.allocated. cbn [u u_old f]. unfold Spec1D.serial_jacobi. cbn [fst].
  rewrite length_imap, (points_per_proc_single num_points HN Hfit).
  split_and!; done.
Qed.

Lemma conclude_single_agree st w1 w2 :
  single_agree num_points w1 w2 →
  ∃ outs w1' w2',
    on_ranks (Driver.conclude MAX_ITERATIONS (tolerance lm num_points) true
                (write_output num_points 1) st) 0 w1 = Ok (outs, w1')
    ∧ on_ranks (Driver.conclude MAX_ITERATIONS (tolerance lm num_points) true
                  (write_output num_points 1) st) 0 w2 = Ok (outs, w2').
Proof.
  intros (m1 & m2 & -> & -> & Ha1 & Ha2 & Hu & Hf).
  pose proof Ha1 as (Hu1 & _ & _). pose proof Ha2 as (Hu2 & _ & _).
  rewrite (points_per_proc_single num_points HN Hfit) in Hu1, Hu2.
  assert (∃ o, Driver.conclude MAX_ITERATIONS (tolerance lm num_points) true
                 (write_output num_points 1) st 0 m1 = Ok (o, m1)
               ∧ Driver.conclude MAX_ITERATIONS (tolerance lm num_points) true
                   (write_output num_points 1) st 0 m2 = Ok (o, m2)) as (o & H1 & H2).
  { unfold Driver.conclude.
    destruct (Driver.N st >=? MAX_ITERATIONS); [eexists; split; reflexivity|].
    rewrite (bind_Ok _ _ _ _ _ (write_output_single_lines num_points m1 HN Hfit ltac:(lia))).
    rewrite (bind_Ok _ _ _ _ _ (write_output_single_lines num_points m2 HN Hfit ltac:(lia))).
    unfold point_record. rewrite Hu. cbn [mret M_ret]. eexists. split; reflexivity. }
  exists [o], [m1], [m2].
  by rewrite (on_ranks_single _ _ _ _ _ H1), (on_ranks_single _ _ _ _ _ H2).
Qed.

End single_agree.

(** X4.  The result of a run on one process does not depend on what
    [malloc] hands out: every element of the arrays that is read has been
    written before. *)
Theorem main_single_ignores_malloc (lm : libm) (num_points N0 : Z) (du_max0 : float)
    (garbage garbage' : Z → array_name → Z → float) :
  1 ≤ num_points → num_points + 1 ≤ Int32.int_max →
  Jacobi1D.main lm num_points 1 N0 du_max0 garbage
  = Jacobi1D.main lm num_points 1 N0 du_max0 garbage'.
Proof.
  intros HN Hfit. unfold Jacobi1D.main. change (seqZ 0 1) with [0]. cbn [fmap list_fmap].
  set (m := Jacobi1D.allocate num_points 1 (garbage 0)).
  set (m' := Jacobi1D.allocate num_points 1 (garbage' 0)).
  assert (Spec1D.allocated num_points 1 m) as Ha by (apply allocate_allocated; lia).
  assert (Spec1D.allocated num_points 1 m') as Ha' by (apply allocate_allocated; lia).
  destruct (initialize_single_cells lm num_points m HN Hfit Ha)
    as (m1 & Hinit & Ha1 & _ & Hb0 & Hb1 & Hi & _).
  destruct (initialize_single_cells lm num_points m' HN Hfit Ha')
    as (m1' & Hinit' & Ha1' & _ & Hb0' & Hb1' & Hi' & _).
  cbv zeta. rewrite (on_ranks_single _ _ _ _ _ Hinit), (on_ranks_single _ _ _ _ _ Hinit').
  cbn [mbind result_bind].
  assert (single_agree num_points [m1] [m1']) as Hagree.
  { exists m1, m1'. split_and!; try done.
    - pose proof Ha1 as (Hu & _ & _). pose proof Ha1' as (Hu' & _ & _).
      rewrite (points_per_proc_single num_points HN Hfit) in Hu, Hu'.
      apply lookupZ_ext. intros i.
      destruct (decide (0 ≤ i < num_points + 2)) as [Hin|Hout].
      + rewrite !lookupZ_cell by lia. f_equal.
        destruct (decide (i = 0)) as [->|]; [congruence|].
        destruct (decide (i = num_points + 1)) as [->|]; [congruence|].
        destruct (Hi i ltac:(lia)) as [-> _]. destruct (Hi' i ltac:(lia)) as [-> _]. done.
      + rewrite (proj2 (lookupZ_None _ i)) by lia. symmetry. apply lookupZ_None. lia.
    - intros i Hin. destruct (Hi i Hin) as [_ ->]. destruct (Hi' i Hin) as [_ ->]. done. }
  destruct (solve_related Jacobi1D.MAX_ITERATIONS Jacobi1D.PRINT_INTERVAL
              (Jacobi1D.tolerance lm num_points) (Jacobi1D.sweep lm num_points 1) true
              (Jacobi1D.write_output num_points 1) (single_agree num_points)
              (sweep_single_agree lm num_points HN Hfit) N0 du_max0 [m1] [m1']
              (conclude_single_agree lm num_points HN Hfit) Hagree)
    as (outs & w1 & w2 & H1 & H2).
  rewrite H1, H2. done.
Qed.
Lemma main_single_ignores_malloc_witness :
  Jacobi1D.main sample_libm 2 1 0 0%float (λ _ _ _, 0%float)
  = Jacobi1D.main sample_libm 2 1 0 0%float (λ _ _ i, of_int i).
Proof.
  apply main_single_ignores_malloc.
  - lia.
  - unfold Int32.int_max. lia.
Defined.

(** ** The 1D solver: the halo exchange *)

Lemma on_ranks_in_bounds {Mem A} (step : Z → M Mem A) rank w :
  (∀ (k : nat) m, w !! k = Some m → in_bounds_or_fault (step (rank + Z.of_nat k) m)) →
  in_bounds_or_fault (on_ranks step rank w).
Proof.
  revert rank. induction w as [|m w IH]; intros rank H; cbn [on_ranks].
  - left. by eexists.
  - destruct (H 0%nat m eq_refl) as [[[x m'] H0]|(a & i & H0)];
      rewrite Z.add_0_r in H0; rewrite H0; cbn [mbind result_bind].
    + destruct (IH (rank + 1)) as [[[xs w'] ->]|(a & i & ->)]; cbn [mbind result_bind].
      * intros k mk Hk.
        replace (rank + 1 + Z.of_nat k) with (rank + Z.of_nat (S k)) by lia. by apply H.
      * left. by eexists.
      * right. by eexists _, _.
    + right. by eexists _, _.
Qed.

Lemma in_bounds_bind {S A B} (c : M S A) (k : A → M S B) s :
  in_bounds_or_fault (c s) →
  (∀ x s', c s = Ok (x, s') → in_bounds_or_fault (k x s')) →
  in_bounds_or_fault ((c ≫= k) s).
Proof.
  intros Hc Hk. unfold mbind, M_bind.
  destruct Hc as [[[x s'] Hx]|(a & i & ->)]; [|right; by eexists _, _].
  rewrite Hx. by apply Hk.
Qed.

Lemma elem_of_concat {A} (x : A) l ls : x ∈ l → l ∈ ls → x ∈ concat ls.
Proof.
  intros Hx Hl. induction Hl as [l ls|l l' ls Hl IH]; cbn [concat]; apply elem_of_app.
  - by left.
  - right. by apply IH.
Qed.

Lemma matching_elem net msg src dst t :
  msg ∈ net → MPI.matches src dst t msg = true → is_Some (MPI.matching net src dst t).
Proof.
  intros Hin Hm. unfold MPI.matching.
  induction Hin as [msg net|msg msg' net Hin IH]; simpl.
  - rewrite Hm. by eexists.
  - destruct (MPI.matches src dst t msg'); [by eexists|exact (IH Hm)].
Qed.

Section exchange_1d.
Import Jacobi1D.
Context (num_points num_procs : Z).

Lemma oob_only_post_sends rank : oob_only (post_sends num_points num_procs rank).
Proof.
  unfold post_sends.
  apply oob_only_bind; [|intros l; apply oob_only_bind; [|intros r; apply oob_only_ret]].
  - destruct (rank >? 0); [|apply oob_only_ret]. unfold MPI_Isend.
    apply oob_only_bind; [apply oob_only_load|intros v; apply oob_only_ret].
  - destruct (rank <? num_procs - 1); [|apply oob_only_ret]. unfold MPI_Isend.
    apply oob_only_bind; [apply oob_only_load|intros v; apply oob_only_ret].
Qed.

(** What a process has posted when its sends return. *)
Lemma post_sends_messages rank m msgs m' :
  post_sends num_points num_procs rank m = Ok (msgs, m') →
  (0 < rank → ∃ v, MPI.Message rank (rank - 1) 1 [v] ∈ msgs)
  ∧ (rank < num_procs - 1 → ∃ v, MPI.Message rank (rank + 1) 2 [v] ∈ msgs).
Proof.
  unfold post_sends. intros H.
  apply bind_inv in H as (l & m1 & H1 & H).
  apply bind_inv in H as (r & m2 & H2 & H).
  apply mret_inv in H as [-> _]. split; intros Hr.
  - destruct (Z.gtb_spec rank 0); [|lia].
    apply MPI_Isend_inv in H1 as (_ & v & _ & ->). exists v.
    apply elem_of_app. left. left.
  - destruct (Z.ltb_spec rank (num_procs - 1)); [|lia].
    apply MPI_Isend_inv in H2 as (_ & v & _ & ->). exists v.
    apply elem_of_app. right. left.
Qed.

Lemma MPI_Recv_in_bounds net a i rank src t m :
  is_Some (MPI.matching net src rank t) →
  in_bounds_or_fault (MPI_Recv net a i rank src t m).
Proof.
  intros [msg Hm]. unfold MPI_Recv. rewrite Hm.
  destruct (MPI.payload msg); [left; by eexists|apply oob_only_store].
Qed.

Lemma receive_in_bounds net rank m :
  (rank < num_procs - 1 → is_Some (MPI.matching net (rank + 1) rank 1)) →
  (0 < rank → is_Some (MPI.matching net (rank - 1) rank 2)) →
  in_bounds_or_fault (receive num_points num_procs net rank m).
Proof.
  intros Hr Hl. unfold receive.
  apply in_bounds_bind.
  { destruct (Z.ltb_spec rank (num_procs - 1)); [|left; by eexists].
    apply in_bounds_bind; [apply MPI_Recv_in_bounds; auto|].
    intros [] s' _. left. by eexists. }
  intros from_right s' _. apply in_bounds_bind.
  { destruct (Z.gtb_spec rank 0); [|left; by eexists].
    apply in_bounds_bind; [apply MPI_Recv_in_bounds; apply Hl; lia|].
    intros [] s'' _. left. by eexists. }
  intros from_left s'' _. left. by eexists.
Qed.

End exchange_1d.

(** No receive of the halo exchange waits for a message that is not
    sent. *)
Lemma halo_exchange_in_bounds (num_points num_procs : Z) (w : list Jacobi1D.mem) :
  Z.of_nat (length w) = num_procs →
  in_bounds_or_fault (Jacobi1D.halo_exchange num_points num_procs w).
Proof.
  intros Hlen. unfold Jacobi1D.halo_exchange, mbind, M_bind.
  destruct (on_ranks_oob_only (Jacobi1D.post_sends num_points num_procs) 0
              (oob_only_post_sends num_points num_procs) w)
    as [[[posted w1] Hp]|(a & i & ->)]; [|right; by eexists _, _].
  rewrite Hp. pose proof (on_ranks_inv _ _ _ _ _ Hp) as (Hl1 & Hl2 & Hk).
  assert (∀ (k : nat) m, w !! k = Some m → w1 !! k = Some m) as Hsame.
  { intros k m Hm. destruct (Hk k m Hm) as (x & m' & Hs & _ & Hm').
    apply post_sends_inv in Hs as ->. done. }
  assert (∀ (k : nat), (k < length w)%nat →
            (0 < Z.of_nat k → ∃ v, MPI.Message (Z.of_nat k) (Z.of_nat k - 1) 1 [v]
                                   ∈ concat posted)
            ∧ (Z.of_nat k < num_procs - 1 →
               ∃ v, MPI.Message (Z.of_nat k) (Z.of_nat k + 1) 2 [v] ∈ concat posted))
    as Hposted.
  { intros k Hlt. destruct (lookup_lt_is_Some_2 w k Hlt) as [m Hm].
    destruct (Hk k m Hm) as (x & m' & Hs & Hx & _). rewrite Z.add_0_l in Hs.
    apply post_sends_messages in Hs as [Hleft Hright].
    split; intros Hc.
    - destruct (Hleft Hc) as [v Hv]. exists v.
      apply (elem_of_concat _ x); [done|]. by apply list_elem_of_lookup_2 in Hx.
    - destruct (Hright Hc) as [v Hv]. exists v.
      apply (elem_of_concat _ x); [done|]. by apply list_elem_of_lookup_2 in Hx. }
  destruct (on_ranks_in_bounds (Jacobi1D.receive num_points num_procs (concat posted)) 0 w1)
    as [[[received w2] ->]|(a & i & ->)]; [|left; by eexists|right; by eexists _, _].
  intros k m Hm. rewrite Z.add_0_l.
  assert (k < length w)%nat as Hlt by (rewrite <- Hl2; by apply lookup_lt_Some in Hm).
  apply receive_in_bounds.
  - intros Hr. destruct (Hposted (S k) ltac:(lia)) as [[v Hv] _]; [lia|].
    eapply matching_elem; [exact Hv|]. unfold MPI.matches.
    cbn [MPI.source MPI.dest MPI.tag].
    rewrite !(proj2 (Z.eqb_eq _ _)) by lia. done.
  - intros Hl. destruct k as [|k]; [lia|].
    destruct (Hposted k ltac:(lia)) as [_ [v Hv]]; [lia|].
    eapply matching_elem; [exact Hv|]. unfold MPI.matches.
    cbn [MPI.source MPI.dest MPI.tag].
    rewrite !(proj2 (Z.eqb_eq _ _)) by lia. done.
Qed.

(** X6.  In a run of [num_procs] processes no receive of the halo exchange
    waits for a message that is not sent: every receive from the right with
    tag 1, or from the left with tag 2, finds the message its neighbour has
    posted.  The exchange returns, unless an access leaves an array. *)
Theorem halo_exchange_never_hangs (num_points num_procs : Z) (w : list Jacobi1D.mem) :
  Z.of_nat (length w) = num_procs →
  in_bounds_or_fault (Jacobi1D.halo_exchange num_points num_procs w).
Proof. apply halo_exchange_in_bounds. Qed.
Lemma halo_exchange_never_hangs_witness :
  in_bounds_or_fault (Jacobi1D.halo_exchange 4 3 [sample_mem; sample_mem; sample_mem]).
Proof. apply halo_exchange_never_hangs. reflexivity. Defined.

Section two_processes.
Import Jacobi1D.
Context (num_points : Z) (HN : 1 ≤ num_points) (Hfit : num_points + 2 ≤ Int32.int_max).
Abbreviation ghost := (points_per_proc num_points 2 + 1).

Lemma end_index_first : end_index num_points 2 0 = points_per_proc num_points 2.
Proof.
  unfold end_index, points_per_proc. rewrite end_index_eq, points_per_proc_ceil by lia.
  pose proof (ceil_div_spec num_points 2 ltac:(lia)). lia.
Qed.

Lemma points_per_proc_pos : 1 ≤ points_per_proc num_points 2.
Proof.
  unfold points_per_proc. rewrite points_per_proc_ceil by lia.
  pose proof (ceil_div_spec num_points 2 ltac:(lia)). lia.
Qed.

Lemma halo_exchange_two_Ok m0 m1 :
  Spec1D.allocated num_points 2 m0 → Spec1D.allocated num_points 2 m1 →
  halo_exchange num_points 2 [m0; m1] =
  Ok (([MPI.Message 0 1 2 [cell (u_old m0) ghost];
        MPI.Message 1 0 1 [cell (u_old m1) 0]],
       [[(1, 1)]; [(0, 2)]]),
      [Mem (u m0) (<[Z.to_nat ghost := cell (u_old m1) 0]> (u_old m0)) (f m0);
       Mem (u m1) (<[Z.to_nat 0 := cell (u_old m0) ghost]> (u_old m1)) (f m1)]).
Proof.
  intros (_ & Ho0 & _) (_ & Ho1 & _). pose proof points_per_proc_pos as Hpos.
  assert (post_sends num_points 2 0 m0 =
          Ok ([MPI.Message 0 1 2 [cell (u_old m0) ghost]], m0)) as Hs0.
  { unfold post_sends. change (0 >? 0) with false. change (0 <? 2 - 1) with true.
    cbv iota. rewrite end_index_first.
    unfold MPI_Isend, mbind, M_bind, mret, M_ret, load.
    by rewrite lookupZ_cell by (cbn [get]; lia). }
  assert (post_sends num_points 2 1 m1 =
          Ok ([MPI.Message 1 0 1 [cell (u_old m1) 0]], m1)) as Hs1.
  { unfold post_sends. change (1 >? 0) with true. change (1 <? 2 - 1) with false.
    cbv iota. unfold MPI_Isend, mbind, M_bind, mret, M_ret, load.
    by rewrite lookupZ_cell by (cbn [get]; lia). }
  unfold halo_exchange.
  assert (on_ranks (post_sends num_points 2) 0 [m0; m1] =
          Ok ([[MPI.Message 0 1 2 [cell (u_old m0) ghost]];
               [MPI.Message 1 0 1 [cell (u_old m1) 0]]], [m0; m1])) as Hposted.
  { cbn [on_ranks]. rewrite Hs0. cbn [mbind result_bind]. change (0 + 1) with 1.
    rewrite Hs1. done. }
  rewrite (bind_Ok _ _ _ _ _ Hposted). cbn [concat app].
  set (net := [MPI.Message 0 1 2 [cell (u_old m0) ghost];
               MPI.Message 1 0 1 [cell (u_old m1) 0]]).
  assert (receive num_points 2 net 0 m0 =
          Ok ([(1, 1)],
              Mem (u m0) (<[Z.to_nat ghost := cell (u_old m1) 0]> (u_old m0)) (f m0)))
    as Hr0.
  { unfold receive. change (0 >? 0) with false. change (0 <? 2 - 1) with true.
    cbv iota. rewrite end_index_first.
    unfold MPI_Recv, mbind, M_bind, mret, M_ret, store.
    change (MPI.matching net (0 + 1) 0 1) with (Some (MPI.Message 1 0 1 [cell (u_old m1) 0])).
    cbn [MPI.payload]. by rewrite lookupZ_cell by (cbn [get]; lia). }
  assert (receive num_points 2 net 1 m1 =
          Ok ([(0, 2)],
              Mem (u m1) (<[Z.to_nat 0 := cell (u_old m0) ghost]> (u_old m1)) (f m1)))
    as Hr1.
  { unfold receive. change (1 >? 0) with true. change (1 <? 2 - 1) with false.
    cbv iota. unfold MPI_Recv, mbind, M_bind, mret, M_ret, store.
    change (MPI.matching net (1 - 1) 1 2)
      with (Some (MPI.Message 0 1 2 [cell (u_old m0) ghost])).
    cbn [MPI.payload]. by rewrite lookupZ_cell by (cbn [get]; lia). }
  assert (on_ranks (receive num_points 2 net) 0 [m0; m1] =
          Ok ([[(1, 1)]; [(0, 2)]],
              [Mem (u m0) (<[Z.to_nat ghost := cell (u_old m1) 0]> (u_old m0)) (f m0);
               Mem (u m1) (<[Z.to_nat 0 := cell (u_old m0) ghost]> (u_old m1)) (f m1)]))
    as Hreceived.
  { cbn [on_ranks]. rewrite Hr0. cbn [mbind result_bind]. change (0 + 1) with 1.
    rewrite Hr1. done. }
  rewrite (bind_Ok _ _ _ _ _ Hreceived). done.
Qed.

End two_processes.

(** X7.  Two processes, any number of points, arrays of the allocated size:
    rank 0 sends its right ghost cell [u_old[points_per_proc + 1]] and rank 1
    its left ghost cell [u_old[0]], each stores what the other sent in that
    same cell, and nothing else changes.  The exchange swaps the two ghost
    cells; no owned value is sent. *)
Theorem halo_exchange_two_processes (num_points : Z) (m0 m1 : Jacobi1D.mem) :
  1 ≤ num_points → num_points + 2 ≤ Int32.int_max →
  Spec1D.allocated num_points 2 m0 → Spec1D.allocated num_points 2 m1 →
  Jacobi1D.halo_exchange num_points 2 [m0; m1] =
  Ok (([MPI.Message 0 1 2
          [cell (Jacobi1D.u_old m0) (Jacobi1D.points_per_proc num_points 2 + 1)];
        MPI.Message 1 0 1 [cell (Jacobi1D.u_old m1) 0]],
       [[(1, 1)]; [(0, 2)]]),
      [Jacobi1D.Mem (Jacobi1D.u m0)
         (<[Z.to_nat (Jacobi1D.points_per_proc num_points 2 + 1)
              := cell (Jacobi1D.u_old m1) 0]> (Jacobi1D.u_old m0))
         (Jacobi1D.f m0);
       Jacobi1D.Mem (Jacobi1D.u m1)
         (<[Z.to_nat 0 := cell (Jacobi1D.u_old m0)
                            (Jacobi1D.points_per_proc num_points 2 + 1)]>
            (Jacobi1D.u_old m1))
         (Jacobi1D.f m1)]).
Proof. intros HN Hfit Ha0 Ha1. by apply halo_exchange_two_Ok. Qed.
Lemma halo_exchange_two_processes_witness :
  Jacobi1D.halo_exchange 3 2 [sample_mem; sample_mem] =
  Ok (([MPI.Message 0 1 2 [9%float]; MPI.Message 1 0 1 [9%float]],
       [[(1, 1)]; [(0, 2)]]),
      [sample_mem; sample_mem]).
Proof.
  refine (halo_exchange_two_processes 3 sample_mem sample_mem _ _ _ _).
  - lia.
  - unfold Int32.int_max. lia.
  - repeat split; reflexivity.
  - repeat split; reflexivity.
Defined.

(** ** The driver: the cap and the progress reports *)

Section driver_edges.
Import Driver.
Context {Mem : Type}.
Context (MAX_ITERATIONS PRINT_INTERVAL : Z) (tolerance : float).
Context (sweep : M (list Mem) float) (announces : bool).
Context (write_output : Z → M Mem (list (list field))).

Lemma conclude_failure st rank (m : Mem) :
  MAX_ITERATIONS ≤ N st →
  conclude MAX_ITERATIONS tolerance announces write_output st rank m =
  Ok (failure announces tolerance st rank, m).
Proof.
  intros Hcap. unfold conclude. by destruct (Z.geb_spec (N st) MAX_ITERATIONS); [|lia].
Qed.

Lemma conclude_at_cap st rank (w : list Mem) :
  MAX_ITERATIONS ≤ N st →
  on_ranks (conclude MAX_ITERATIONS tolerance announces write_output st) rank w =
  Ok (imap (λ k _, failure announces tolerance st (rank + Z.of_nat k)) w, w).
Proof.
  intros Hcap. revert rank. induction w as [|m w IH]; intros rank; [done|].
  cbn [on_ranks imap]. rewrite conclude_failure by done.
  cbn [mbind result_bind]. rewrite IH. cbn [mbind result_bind].
  change (Z.of_nat 0) with 0. rewrite Z.add_0_r.
  assert (imap ((λ k (_ : Mem), failure announces tolerance st (rank + Z.of_nat k)) ∘ S) w
          = imap (λ k _, failure announces tolerance st (rank + 1 + Z.of_nat k)) w) as ->;
    [|done].
  apply imap_ext. intros k x _. unfold compose. f_equal. lia.
Qed.

Lemma solve_at_cap N0 du_max0 w :
  MAX_ITERATIONS ≤ N0 →
  solve MAX_ITERATIONS PRINT_INTERVAL tolerance sweep announces write_output N0 du_max0 w =
  Ok (imap (λ k _, failure announces tolerance (LoopState N0 du_max0 []) (Z.of_nat k)) w, w).
Proof.
  intros Hcap. unfold solve, jacobi_iterations.
  replace (Z.to_nat (MAX_ITERATIONS - N0)) with 0%nat by lia. cbn [while_loop].
  unfold mbind at 1, M_bind at 1. cbn [mret M_ret].
  rewrite (bind_Ok _ _ _ _ _ (conclude_at_cap (LoopState N0 du_max0 []) 0 w Hcap)).
  cbn [mret M_ret]. do 2 f_equal. destruct w as [|m w]; [done|].
  cbn [imap with_progress]. done.
Qed.

Lemma while_loop_progress fuel st w st' w' lo :
  lo ≤ N st →
  Forall (is_progress PRINT_INTERVAL lo MAX_ITERATIONS) (progress st) →
  while_loop MAX_ITERATIONS PRINT_INTERVAL tolerance sweep fuel st w = Ok (st', w') →
  N st ≤ N st'
  ∧ (N st ≤ MAX_ITERATIONS → N st' ≤ MAX_ITERATIONS)
  ∧ Forall (is_progress PRINT_INTERVAL lo MAX_ITERATIONS) (progress st').
Proof.
  revert st w. induction fuel as [|fuel IH]; intros st w Hlo Hp H; cbn [while_loop] in H.
  - apply mret_inv in H as [-> ->]. done.
  - destruct (Z.ltb_spec (N st) MAX_ITERATIONS) as [Hlt|Hge];
      [|apply mret_inv in H as [-> ->]; done].
    apply bind_inv in H as ([continue st1] & w1 & Hit & H).
    apply (iteration_inv PRINT_INTERVAL tolerance sweep) in Hit
      as (d & Hs & Hd & Hc & HN & Hpr).
    assert (Forall (is_progress PRINT_INTERVAL lo MAX_ITERATIONS) (progress st1)) as Hp1.
    { rewrite Hpr. apply Forall_app. split; [done|].
      destruct (Z.eqb_spec (N st `rem` PRINT_INTERVAL) 0); [|done].
      apply Forall_singleton. exists (N st), d. split_and!; [done|done|lia|lia]. }
    destruct continue.
    + apply IH in H as (H1 & H2 & H3); [|lia|done]. split_and!; [lia| |done].
      intros _. apply H2. lia.
    + apply mret_inv in H as [-> ->]. split_and!; [lia|lia|done].
Qed.

End driver_edges.

(** X9.  [jacobi.c] enters its loop with the counter [N] as the stack holds
    it.  When that value is at the cap or above, no sweep is made and no
    array is touched: every process tells that it has finished and exits
    with status 1, and rank 0 reports the failure with the value [du_max]
    happened to hold. *)
Theorem cap_reached_before_first_sweep (lm : libm) (num_points num_procs N0 : Z)
    (du_max0 : float) (w : list Jacobi1D.mem) :
  Jacobi1D.MAX_ITERATIONS ≤ N0 →
  Driver.solve Jacobi1D.MAX_ITERATIONS Jacobi1D.PRINT_INTERVAL
    (Jacobi1D.tolerance lm num_points) (Jacobi1D.sweep lm num_points num_procs) true
    (Jacobi1D.write_output num_points num_procs) N0 du_max0 w =
  Ok (imap (λ k _, Outcome 1
                     (Finished (Z.of_nat k) N0 du_max0
                      :: if Z.of_nat k =? 0
                         then [NotConverged du_max0 (Jacobi1D.tolerance lm num_points)]
                         else [])) w, w).
Proof. intros Hcap. by rewrite solve_at_cap. Qed.
Lemma cap_reached_before_first_sweep_witness :
  Driver.solve Jacobi1D.MAX_ITERATIONS Jacobi1D.PRINT_INTERVAL
    (Jacobi1D.tolerance sample_libm 2) (Jacobi1D.sweep sample_libm 2 1) true
    (Jacobi1D.write_output 2 1) 10000 7%float [sample_mem] =
  Ok ([Outcome 1 [Finished 0 10000 7%float;
                  NotConverged 7%float (Jacobi1D.tolerance sample_libm 2)]],
      [sample_mem]).
Proof.
  refine (cap_reached_before_first_sweep sample_libm 2 1 10000 7%float [sample_mem] _).
  unfold Jacobi1D.MAX_ITERATIONS. lia.
Defined.

(** X10.  Progress is reported by rank 0 alone, at sweep counters that
    [PRINT_INTERVAL] divides, from the counter the loop was entered with up
    to the cap; and the counter never decreases, nor passes the cap when it
    started below. *)
Theorem progress_reports {Mem : Type} (MAX_ITERATIONS PRINT_INTERVAL : Z)
    (tolerance : float) (sweep : M (list Mem) float) (announces : bool)
    (write_output : Z → M Mem (list (list field)))
    (N0 : Z) (du_max0 : float) (w : list Mem) (outs : list outcome) (w' : list Mem) :
  Driver.solve MAX_ITERATIONS PRINT_INTERVAL tolerance sweep announces write_output
    N0 du_max0 w = Ok (outs, w') →
  (∀ (k : nat) o n d, outs !! k = Some o → Progress n d ∈ events o →
     k = 0%nat ∧ n `rem` PRINT_INTERVAL = 0 ∧ N0 ≤ n < MAX_ITERATIONS)
  ∧ ∃ st w1,
      Driver.jacobi_iterations MAX_ITERATIONS PRINT_INTERVAL tolerance sweep N0 du_max0 w
        = Ok (st, w1)
      ∧ N0 ≤ Driver.N st
      ∧ (N0 ≤ MAX_ITERATIONS → Driver.N st ≤ MAX_ITERATIONS).
Proof.
  intros H. unfold Driver.solve in H.
  apply bind_inv in H as (st & w1 & Hloop & H).
  apply bind_inv in H as (outs0 & w2 & Hc & H).
  apply mret_inv in H as [-> ->].
  pose proof Hloop as Hl. unfold Driver.jacobi_iterations in Hl.
  apply (while_loop_progress _ _ _ _ _ _ _ _ _ N0) in Hl as (HN1 & HN2 & Hp);
    [|done|by apply Forall_nil].
  cbn [Driver.N] in HN1, HN2. split; [|by exists st, w1].
  apply on_ranks_inv in Hc as (Hl1 & Hl2 & Hk).
  assert (∀ (k : nat) o0 n d, outs0 !! k = Some o0 → Progress n d ∉ events o0) as Hnone.
  { intros k o0 n d Ho0 Hin.
    destruct (lookup_lt_is_Some_2 w1 k) as [m Hm].
    { rewrite <- Hl1. by apply lookup_lt_Some in Ho0. }
    destruct (Hk k m Hm) as (x & m' & Hs & Hx & _).
    assert (x = o0) as -> by congruence.
    assert (Progress n d ∉ Driver.announce announces (0 + Z.of_nat k) st) as Ha.
    { unfold Driver.announce. destruct announces; [|by apply not_elem_of_nil].
      intros Hi. apply list_elem_of_singleton in Hi. done. }
    apply conclude_inv in Hs as [(_ & _ & ->)|(_ & lines & _ & ->)];
      cbn [events] in Hin; apply elem_of_app in Hin as [Hin|Hin]; try done.
    - destruct (_ =? 0); [|by apply not_elem_of_nil in Hin].
      by apply list_elem_of_singleton in Hin.
    - by apply list_elem_of_singleton in Hin. }
  intros k o n d Ho Hin. rewrite with_progress_lookup in Ho.
  destruct (outs0 !! k) as [o0|] eqn:Ho0; [|done]. injection Ho as <-.
  destruct (decide (k = 0%nat)) as [->|Hk0]; [|by destruct (Hnone k o0 n d Ho0)].
  cbn [events] in Hin. apply elem_of_app in Hin as [Hin|Hin];
    [|by destruct (Hnone 0%nat o0 n d Ho0)].
  rewrite Forall_forall in Hp. destruct (Hp _ Hin) as (n' & d' & [= -> ->] & Hr & Hb).
  done.
Qed.
Lemma progress_reports_witness :
  ∃ st w1,
    Driver.jacobi_iterations Jacobi1D.MAX_ITERATIONS Jacobi1D.PRINT_INTERVAL
      (Jacobi1D.tolerance sample_libm 2) (Jacobi1D.sweep sample_libm 2 1)
      9000 0%float [sample_mem] = Ok (st, w1)
    ∧ 9000 ≤ Driver.N st.
Proof.
  edestruct (progress_reports Jacobi1D.MAX_ITERATIONS Jacobi1D.PRINT_INTERVAL
               (Jacobi1D.tolerance sample_libm 2) (Jacobi1D.sweep sample_libm 2 1)
               true (Jacobi1D.write_output 2 1) 9000 0%float [sample_mem])
    as (_ & st & w1 & Hloop & HN & _).
  - vm_compute. reflexivity.
  - by exists st, w1.
Defined.

(** ** The 1D kernel and NaN *)

Lemma is_nan_mul_r x y : PrimFloat.is_nan y = true → PrimFloat.is_nan (x * y) = true.
Proof.
  rewrite !Prim2SF_is_nan, FloatAxioms.mul_spec. intros ->. by destruct (Prim2SF x).
Qed.

Lemma is_nan_sub_r x y : PrimFloat.is_nan y = true → PrimFloat.is_nan (x - y) = true.
Proof.
  rewrite !Prim2SF_is_nan, FloatAxioms.sub_spec. intros ->. by destruct (Prim2SF x).
Qed.

Lemma is_nan_sub_l x y : PrimFloat.is_nan x = true → PrimFloat.is_nan (x - y) = true.
Proof.
  rewrite !Prim2SF_is_nan, FloatAxioms.sub_spec. by intros ->.
Qed.

Lemma is_nan_fabs x : PrimFloat.is_nan x = true → PrimFloat.is_nan (fabs x) = true.
Proof.
  unfold fabs. rewrite !Prim2SF_is_nan, FloatAxioms.abs_spec. by intros ->.
Qed.

Lemma fold_fmax_skips_nan l acc :
  not_nan acc →
  fold_left fmax l acc =
  fold_left fmax (List.filter (λ d, negb (PrimFloat.is_nan d)) l) acc.
Proof.
  revert acc. induction l as [|x l IH]; intros acc Hacc; [done|].
  cbn [fold_left List.filter]. destruct (PrimFloat.is_nan x) eqn:Hx; cbn [negb].
  - assert (fmax acc x = acc) as ->; [|by apply IH].
    unfold fmax. unfold not_nan in Hacc. by rewrite Hacc, Hx.
  - cbn [fold_left]. apply IH. by apply fmax_not_nan.
Qed.

(** X8.  A point whose change [|new - old|] is NaN does not enter the
    Local Delta: [fmax] skips it, and the Local Delta is the largest of the
    other changes and never NaN.  If the source term is NaN at every
    interior point, every new value is NaN and the Local Delta is [0]. *)
Theorem local_delta_skips_nan (lm : libm) (num_points num_procs : Z) (m : Jacobi1D.mem) :
  Spec1D.allocated num_points num_procs m →
  ∃ du m',
    Jacobi1D.apply_jacobi lm num_points num_procs m = Ok (du, m')
    ∧ du = fold_left fmax
             (List.filter (λ d, negb (PrimFloat.is_nan d))
                (Spec1D.change lm num_points (Jacobi1D.u_old m) (Jacobi1D.f m)
                   <$> range_excl 1 (Jacobi1D.points_per_proc num_points num_procs + 1)))
             0%float
    ∧ PrimFloat.is_nan du = false
    ∧ ((∀ i, 1 ≤ i ≤ Jacobi1D.points_per_proc num_points num_procs →
          PrimFloat.is_nan (cell (Jacobi1D.f m) i) = true) →
       du = 0%float
       ∧ ∀ i, 1 ≤ i ≤ Jacobi1D.points_per_proc num_points num_procs →
              PrimFloat.is_nan (cell (Jacobi1D.u m') i) = true).
Proof.
  intros Ha. pose proof Ha as (Hu & Ho & Hf).
  set (n := Jacobi1D.points_per_proc num_points num_procs) in *.
  assert (Forall (λ i, 1 ≤ i ≤ n) (range_excl 1 (n + 1))) as Hord.
  { eapply Forall_impl; [apply Forall_range_excl|]. cbn beta. lia. }
  eexists _, _. split.
  { unfold Jacobi1D.apply_jacobi. fold n.
    apply (apply_jacobi_in_allocated lm num_points num_procs); done. }
  assert (not_nan 0%float) as H0 by reflexivity.
  split; [by apply fold_fmax_skips_nan|]. split.
  { cut (∀ l acc, not_nan acc → not_nan (fold_left fmax l acc)); [intros Hc; by apply Hc|].
    intros l. induction l as [|x l IH]; intros acc Hacc; [done|].
    cbn [fold_left]. apply IH. by apply fmax_not_nan. }
  intros Hnan.
  assert (∀ i, 1 ≤ i ≤ n →
            PrimFloat.is_nan
              (Spec1D.relaxed lm num_points (Jacobi1D.u_old m) (Jacobi1D.f m) i) = true)
    as Hrel.
  { intros i Hi. unfold Spec1D.relaxed.
    apply is_nan_mul_r, is_nan_sub_r, is_nan_mul_r. by apply Hnan. }
  split.
  - rewrite fold_fmax_skips_nan by done.
    assert (List.filter (λ d, negb (PrimFloat.is_nan d))
              (Spec1D.change lm num_points (Jacobi1D.u_old m) (Jacobi1D.f m)
                 <$> range_excl 1 (n + 1)) = []) as ->; [|done].
    induction Hord as [|i l Hi Hl IH]; [done|].
    cbn [fmap list_fmap List.filter]. unfold Spec1D.change at 1.
    rewrite is_nan_fabs by (apply is_nan_sub_l; by apply Hrel). exact IH.
  - intros i Hi. cbn [Jacobi1D.u]. rewrite cell_bulk.
    + rewrite decide_True by (apply elem_of_seqZ; lia). by apply Hrel.
    + eapply Forall_impl; [exact Hord|]. cbn beta. lia.
Qed.
Lemma local_delta_skips_nan_witness :
  ∃ du m', Jacobi1D.apply_jacobi sample_libm 2 1 sample_mem = Ok (du, m')
           ∧ PrimFloat.is_nan du = false.
Proof.
  destruct (local_delta_skips_nan sample_libm 2 1 sample_mem sample_mem_allocated)
    as (du & m' & H & _ & Hn & _).
  by exists du, m'.
Defined.

(** ** The 2D solver: the initialization *)

Lemma for_each_app {S} (l1 l2 : list Z) (body : Z → M S unit) s s1 :
  for_each l1 body s = Ok ((), s1) →
  for_each (l1 ++ l2) body s = for_each l2 body s1.
Proof.
  unfold for_each. revert s. induction l1 as [|i l1 IH]; intros s H; cbn [foreach app] in *.
  - by injection H as ->.
  - apply bind_inv in H as ([] & s' & Hi & H). rewrite (bind_Ok _ _ _ _ _ Hi). by apply IH.
Qed.

Lemma for_each_Ok_inv {S} (I : S → Prop) (l : list Z) (body : Z → M S unit) s :
  (∀ i t, i ∈ l → I t → ∃ t', body i t = Ok ((), t') ∧ I t') →
  I s → ∃ s', for_each l body s = Ok ((), s') ∧ I s'.
Proof.
  unfold for_each. revert s. induction l as [|i l IH]; intros s Hbody Hs; cbn [foreach].
  - by exists s.
  - destruct (Hbody i s ltac:(left) Hs) as (t & Hi & Ht). rewrite (bind_Ok _ _ _ _ _ Hi).
    apply IH; [|done]. intros j t' Hj. apply Hbody. by right.
Qed.

Lemma for_each_cons_fault {S} i (l : list Z) (body : Z → M S unit) s e :
  body i s = Fault e → for_each (i :: l) body s = Fault e.
Proof. intros H. unfold for_each. cbn [foreach]. unfold mbind, M_bind. by rewrite H. Qed.

Lemma bind_fault {S A B} (c : M S A) (k : A → M S B) s e :
  c s = Fault e → (c ≫= k) s = Fault e.
Proof. intros H. unfold mbind, M_bind. by rewrite H. Qed.

Lemma bind_mret {S A B} (x : A) (k : A → M S B) s : (mret x ≫= k) s = k x s.
Proof. reflexivity. Qed.

Lemma shaped_new_grid garbage n :
  0 ≤ n → shaped (Jacobi2D.new_grid garbage n n) n n.
Proof.
  intros Hn. unfold Jacobi2D.new_grid, Jacobi2D.new_vector. split.
  - rewrite length_fmap, length_seqZ. lia.
  - apply Forall_fmap, Forall_forall. intros i _. cbn.
    rewrite length_fmap, length_seqZ. lia.
Qed.

Section init_2d.
Import Jacobi2D.
Context (lm : libm) (num_procs : Z).
Context (HP : 2 ≤ num_procs) (Hfit : num_points + num_procs ≤ Int32.int_max).
Abbreviation c := (ceil_div num_points num_procs).

Lemma ceil_20 : 1 ≤ c ≤ 10.
Proof.
  pose proof (ceil_div_spec num_points num_procs ltac:(lia)) as Hs.
  unfold num_points in *. nia.
Qed.

Lemma rank_num_points_eq rank :
  0 ≤ rank < num_procs →
  rank_num_points num_procs rank = Z.min ((rank + 1) * c) num_points - rank * c.
Proof.
  intros Hr. unfold rank_num_points, end_index, start_index.
  rewrite end_index_eq, start_index_eq by (unfold num_points in *; lia).
  pose proof ceil_20. pose proof (ceil_bounds num_points num_procs ltac:(done) ltac:(lia)).
  unfold Int32.add, Int32.sub.
  rewrite (wrap_in_range (_ - _)) by (unfold num_points in *; int_range).
  rewrite wrap_in_range by (unfold num_points in *; int_range). lia.
Qed.

(** The first loop of the initialization on grids of [rows] rows of
    [cols] doubles, for the rows the grids have. *)
Lemma init_rows rank rows cols n m :
  0 ≤ n ≤ rows → rank_num_points num_procs rank + 1 ≤ cols →
  shaped (u m) rows cols → shaped (f m) rows cols →
  ∃ m', for_each (seqZ 0 n) (λ i,
          for_each (range_excl 0 (rank_num_points num_procs rank + 1))
            (init_point lm num_procs rank i)) m = Ok ((), m')
        ∧ shaped (u m') rows cols ∧ shaped (f m') rows cols
        ∧ u_old m' = u_old m ∧ buffer m' = buffer m ∧ send_buffer m' = send_buffer m.
Proof.
  intros Hn Hc Hu Hf.
  pose (I := λ t, shaped (u t) rows cols ∧ shaped (f t) rows cols
                  ∧ u_old t = u_old m ∧ buffer t = buffer m
                  ∧ send_buffer t = send_buffer m).
  destruct (for_each_Ok_inv I (seqZ 0 n)
              (λ i, for_each (range_excl 0 (rank_num_points num_procs rank + 1))
                      (init_point lm num_procs rank i)) m) as (m' & Hrun & Hm').
  - intros i t Hi Ht. apply elem_of_seqZ in Hi.
    apply (for_each_Ok_inv I); [|done].
    intros j t' Hj (Hu' & Hf' & Ho' & Hb' & Hs'). apply elem_of_seqZ in Hj.
    unfold init_point.
    rewrite (bind_Ok _ _ _ _ _ (grid_store_Ok F i j _ t' rows cols Hf' ltac:(lia) ltac:(lia))).
    rewrite (grid_store_Ok U i j _ _ rows cols) by (done || lia).
    eexists. split; [done|]. unfold I. cbn [set_grid grid u f u_old buffer send_buffer].
    split_and!; try done; by apply shaped_set2.
  - unfold I. done.
  - exists m'. done.
Qed.

End init_2d.

Section init_2d_faults.
Import Jacobi2D.
Context (lm : libm) (num_procs : Z).

Lemma initialize_too_few_rows rank rows cols m :
  0 ≤ rows < num_points + 2 →
  0 ≤ rank_num_points num_procs rank → rank_num_points num_procs rank + 1 ≤ cols →
  shaped (u m) rows cols → shaped (f m) rows cols →
  initialize lm num_procs rank m = Fault (OutOfBounds F rows).
Proof.
  intros Hrows Hn Hcols Hu Hf. unfold initialize. apply bind_fault.
  unfold range_excl at 1.
  replace (num_points + 2 - 0) with (rows + (num_points + 2 - rows)) by lia.
  rewrite seqZ_app by lia.
  destruct (init_rows lm num_procs rank rows cols rows m ltac:(lia) Hcols Hu Hf)
    as (m1 & Hrun & Hu1 & Hf1 & _).
  rewrite (for_each_app _ _ _ _ _ Hrun).
  rewrite seqZ_cons by lia. apply for_each_cons_fault.
  unfold range_excl. rewrite seqZ_cons by lia. apply for_each_cons_fault.
  unfold init_point. apply bind_fault. unfold store. cbn [grid].
  rewrite Z.add_0_l.
  by rewrite (proj2 (lookupZ_None (f m1) rows)) by (destruct Hf1 as [-> _]; lia).
Qed.

End init_2d_faults.

(** X14.  The 2D solver allocates [rank_num_points + 2] rows for each grid
    but its loops run over [num_points + 2] rows.  With two or more processes
    no rank has that many rows: the initialization of every rank that owns a
    row stores beyond its last row, at [f[rank_num_points + 2][0]], and the
    run stops there on rank 0. *)
Theorem grids_allocated_too_small (lm : libm) (num_procs : Z) (du_max0 : float)
    (garbage : Z → array_name → Z → Z → float) (undeclared : Z → list float) :
  2 ≤ num_procs → Jacobi2D.num_points + num_procs ≤ Int32.int_max →
  (∀ rank, 0 ≤ rank < num_procs → 0 ≤ Jacobi2D.rank_num_points num_procs rank →
     Jacobi2D.initialize lm num_procs rank
       (Jacobi2D.allocate num_procs rank (garbage rank) (undeclared rank))
     = Fault (OutOfBounds F (Jacobi2D.rank_num_points num_procs rank + 2)))
  ∧ Jacobi2D.main lm num_procs du_max0 garbage undeclared
    = Fault (OutOfBounds F (ceil_div Jacobi2D.num_points num_procs + 2)).
Proof.
  intros HP Hfit.
  assert (∀ rank, 0 ≤ rank < num_procs → 0 ≤ Jacobi2D.rank_num_points num_procs rank →
     Jacobi2D.initialize lm num_procs rank
       (Jacobi2D.allocate num_procs rank (garbage rank) (undeclared rank))
     = Fault (OutOfBounds F (Jacobi2D.rank_num_points num_procs rank + 2))) as Hinit.
  { intros rank Hr Hn. pose proof (ceil_20 num_procs HP Hfit) as Hc.
    assert (Jacobi2D.rank_num_points num_procs rank ≤ 10) as Hle.
    { rewrite rank_num_points_eq by done. unfold Jacobi2D.num_points in *. nia. }
    apply (initialize_too_few_rows lm num_procs rank _
             (Jacobi2D.rank_num_points num_procs rank + 2));
      [unfold Jacobi2D.num_points; lia|done|lia|..];
      unfold Jacobi2D.allocate; cbn [Jacobi2D.u Jacobi2D.f];
      apply shaped_new_grid; lia. }
  split; [exact Hinit|].
  unfold Jacobi2D.main. destruct (Z.eqb_spec num_procs 1) as [|_]; [lia|].
  rewrite seqZ_cons by lia. cbn [fmap list_fmap on_ranks]. cbv zeta. cbn [on_ranks].
  pose proof (ceil_20 num_procs HP Hfit) as Hc.
  assert (Jacobi2D.rank_num_points num_procs 0
          = ceil_div Jacobi2D.num_points num_procs) as H0.
  { rewrite rank_num_points_eq by lia. unfold Jacobi2D.num_points in *. lia. }
  rewrite Hinit by lia. by rewrite H0.
Qed.
Lemma grids_allocated_too_small_witness :
  Jacobi2D.main sample_libm 2 0%float (λ _ _ _ _, 0%float) (λ _, [])
  = Fault (OutOfBounds F (ceil_div Jacobi2D.num_points 2 + 2)).
Proof.
  refine (proj2 (grids_allocated_too_small sample_libm 2 0%float
                   (λ _ _ _ _, 0%float) (λ _, []) _ _)).
  - lia.
  - unfold Jacobi2D.num_points, Int32.int_max. lia.
Defined.

Section top_2d.
Import Jacobi2D.
Context (lm : libm) (num_procs : Z).
Context (HP : 2 ≤ num_procs) (Hfit : num_points + num_procs ≤ Int32.int_max).

Lemma rank_num_points_last : rank_num_points num_procs (num_procs - 1) ≤ 19.
Proof.
  rewrite rank_num_points_eq by lia. pose proof (ceil_20 num_procs HP Hfit).
  unfold num_points in *. nia.
Qed.

Lemma store_top_fault i v m cols :
  shaped (u m) (num_points + 2) cols → cols ≤ num_points + 1 → 0 ≤ i < num_points + 2 →
  store U i (num_points + 1) v m = Fault (OutOfBounds U (num_points + 1)).
Proof.
  intros Hu Hc Hi. unfold store. cbn [grid].
  destruct (shaped_row _ _ _ i Hu Hi) as (row & -> & Hrow).
  by rewrite (proj2 (lookupZ_None row (num_points + 1))) by lia.
Qed.

Lemma load_top_fault i m cols :
  shaped (u m) (num_points + 2) cols → cols ≤ num_points + 1 → 0 ≤ i < num_points + 2 →
  load U i (num_points + 1) m = Fault (OutOfBounds U (num_points + 1)).
Proof.
  intros Hu Hc Hi. unfold load. cbn [grid].
  destruct (shaped_row _ _ _ i Hu Hi) as (row & -> & Hrow).
  by rewrite (proj2 (lookupZ_None row (num_points + 1))) by lia.
Qed.

Lemma initialize_top_fault m :
  Spec2D.grids_shaped num_procs (num_procs - 1) m →
  initialize lm num_procs (num_procs - 1) m = Fault (OutOfBounds U (num_points + 1)).
Proof.
  intros (Hu & _ & Hf). pose proof rank_num_points_last as Hn.
  set (n := rank_num_points num_procs (num_procs - 1)) in *.
  unfold initialize. fold n.
  destruct (init_rows lm num_procs (num_procs - 1) (num_points + 2) (n + 2)
              (num_points + 2) m ltac:(unfold num_points; lia) ltac:(fold n; lia) Hu Hf)
    as (m1 & Hrun & Hu1 & Hf1 & _).
  fold n in Hrun. unfold range_excl at 1. rewrite Z.sub_0_r.
  rewrite (bind_Ok _ _ _ _ _ Hrun).
  destruct (Z.eqb_spec (num_procs - 1) 0) as [|_]; [lia|].
  rewrite Z.eqb_refl. unfold when. cbv iota. rewrite bind_mret.
  destruct (for_each_Ok_inv (λ t, shaped (u t) (num_points + 2) (n + 2))
              (range_excl 0 (n + 1))
              (λ j, store U 0 j 0%float;; store U (num_points + 1) j 0%float) m1)
    as (m2 & Hrun2 & Hu2); [|done|].
  { intros j t Hj Ht. apply elem_of_seqZ in Hj.
    rewrite (bind_Ok _ _ _ _ _ (grid_store_Ok U 0 j _ t _ _ Ht
               ltac:(unfold num_points; lia) ltac:(lia))).
    rewrite (grid_store_Ok U (num_points + 1) j _ _ (num_points + 2) (n + 2));
      [|cbn [set_grid grid u]; by apply shaped_set2|unfold num_points; lia|lia].
    eexists. split; [done|]. cbn [set_grid grid u]. by do 2 apply shaped_set2. }
  rewrite (bind_Ok _ _ _ _ _ Hrun2). unfold range_excl.
  rewrite seqZ_cons by (unfold num_points; lia). apply for_each_cons_fault.
  apply (store_top_fault _ _ _ (n + 2)); [done|unfold num_points; lia..].
Qed.

Lemma write_row_Ok j m cols :
  shaped (u m) (num_points + 2) cols → 0 ≤ j < cols →
  write_row j m = Ok ((λ i, Num (cell2 (u m) i j)) <$> range_excl 0 (num_points + 2), m).
Proof.
  intros Hu Hj. unfold write_row. apply collect_Ok. intros i Hi.
  apply elem_of_seqZ in Hi.
  by rewrite (bind_Ok _ _ _ _ _ (grid_load_Ok U i j m _ _ Hu ltac:(lia) Hj)).
Qed.

Lemma write_output_top_fault m :
  Spec2D.grids_shaped num_procs (num_procs - 1) m →
  write_output num_procs (num_procs - 1) m = Fault (OutOfBounds U (num_points + 1)).
Proof.
  intros (Hu & _ & _). pose proof rank_num_points_last as Hn.
  set (n := rank_num_points num_procs (num_procs - 1)) in *.
  unfold write_output. fold n.
  destruct (Z.eqb_spec (num_procs - 1) 0) as [|_]; [lia|].
  cbv iota. rewrite !bind_mret.
  erewrite bind_Ok.
  2:{ apply (collect_Ok _ _ (λ j, (λ i, Num (cell2 (u m) i j)) <$> range_excl 0 (num_points + 2))).
      intros j Hj. apply elem_of_seqZ in Hj. apply (write_row_Ok _ _ (n + 2)); [done|lia]. }
  rewrite Z.eqb_refl. apply bind_fault, bind_fault.
  unfold write_row, range_excl. rewrite seqZ_cons by (unfold num_points; lia).
  cbn [collect]. apply bind_fault, bind_fault.
  apply (load_top_fault _ _ (n + 2)); [done|unfold num_points; lia..].
Qed.

End top_2d.

(** X16.  The top boundary is addressed as [u[i][num_points + 1]], in the
    initialization (line 125) and in the output (line 232), but a row [u[i]]
    holds [rank_num_points + 2] doubles, the index of the last being
    [rank_num_points + 1], local to the rank.  Also on grids of
    [num_points + 2] rows, both the initialization and the output of the last
    of two or more ranks leave the row at that index. *)
Theorem top_boundary_out_of_bounds (lm : libm) (num_procs : Z) (m : Jacobi2D.mem) :
  2 ≤ num_procs → Jacobi2D.num_points + num_procs ≤ Int32.int_max →
  Spec2D.grids_shaped num_procs (num_procs - 1) m →
  Jacobi2D.initialize lm num_procs (num_procs - 1) m
    = Fault (OutOfBounds U (Jacobi2D.num_points + 1))
  ∧ Jacobi2D.write_output num_procs (num_procs - 1) m
    = Fault (OutOfBounds U (Jacobi2D.num_points + 1)).
Proof.
  intros HP Hfit Hm. split.
  - by apply initialize_top_fault.
  - by apply write_output_top_fault.
Qed.
Lemma top_boundary_out_of_bounds_witness :
  Jacobi2D.initialize sample_libm 2 1 sample_mem2_buffers
  = Fault (OutOfBounds U (Jacobi2D.num_points + 1)).
Proof.
  refine (proj1 (top_boundary_out_of_bounds sample_libm 2 sample_mem2_buffers _ _ _)).
  - lia.
  - unfold Jacobi2D.num_points, Int32.int_max. lia.
  - exact sample_mem2_buffers_shaped.
Defined.

(** ** The 2D solver: the exchange *)

Section exchange_2d.
Import Jacobi2D.

Lemma fill_vector_spec (a : array_name) c rows cols l : ∀ m,
  a = BUFFER ∨ a = SEND_BUFFER →
  shaped (u_old m) rows cols → 0 ≤ c < cols →
  Forall (λ i, 0 ≤ i < rows ∧ i < Z.of_nat (length (vector a m))) l →
  ∃ m', for_each l (λ i, v ← load U_OLD i c; store_vector a i v) m = Ok ((), m')
        ∧ u m' = u m ∧ u_old m' = u_old m ∧ f m' = f m
        ∧ (a = BUFFER → send_buffer m' = send_buffer m)
        ∧ (a = SEND_BUFFER → buffer m' = buffer m)
        ∧ length (vector a m') = length (vector a m)
        ∧ ∀ i, lookupZ (vector a m') i =
               if decide (i ∈ l) then Some (cell2 (u_old m) i c)
               else lookupZ (vector a m) i.
Proof.
  unfold for_each. induction l as [|i l IH]; intros m Ha Ho Hc Hl.
  - exists m. split_and!; try done.
  - apply Forall_cons in Hl as [[Hi1 Hi2] Hl]. cbn [foreach]. cbn beta.
    set (m1 := set_vector a (<[Z.to_nat i := cell2 (grid U_OLD m) i c]> (vector a m)) m).
    assert ((load U_OLD i c ≫= λ v, store_vector a i v) m = Ok ((), m1)) as Hstep.
    { rewrite (bind_Ok _ _ _ _ _ (grid_load_Ok U_OLD i c m rows cols Ho Hi1 Hc)).
      unfold store_vector. by rewrite lookupZ_cell by lia. }
    assert (u m1 = u m ∧ u_old m1 = u_old m ∧ f m1 = f m
            ∧ (a = BUFFER → send_buffer m1 = send_buffer m)
            ∧ (a = SEND_BUFFER → buffer m1 = buffer m)
            ∧ vector a m1 = <[Z.to_nat i := cell2 (u_old m) i c]> (vector a m))
      as (Hu1 & Ho1 & Hf1 & Hs1 & Hb1 & Hv1).
    { destruct Ha as [-> | ->]; by destruct m. }
    destruct (IH m1 Ha) as (m' & Hrun & Hu & Ho' & Hf & Hs & Hb & Hlen & Hv).
    + by rewrite Ho1.
    + done.
    + rewrite Hv1, length_insert. done.
    + exists m'. split; [by rewrite (bind_Ok _ _ _ _ _ Hstep)|]. rewrite Hu, Ho', Hf, Hlen, Hv1, length_insert.
      split_and!; [done|done|done|intros Ha'; by rewrite Hs, Hs1|
                   intros Ha'; by rewrite Hb, Hb1|done|].
      intros j. rewrite Hv, Ho1, Hv1.
      destruct (decide (j ∈ l)) as [Hin|Hnin].
      * by rewrite decide_True by (by right).
      * destruct (decide (i = j)) as [->|Hne].
        -- rewrite decide_True by left. by rewrite lookupZ_insert_eq by lia.
        -- rewrite decide_False by (rewrite elem_of_cons; intros [?|?]; congruence).
           by rewrite lookupZ_insert_ne by lia.
Qed.

Lemma fill_ghost_spec c rows cols l : ∀ m,
  shaped (u_old m) rows cols → 0 ≤ c < cols →
  Forall (λ i, 0 ≤ i < rows ∧ i < Z.of_nat (length (buffer m))) l →
  ∃ m', for_each l (λ i, v ← load_vector BUFFER i; store U_OLD i c v) m = Ok ((), m')
        ∧ u m' = u m ∧ f m' = f m ∧ buffer m' = buffer m
        ∧ send_buffer m' = send_buffer m
        ∧ shaped (u_old m') rows cols
        ∧ ∀ i j, lookup2 (u_old m') i j =
                 if decide (j = c ∧ i ∈ l) then Some (cell (buffer m) i)
                 else lookup2 (u_old m) i j.
Proof.
  unfold for_each. induction l as [|i l IH]; intros m Ho Hc Hl.
  - exists m. split_and!; try done. intros i j.
    rewrite decide_False; [done|]. intros [_ Hin]. by apply not_elem_of_nil in Hin.
  - apply Forall_cons in Hl as [[Hi1 Hi2] Hl]. cbn [foreach]. cbn beta.
    set (m1 := set_grid U_OLD (set2 (grid U_OLD m) i c (cell (buffer m) i)) m).
    assert ((load_vector BUFFER i ≫= λ v, store U_OLD i c v) m = Ok ((), m1)) as Hstep.
    { unfold load_vector, mbind, M_bind. cbn [vector]. rewrite lookupZ_cell by lia.
      by apply (grid_store_Ok U_OLD i c _ m rows cols). }
    destruct (IH m1) as (m' & Hrun & Hu & Hf & Hb & Hs & Hsh & Hv).
    + cbn [m1 set_grid u_old grid]. by apply shaped_set2.
    + done.
    + done.
    + exists m'. split; [by rewrite (bind_Ok _ _ _ _ _ Hstep)|]. split_and!; try done.
      intros i' j. rewrite Hv. cbn [m1 set_grid u_old grid buffer].
      destruct (decide (j = c ∧ i' ∈ l)) as [[-> Hin]|Hnin].
      * by rewrite decide_True by (split; [done|by right]).
      * destruct (decide (i = i' ∧ c = j)) as [[-> ->]|Hne].
        -- rewrite decide_True by (split; [done|left]).
           by apply (lookup2_set2_eq _ rows cols).
        -- rewrite decide_False.
           ++ apply lookup2_set2_ne. intros [= -> ->]. by apply Hne.
           ++ intros [-> Hin]. apply elem_of_cons in Hin as [->|Hin]; [by apply Hne|].
              by apply Hnin.
Qed.

Lemma grid_MPI_Isend_Ok rank dst t m :
  num_points + 2 ≤ Z.of_nat (length (send_buffer m)) →
  ∃ data, MPI_Isend rank dst t m = Ok ([MPI.Message rank dst t data], m).
Proof.
  intros Hs. unfold MPI_Isend. eexists.
  erewrite bind_Ok; [done|].
  apply (collect_Ok _ _ (cell (send_buffer m))).
  intros i Hi. apply elem_of_seqZ in Hi. unfold load_vector. cbn [vector].
  by rewrite lookupZ_cell by lia.
Qed.

End exchange_2d.

(** X17.  The 2D exchange receives nothing (both [MPI_Recv] are commented
    out): it fills the ghost rows from the process's own [buffer].  On grids
    of [num_points + 2] rows and with buffers of [num_points + 2] doubles it
    returns; a process of rank above 0 finds in its lower ghost row its own
    first owned row, and a process below the last rank finds in its upper
    ghost row the same, or, on rank 0, what [buffer] held before. *)
Theorem exchange_fills_ghost_rows_locally (num_procs rank : Z) (m : Jacobi2D.mem) :
  Spec2D.grids_shaped num_procs rank m →
  1 ≤ Jacobi2D.rank_num_points num_procs rank →
  Jacobi2D.num_points + 2 ≤ Z.of_nat (length (Jacobi2D.buffer m)) →
  Jacobi2D.num_points + 2 ≤ Z.of_nat (length (Jacobi2D.send_buffer m)) →
  ∃ msgs m',
    Jacobi2D.exchange num_procs rank m = Ok (msgs, m')
    ∧ ∀ i, 0 ≤ i < Jacobi2D.num_points + 2 →
        (0 < rank →
         cell2 (Jacobi2D.u_old m') i 0 = cell2 (Jacobi2D.u_old m) i 1)
        ∧ (rank < num_procs - 1 →
           cell2 (Jacobi2D.u_old m') i (Jacobi2D.rank_num_points num_procs rank + 1) =
           if rank >? 0 then cell2 (Jacobi2D.u_old m) i 1
           else cell (Jacobi2D.buffer m) i).
Proof.
  intros (_ & Ho & _) Hn Hb Hs.
  set (n := Jacobi2D.rank_num_points num_procs rank) in *.
  set (rows := Jacobi2D.num_points + 2) in *.
  assert (0 < rows) as Hrows by (unfold rows, Jacobi2D.num_points; lia).
  unfold Jacobi2D.exchange. fold n. unfold range_excl. rewrite !Z.sub_0_r. fold rows.
  (* the send upwards *)
  assert (∃ up m1,
            (if rank <? num_procs - 1
             then for_each (seqZ 0 rows) (λ i,
                    v ← Jacobi2D.load U_OLD i n; Jacobi2D.store_vector SEND_BUFFER i v);;
                  Jacobi2D.MPI_Isend rank (rank + 1) 1
             else mret []) m = Ok (up, m1)
            ∧ Jacobi2D.u_old m1 = Jacobi2D.u_old m
            ∧ Jacobi2D.buffer m1 = Jacobi2D.buffer m
            ∧ rows ≤ Z.of_nat (length (Jacobi2D.send_buffer m1)))
    as (up & m1 & H1 & Ho1 & Hb1 & Hs1).
  { destruct (rank <? num_procs - 1); [|by exists [], m].
    destruct (fill_vector_spec SEND_BUFFER n rows (n + 2) (seqZ 0 rows) m)
      as (m1 & Hrun & _ & Ho1 & _ & _ & Hb1 & Hlen & _);
      [by right|done|lia|apply Forall_seqZ; cbn [Jacobi2D.vector]; lia|].
    cbn [Jacobi2D.vector] in Hlen.
    destruct (grid_MPI_Isend_Ok rank (rank + 1) 1 m1) as [data Hsend]; [fold rows; lia|].
    exists [MPI.Message rank (rank + 1) 1 data], m1.
    rewrite (bind_Ok _ _ _ _ _ Hrun). split_and!; [done|done|by apply Hb1|lia]. }
  rewrite (bind_Ok _ _ _ _ _ H1).
  (* the send downwards *)
  assert (∃ down m2,
            (if rank >? 0
             then for_each (seqZ 0 rows) (λ i,
                    v ← Jacobi2D.load U_OLD i 1; Jacobi2D.store_vector BUFFER i v);;
                  Jacobi2D.MPI_Isend rank (rank - 1) 2
             else mret []) m1 = Ok (down, m2)
            ∧ Jacobi2D.u_old m2 = Jacobi2D.u_old m
            ∧ rows ≤ Z.of_nat (length (Jacobi2D.buffer m2))
            ∧ ∀ i, 0 ≤ i < rows →
                cell (Jacobi2D.buffer m2) i =
                if rank >? 0 then cell2 (Jacobi2D.u_old m) i 1
                else cell (Jacobi2D.buffer m) i)
    as (down & m2 & H2 & Ho2 & Hb2 & Hv2).
  { destruct (rank >? 0).
    - destruct (fill_vector_spec BUFFER 1 rows (n + 2) (seqZ 0 rows) m1)
        as (m2 & Hrun & _ & Ho2 & _ & Hs2 & _ & Hlen & Hv);
        [by left|by rewrite Ho1|lia|
         apply Forall_seqZ; cbn [Jacobi2D.vector]; rewrite Hb1; lia|].
      cbn [Jacobi2D.vector] in Hlen, Hv.
      destruct (grid_MPI_Isend_Ok rank (rank - 1) 2 m2) as [data Hsend];
        [rewrite Hs2 by done; fold rows; lia|].
      exists [MPI.Message rank (rank - 1) 2 data], m2.
      rewrite (bind_Ok _ _ _ _ _ Hrun). split_and!; [done|congruence|rewrite Hlen, Hb1; lia|].
      intros i Hi. unfold cell. rewrite Hv, Ho1.
      by rewrite decide_True by (apply elem_of_seqZ; lia).
    - exists [], m1. split_and!; [done|done|rewrite Hb1; fold rows; lia|].
      intros i _. by rewrite Hb1. }
  rewrite (bind_Ok _ _ _ _ _ H2).
  (* the upper ghost row *)
  assert (∃ m3,
            when (rank <? num_procs - 1)
              (for_each (seqZ 0 rows) (λ i,
                 v ← Jacobi2D.load_vector BUFFER i;
                 Jacobi2D.store U_OLD i (n + 1) v)) m2 = Ok ((), m3)
            ∧ Jacobi2D.buffer m3 = Jacobi2D.buffer m2
            ∧ shaped (Jacobi2D.u_old m3) rows (n + 2)
            ∧ ∀ i j, lookup2 (Jacobi2D.u_old m3) i j =
                     if decide (rank < num_procs - 1 ∧ j = n + 1 ∧ 0 ≤ i < rows)
                     then Some (cell (Jacobi2D.buffer m2) i)
                     else lookup2 (Jacobi2D.u_old m) i j)
    as (m3 & H3 & Hb3 & Ho3 & Hv3).
  { unfold when. destruct (Z.ltb_spec rank (num_procs - 1)) as [Hlt|Hge].
    - destruct (fill_ghost_spec (n + 1) rows (n + 2) (seqZ 0 rows) m2)
        as (m3 & Hrun & _ & _ & Hb3 & _ & Hsh & Hv);
        [by rewrite Ho2|lia|apply Forall_seqZ; lia|].
      exists m3. split_and!; [done..|]. intros i j. rewrite Hv, Ho2.
      destruct (decide (j = n + 1 ∧ i ∈ seqZ 0 rows)) as [[-> Hi]|Hno].
      + apply elem_of_seqZ in Hi. by rewrite decide_True by lia.
      + rewrite decide_False; [done|]. intros (_ & -> & Hi). apply Hno.
        split; [done|]. apply elem_of_seqZ. lia.
    - exists m2. split_and!; [done|done|by rewrite Ho2|].
      intros i j. rewrite Ho2. by rewrite decide_False by lia. }
  rewrite (bind_Ok _ _ _ _ _ H3).
  (* the lower ghost row *)
  assert (∃ m4,
            when (rank >? 0)
              (for_each (seqZ 0 rows) (λ i,
                 v ← Jacobi2D.load_vector BUFFER i; Jacobi2D.store U_OLD i 0 v)) m3
            = Ok ((), m4)
            ∧ ∀ i j, lookup2 (Jacobi2D.u_old m4) i j =
                     if decide (0 < rank ∧ j = 0 ∧ 0 ≤ i < rows)
                     then Some (cell (Jacobi2D.buffer m2) i)
                     else lookup2 (Jacobi2D.u_old m3) i j)
    as (m4 & H4 & Hv4).
  { unfold when. destruct (Z.gtb_spec rank 0) as [Hgt|Hle].
    - destruct (fill_ghost_spec 0 rows (n + 2) (seqZ 0 rows) m3)
        as (m4 & Hrun & _ & _ & _ & _ & _ & Hv);
        [done|lia|apply Forall_seqZ; rewrite Hb3; lia|].
      exists m4. split; [done|]. intros i j. rewrite Hv, Hb3.
      destruct (decide (j = 0 ∧ i ∈ seqZ 0 rows)) as [[-> Hi]|Hno].
      + apply elem_of_seqZ in Hi. by rewrite decide_True by lia.
      + rewrite decide_False; [done|]. intros (_ & -> & Hi). apply Hno.
        split; [done|]. apply elem_of_seqZ. lia.
    - exists m3. split; [done|]. intros i j. by rewrite decide_False by lia. }
  rewrite (bind_Ok _ _ _ _ _ H4).
  exists (up ++ down), m4. split; [done|].
  intros i Hi. split; intros Hr; unfold cell2 at 1; rewrite Hv4.
  - rewrite decide_True by lia. cbn [default]. rewrite Hv2 by done.
    by destruct (Z.gtb_spec rank 0); [|lia].
  - rewrite decide_False by lia. rewrite Hv3, decide_True by lia. cbn [default].
    by apply Hv2.
Qed.
Lemma exchange_fills_ghost_rows_locally_witness :
  ∃ msgs m',
    Jacobi2D.exchange 2 1 sample_mem2_buffers = Ok (msgs, m')
    ∧ cell2 (Jacobi2D.u_old m') 3 0 = cell2 (Jacobi2D.u_old sample_mem2_buffers) 3 1.
Proof.
  destruct (exchange_fills_ghost_rows_locally 2 1 sample_mem2_buffers)
    as (msgs & m' & H & Hv).
  - exact sample_mem2_buffers_shaped.
  - vm_compute. discriminate.
  - vm_compute. discriminate.
  - vm_compute. discriminate.
  - exists msgs, m'. split; [exact H|].
    apply (Hv 3); [unfold Jacobi2D.num_points|]; lia.
Defined.

(** ** The 2D solver: the bottom boundary *)

Section boundary_2d.
Import Jacobi2D.

(** A loop that stores [val i] at [u[i][c]]. *)
Lemma store_column_spec (val : Z → float) c rows cols l : ∀ m,
  shaped (u m) rows cols → 0 ≤ c < cols → Forall (λ i, 0 ≤ i < rows) l →
  ∃ m', for_each l (λ i, store U i c (val i)) m = Ok ((), m')
        ∧ shaped (u m') rows cols ∧ f m' = f m
        ∧ ∀ i j, lookup2 (u m') i j =
                 if decide (j = c ∧ i ∈ l) then Some (val i) else lookup2 (u m) i j.
Proof.
  unfold for_each. induction l as [|i l IH]; intros m Hu Hc Hl.
  - exists m. split_and!; try done. intros i j.
    rewrite decide_False; [done|]. intros [_ Hin]. by apply not_elem_of_nil in Hin.
  - apply Forall_cons in Hl as [Hi Hl]. cbn [foreach]. cbn beta.
    pose proof (grid_store_Ok U i c (val i) m rows cols Hu Hi Hc) as Hstep.
    set (m1 := set_grid U (set2 (grid U m) i c (val i)) m) in Hstep.
    destruct (IH m1) as (m' & Hrun & Hsh & Hf & Hv).
    + cbn [m1 set_grid u grid]. by apply shaped_set2.
    + done.
    + done.
    + exists m'. split; [by rewrite (bind_Ok _ _ _ _ _ Hstep)|]. split_and!; try done.
      intros i' j. rewrite Hv. cbn [m1 set_grid u grid].
      destruct (decide (j = c ∧ i' ∈ l)) as [[-> Hin]|Hnin].
      * by rewrite decide_True by (split; [done|by right]).
      * destruct (decide (i = i' ∧ c = j)) as [[-> ->]|Hne].
        -- rewrite decide_True by (split; [done|left]).
           by apply (lookup2_set2_eq _ rows cols).
        -- rewrite decide_False.
           ++ apply lookup2_set2_ne. intros [= -> ->]. by apply Hne.
           ++ intros [-> Hin]. apply elem_of_cons in Hin as [->|Hin]; [by apply Hne|].
              by apply Hnin.
Qed.

(** The loop of lines 113-118 writes in the rows [0] and [num_points + 1]
    of [u] only. *)
Lemma sides_spec n cols m :
  shaped (u m) (num_points + 2) cols → n ≤ cols →
  ∃ m', for_each (range_excl 0 n)
          (λ j, store U 0 j 0%float;; store U (num_points + 1) j 0%float) m
        = Ok ((), m')
        ∧ shaped (u m') (num_points + 2) cols
        ∧ ∀ i j, 1 ≤ i ≤ num_points → lookup2 (u m') i j = lookup2 (u m) i j.
Proof.
  intros Hu Hn.
  apply (for_each_Ok_inv
           (λ t, shaped (u t) (num_points + 2) cols
                 ∧ ∀ i j, 1 ≤ i ≤ num_points → lookup2 (u t) i j = lookup2 (u m) i j));
    [|done].
  intros j t Hj [Hsh Hv]. apply elem_of_seqZ in Hj.
  pose proof (grid_store_Ok U 0 j 0%float t _ _ Hsh
                ltac:(unfold num_points; lia) ltac:(lia)) as H1.
  set (t1 := set_grid U (set2 (grid U t) 0 j 0) t) in H1.
  assert (shaped (u t1) (num_points + 2) cols) as Hsh1
    by (cbn [t1 set_grid u grid]; by apply shaped_set2).
  pose proof (grid_store_Ok U (num_points + 1) j 0%float t1 _ _ Hsh1
                ltac:(unfold num_points; lia) ltac:(lia)) as H2.
  rewrite (bind_Ok _ _ _ _ _ H1), H2.
  eexists. split; [done|]. cbn [set_grid u grid t1].
  split; [by do 2 apply shaped_set2|].
  intros i j' Hi. rewrite !lookup2_set2_ne by (intros [= ? ?]; lia). by apply Hv.
Qed.

End boundary_2d.

(** X15.  On grids of [num_points + 2] rows, the initialization of rank 0
    (of two or more processes) returns, and the bottom boundary it leaves at
    the interior columns is [u[i][0] = 2 sin (i)]: line 108 takes the index
    [i] itself for [x], not [dx * i] as line 93 does. *)
Theorem bottom_boundary_values (lm : libm) (num_procs : Z) (m : Jacobi2D.mem) :
  2 ≤ num_procs → Jacobi2D.num_points + num_procs ≤ Int32.int_max →
  Spec2D.grids_shaped num_procs 0 m →
  ∃ m', Jacobi2D.initialize lm num_procs 0 m = Ok ((), m')
        ∧ ∀ i, 1 ≤ i ≤ Jacobi2D.num_points →
               cell2 (Jacobi2D.u m') i 0 = (2.0 * sin lm (of_int i + Jacobi2D.a))%float.
Proof.
  intros HP Hfit (Hu & _ & Hf).
  pose proof (ceil_20 num_procs HP Hfit) as Hc.
  assert (Jacobi2D.rank_num_points num_procs 0
          = ceil_div Jacobi2D.num_points num_procs) as H0.
  { rewrite rank_num_points_eq by lia. unfold Jacobi2D.num_points in *. lia. }
  set (n := Jacobi2D.rank_num_points num_procs 0) in *.
  unfold Jacobi2D.initialize. fold n.
  destruct (init_rows lm num_procs 0 (Jacobi2D.num_points + 2) (n + 2)
              (Jacobi2D.num_points + 2) m ltac:(unfold Jacobi2D.num_points; lia)
              ltac:(fold n; lia) Hu Hf) as (m1 & Hrun1 & Hu1 & _).
  fold n in Hrun1. unfold range_excl at 1. rewrite Z.sub_0_r.
  rewrite (bind_Ok _ _ _ _ _ Hrun1).
  change (0 =? 0) with true. destruct (Z.eqb_spec 0 (num_procs - 1)) as [|_]; [lia|].
  unfold when. cbv iota.
  destruct (store_column_spec (λ i, (2.0 * sin lm (of_int i + Jacobi2D.a))%float) 0
              (Jacobi2D.num_points + 2) (n + 2) (range_excl 0 (Jacobi2D.num_points + 2)) m1
              Hu1 ltac:(lia)) as (m2 & Hrun2 & Hu2 & _ & Hv2).
  { eapply Forall_impl; [apply Forall_range_excl|]. cbn beta. lia. }
  rewrite (bind_Ok _ _ _ _ _ Hrun2).
  destruct (sides_spec (n + 1) (n + 2) m2 Hu2 ltac:(lia)) as (m3 & Hrun3 & Hu3 & Hv3).
  rewrite (bind_Ok _ _ _ _ _ Hrun3).
  exists m3. split; [done|]. intros i Hi. unfold cell2. rewrite Hv3, Hv2 by done.
  rewrite decide_True; [done|]. split; [done|]. apply elem_of_seqZ. lia.
Qed.
Lemma bottom_boundary_values_witness :
  ∃ m', Jacobi2D.initialize sample_libm 2 0 sample_mem2 = Ok ((), m')
        ∧ cell2 (Jacobi2D.u m') 1 0 = (2.0 * sin sample_libm (of_int 1 + Jacobi2D.a))%float.
Proof.
  destruct (bottom_boundary_values sample_libm 2 sample_mem2) as (m' & H & Hv).
  - lia.
  - unfold Jacobi2D.num_points, Int32.int_max. lia.
  - exact sample_mem2_shaped.
  - exists m'. split; [exact H|]. apply Hv. unfold Jacobi2D.num_points. lia.
Defined.

(** * The solvers on the memory they allocate *)

(** ** Sweeps of the 1D solver on arrays of the allocated size *)

Lemma on_ranks_keeps {Mem A} (I : Mem → Prop) (step : Z → M Mem A) rank w xs w' :
  (∀ (k : nat) m x m', w !! k = Some m → I m →
     step (rank + Z.of_nat k) m = Ok (x, m') → I m') →
  Forall I w → on_ranks step rank w = Ok (xs, w') → Forall I w'.
Proof.
  intros Hstep Hw H. apply on_ranks_inv in H as (Hl1 & Hl2 & Hk).
  apply Forall_lookup. intros k m' Hm'.
  destruct (lookup_lt_is_Some_2 w k) as [m Hm].
  { rewrite <- Hl2. by apply lookup_lt_Some in Hm'. }
  destruct (Hk k m Hm) as (x & m'' & Hs & _ & Hm'').
  assert (m'' = m') as -> by congruence.
  apply (Hstep k m x m' Hm); [|done].
  by apply (proj1 (Forall_lookup _ _) Hw k).
Qed.

(** The all-reduce over the changes of one or more processes returns their
    maximum. *)
Lemma Allreduce_MAX_Ok {W} (locals : list float) (w : W) :
  locals ≠ [] → Forall is_change locals →
  ∃ g, MPI.Allreduce_MAX locals w = Ok (g, w)
       ∧ g ∈ locals ∧ ∀ d, d ∈ locals → fle d g.
Proof.
  intros Hne Hall. destruct locals as [|x xs]; [done|].
  exists (fold_left MPI.MAX xs x). split; [done|].
  by destruct (fold_MPI_MAX_spec xs x Hall) as (_ & ? & ?).
Qed.

Section sweep_allocated.
Import Jacobi1D.
Context (lm : libm) (num_points num_procs : Z).
Context (HN : 1 ≤ num_points) (HP : 1 ≤ num_procs).
Context (Hfit : num_points + num_procs ≤ Int32.int_max).
Abbreviation allocated := (Spec1D.allocated num_points num_procs).

Lemma apply_jacobi_allocated m :
  allocated m →
  ∃ du m', apply_jacobi lm num_points num_procs m = Ok (du, m')
           ∧ allocated m' ∧ is_change du.
Proof.
  intros Ha.
  assert (apply_jacobi lm num_points num_procs m =
          Ok (fold_left fmax
                (Spec1D.change lm num_points (u_old m) (f m)
                   <$> range_excl 1 (points_per_proc num_points num_procs + 1)) 0%float,
              Mem (bulk (Spec1D.relaxed lm num_points (u_old m) (f m))
                     (range_excl 1 (points_per_proc num_points num_procs + 1)) (u m))
                  (u_old m) (f m))) as H.
  { unfold apply_jacobi. apply (apply_jacobi_in_allocated lm num_points num_procs); [done|].
    eapply Forall_impl; [apply Forall_range_excl|]. cbn beta. lia. }
  eexists _, _. split; [exact H|]. split.
  - destruct Ha as (Hu & Ho & Hf). split_and!; cbn [u u_old f]; try done.
    by rewrite length_bulk.
  - unfold apply_jacobi in H. by apply apply_jacobi_in_du in H.
Qed.

Lemma kernels_allocated w :
  Forall allocated w →
  ∃ du_max_procs w',
    on_ranks (λ _, apply_jacobi lm num_points num_procs) 0 w = Ok (du_max_procs, w')
    ∧ length du_max_procs = length w
    ∧ Forall allocated w' ∧ Forall is_change du_max_procs.
Proof.
  intros Hw.
  destruct (on_ranks_total (λ _ : Z, apply_jacobi lm num_points num_procs) 0 w)
    as (locals & w' & H).
  { intros k m Hm.
    destruct (apply_jacobi_allocated m) as (du & m' & Hk & _).
    - by apply (proj1 (Forall_lookup _ _) Hw k).
    - by exists du, m'. }
  exists locals, w'. split; [done|].
  pose proof (on_ranks_inv _ _ _ _ _ H) as (Hl1 & _ & _).
  split_and!; [done| |].
  - eapply on_ranks_keeps; [|exact Hw|exact H].
    intros k m x m' _ Ha Hs. cbn beta in Hs.
    destruct (apply_jacobi_allocated m Ha) as (du & m'' & Hk & Ha' & _). congruence.
  - eapply on_ranks_Forall; [|exact H]. intros r m d m' Hx.
    unfold apply_jacobi in Hx. by apply apply_jacobi_in_du in Hx.
Qed.

(** The kernels of all processes, then the all-reduce. *)
Lemma global_change_allocated w :
  w ≠ [] → Forall allocated w →
  ∃ du_max_procs g w',
    on_ranks (λ _, apply_jacobi lm num_points num_procs) 0 w = Ok (du_max_procs, w')
    ∧ length du_max_procs = length w
    ∧ MPI.Allreduce_MAX du_max_procs w' = Ok (g, w')
    ∧ g ∈ du_max_procs
    ∧ (∀ d, d ∈ du_max_procs → (d <=? g)%float = true)
    ∧ Forall allocated w'.
Proof.
  intros Hne Hw.
  destruct (kernels_allocated w Hw) as (locals & w' & Hk & Hlen & Hw' & Hch).
  destruct (Allreduce_MAX_Ok locals w') as (g & Hg & Hin & Hle); [|done|].
  { intros ->. destruct w; [done|discriminate Hlen]. }
  by exists locals, g, w'.
Qed.

Lemma copies_allocated w :
  Forall allocated w →
  ∃ xs w1, on_ranks (λ _, copy_u num_points num_procs) 0 w = Ok (xs, w1)
           ∧ Forall allocated w1.
Proof.
  intros Hw.
  destruct (on_ranks_total (λ _ : Z, copy_u num_points num_procs) 0 w) as (xs & w1 & H).
  { intros k m Hm. eexists _, _. apply copy_u_Ok.
    by apply (proj1 (Forall_lookup _ _) Hw k). }
  exists xs, w1. split; [done|].
  eapply on_ranks_keeps; [|exact Hw|exact H].
  intros k m x m' _ Ha Hs. cbn beta in Hs.
  rewrite (copy_u_Ok num_points num_procs m Ha) in Hs. injection Hs as _ <-.
  destruct Ha as (Hu & Ho & Hf). by split_and!.
Qed.

Lemma halo_exchange_allocated w x w' :
  Z.of_nat (length w) = num_procs → Forall allocated w →
  halo_exchange num_points num_procs w = Ok (x, w') → Forall allocated w'.
Proof.
  intros Hlen Hw H. unfold halo_exchange in H.
  apply bind_inv in H as (posted & w1 & Hp & H).
  apply bind_inv in H as (received & w2 & Hr & H).
  apply mret_inv in H as [_ ->].
  pose proof (on_ranks_inv _ _ _ _ _ Hp) as (_ & Hl1 & _).
  assert (Forall allocated w1) as Hw1.
  { eapply on_ranks_keeps; [|exact Hw|exact Hp].
    intros k m y m' _ Ha Hs. by apply post_sends_inv in Hs as ->. }
  eapply on_ranks_keeps; [|exact Hw1|exact Hr].
  intros k m y m' Hm Ha Hs. apply lookup_lt_Some in Hm.
  apply receive_interior_kept in Hs as (Hu & Hf & Hl & _); [|done..|lia].
  destruct Ha as (Hau & Hao & Haf). unfold Spec1D.allocated.
  by rewrite Hu, Hf, Hl.
Qed.

(** A sweep returns as soon as its halo exchange does. *)
Lemma sweep_allocated_after_exchange w xs w1 x w2 :
  Z.of_nat (length w) = num_procs → Forall allocated w →
  on_ranks (λ _, copy_u num_points num_procs) 0 w = Ok (xs, w1) →
  halo_exchange num_points num_procs w1 = Ok (x, w2) →
  ∃ g w', sweep lm num_points num_procs w = Ok (g, w') ∧ Forall allocated w'.
Proof.
  intros Hlen Hw Hc Hx.
  destruct (copies_allocated w Hw) as (xs' & w1' & Hc' & Hw1).
  assert (w1' = w1) as -> by congruence.
  pose proof (on_ranks_inv _ _ _ _ _ Hc) as (_ & Hl1 & _).
  assert (Forall allocated w2) as Hw2.
  { apply (halo_exchange_allocated w1 x w2); [lia|done|done]. }
  assert (w2 ≠ []) as Hne.
  { unfold halo_exchange in Hx.
    apply bind_inv in Hx as (posted & w3 & Hp & Hx).
    apply bind_inv in Hx as (received & w4 & Hr & Hx).
    apply mret_inv in Hx as [_ ->].
    apply on_ranks_inv in Hp as (_ & Hl2 & _).
    apply on_ranks_inv in Hr as (_ & Hl3 & _).
    intros ->. cbn [length] in Hl3. lia. }
  destruct (global_change_allocated w2 Hne Hw2)
    as (locals & g & w' & Hk & _ & Hg & _ & _ & Hw').
  exists g, w'. split; [|done]. unfold sweep.
  rewrite (bind_Ok _ _ _ _ _ Hc), (bind_Ok _ _ _ _ _ Hx), (bind_Ok _ _ _ _ _ Hk). done.
Qed.

(** No process of a sweep waits for a message. *)
Lemma sweep_allocated_in_bounds w :
  Z.of_nat (length w) = num_procs → Forall allocated w →
  in_bounds_or_fault (sweep lm num_points num_procs w).
Proof.
  intros Hlen Hw.
  destruct (copies_allocated w Hw) as (xs & w1 & Hc & Hw1).
  pose proof (on_ranks_inv _ _ _ _ _ Hc) as (_ & Hl1 & _).
  destruct (halo_exchange_in_bounds num_points num_procs w1 ltac:(lia))
    as [[[x w2] Hx]|(a & i & Hx)].
  - destruct (sweep_allocated_after_exchange w xs w1 x w2 Hlen Hw Hc Hx)
      as (g & w' & Hs & _).
    left. by eexists.
  - right. exists a, i. unfold sweep.
    rewrite (bind_Ok _ _ _ _ _ Hc). by rewrite (bind_fault _ _ _ _ Hx).
Qed.

End sweep_allocated.

(** With one or two processes every access of the exchange is within the
    allocated arrays, and a sweep returns. *)
Lemma sweep_allocated_two (lm : libm) (num_points num_procs : Z) (w : list Jacobi1D.mem) :
  1 ≤ num_points → 1 ≤ num_procs ≤ 2 → num_points + num_procs ≤ Int32.int_max →
  Z.of_nat (length w) = num_procs →
  Forall (Spec1D.allocated num_points num_procs) w →
  ∃ g w', Jacobi1D.sweep lm num_points num_procs w = Ok (g, w')
          ∧ Forall (Spec1D.allocated num_points num_procs) w'.
Proof.
  intros HN HP Hfit Hlen Hw.
  destruct (copies_allocated num_points num_procs w Hw) as (xs & w1 & Hc & Hw1).
  pose proof (on_ranks_inv _ _ _ _ _ Hc) as (_ & Hl1 & _).
  assert (∃ x w2, Jacobi1D.halo_exchange num_points num_procs w1 = Ok (x, w2))
    as (x & w2 & Hx).
  { assert (num_procs = 1 ∨ num_procs = 2) as [->| ->] by lia.
    - destruct w1 as [|m0 [|? ?]]; cbn [length] in Hl1; try lia.
      eexists _, _. apply exchange_single.
    - destruct w1 as [|m0 [|m1 [|? ?]]]; cbn [length] in Hl1; try lia.
      inversion_clear Hw1 as [|?? Ha0 Hw1']. inversion_clear Hw1' as [|?? Ha1 _].
      eexists _, _. by apply halo_exchange_two_Ok. }
  apply (sweep_allocated_after_exchange lm num_points num_procs ltac:(lia) ltac:(lia)
           ltac:(lia) w xs w1 x w2); done.
Qed.

(** ** The 2D solver on the grids as they are allocated *)

Lemma foreach_app {S A} (l1 l2 : list Z) (body : Z → A → M S A) acc s :
  foreach (l1 ++ l2) body acc s = (acc' ← foreach l1 body acc; foreach l2 body acc') s.
Proof.
  revert acc s. induction l1 as [|i l1 IH]; intros acc s; cbn [foreach app]; [done|].
  unfold mbind, M_bind. destruct (body i acc s) as [[acc' s']|e]; [|done].
  apply IH.
Qed.

Lemma allocate_allocated_2d (num_procs rank : Z) garbage undeclared :
  0 ≤ Jacobi2D.rank_num_points num_procs rank + 2 →
  Spec2D.allocated num_procs rank (Jacobi2D.allocate num_procs rank garbage undeclared).
Proof.
  intros Hn. unfold Spec2D.allocated, Jacobi2D.allocate.
  cbn [Jacobi2D.u Jacobi2D.u_old Jacobi2D.f]. split_and!; by apply shaped_new_grid.
Qed.

Section grids_2d.
Import Jacobi2D.
Context (lm : libm) (rows cols : Z).

(** A relaxation step at a point whose four neighbours the grids have. *)
Lemma relax_point_in_grid uc uo ff bf sb i j acc :
  shaped uc rows cols → shaped uo rows cols → shaped ff rows cols →
  1 ≤ i ≤ rows - 2 → 1 ≤ j ≤ cols - 2 →
  relax_point lm i j acc (Mem uc uo ff bf sb) =
  Ok (fmax acc (Spec2D.change lm uo ff i j),
      Mem (set2 uc i j (Spec2D.relaxed lm uo ff i j)) uo ff bf sb).
Proof.
  intros Hu Ho Hf Hi Hj. unfold relax_point.
  erewrite bind_Ok by (apply (grid_load_Ok U_OLD _ _ _ rows cols); simpl; [done|lia..]).
  erewrite bind_Ok by (apply (grid_load_Ok U_OLD _ _ _ rows cols); simpl; [done|lia..]).
  erewrite bind_Ok by (apply (grid_load_Ok U_OLD _ _ _ rows cols); simpl; [done|lia..]).
  erewrite bind_Ok by (apply (grid_load_Ok U_OLD _ _ _ rows cols); simpl; [done|lia..]).
  erewrite bind_Ok by (apply (grid_load_Ok F _ _ _ rows cols); simpl; [done|lia..]).
  erewrite bind_Ok by (apply (grid_store_Ok U _ _ _ _ rows cols); simpl; [done|lia..]).
  simpl.
  erewrite bind_Ok by (apply (grid_load_Ok U _ _ _ rows cols); simpl;
                       [by apply shaped_set2|lia..]).
  erewrite bind_Ok by (apply (grid_load_Ok U_OLD _ _ _ rows cols); simpl; [done|lia..]).
  simpl. unfold Spec2D.change, Spec2D.relaxed, mret, M_ret. do 3 f_equal.
  unfold cell2 at 1. by rewrite (lookup2_set2_eq _ rows cols) by (done || lia).
Qed.

Lemma foreach2_relax_in_grid ps uc uo ff bf sb acc :
  shaped uc rows cols → shaped uo rows cols → shaped ff rows cols →
  Forall (λ p, 1 ≤ p.1 ≤ rows - 2 ∧ 1 ≤ p.2 ≤ cols - 2) ps →
  foreach2 ps (relax_point lm) acc (Mem uc uo ff bf sb) =
  Ok (fold_left fmax ((λ p, Spec2D.change lm uo ff p.1 p.2) <$> ps) acc,
      Mem (Spec2D.updates lm uo ff ps uc) uo ff bf sb).
Proof.
  intros Hu Ho Hf Hps. revert uc acc Hu.
  induction Hps as [|[i j] ps [Hi Hj] Hps IH]; intros uc acc Hu; simpl; [done|].
  rewrite (bind_Ok _ _ _ _ _ (relax_point_in_grid uc uo ff bf sb i j acc Hu Ho Hf Hi Hj)).
  apply IH. by apply shaped_set2.
Qed.

End grids_2d.

Section frames_2d_steps.
Import Jacobi2D.
Context (lm : libm).


End frames_2d_steps.

Section allocated_2d.
Import Jacobi2D.
Context (lm : libm) (num_procs rank : Z).
Context (HP : 2 ≤ num_procs) (Hfit : num_points + num_procs ≤ Int32.int_max).
Context (Hrank : 0 ≤ rank < num_procs).
Abbreviation own := (rank_num_points num_procs rank).

Lemma rank_num_points_le : own ≤ 10.
Proof.
  pose proof (ceil_20 num_procs HP Hfit) as Hc.
  rewrite rank_num_points_eq by done. unfold num_points in *. nia.
Qed.

(** The kernel relaxes the rows the grids have and leaves them at the
    first point of the next row, whose east neighbour is beyond the last
    row. *)
Lemma apply_jacobi_allocated_fault m :
  1 ≤ own → Spec2D.allocated num_procs rank m →
  apply_jacobi lm num_procs rank m = Fault (OutOfBounds U_OLD (own + 2)).
Proof.
  intros Hown (Hu & Ho & Hf). pose proof rank_num_points_le as Hle.
  destruct m as [uc uo ff bf sb]. cbn [u u_old f] in *.
  unfold apply_jacobi, range_excl.
  replace (num_points + 1 - 1) with (own + (num_points - own)) by lia.
  rewrite seqZ_app by (unfold num_points; lia).
  rewrite foreach_app.
  erewrite bind_Ok.
  2:{ rewrite foreach_nested.
      apply (foreach2_relax_in_grid lm (own + 2) (own + 2)); try done.
      apply Forall_forall. intros [i j] Hin. apply elem_of_pairs in Hin as [Hi Hj].
      apply elem_of_seqZ in Hi, Hj. simpl. lia. }
  rewrite seqZ_cons by (unfold num_points; lia). cbn [foreach]. apply bind_fault.
  replace (own + 1 - 1) with own by lia.
  rewrite seqZ_cons by lia. cbn [foreach]. apply bind_fault.
  unfold relax_point.
  erewrite bind_Ok by (apply (grid_load_Ok U_OLD _ _ _ (own + 2) (own + 2)); simpl;
                       [done|lia..]).
  apply bind_fault. unfold load. cbn [grid u_old].
  replace (1 + own + 1) with (own + 2) by lia.
  by rewrite (proj2 (lookupZ_None uo (own + 2))) by (destruct Ho as [-> _]; lia).
Qed.


End allocated_2d.

(** * The processes one by one *)

(** ** The loop variables of the processes kept apart *)

Lemma on_ranks_ext {Mem A} (f g : Z → M Mem A) rank w :
  (∀ (k : nat) m, w !! k = Some m → f (rank + Z.of_nat k) m = g (rank + Z.of_nat k) m) →
  on_ranks f rank w = on_ranks g rank w.
Proof.
  revert rank. induction w as [|m w IH]; intros rank H; [done|].
  cbn [on_ranks]. pose proof (H 0%nat m eq_refl) as H0. rewrite Z.add_0_r in H0.
  rewrite H0. destruct (g rank m) as [[x m']|e]; cbn [mbind result_bind]; [|done].
  rewrite (IH (rank + 1)); [done|].
  intros k m0 Hk. replace (rank + 1 + Z.of_nat k) with (rank + Z.of_nat (S k)) by lia.
  by apply H.
Qed.

Lemma find_none_all {A} (p : A → bool) (l : list A) :
  (∀ x, x ∈ l → p x = false) → List.find p l = None.
Proof.
  induction l as [|x l IH]; intros H; [done|]. cbn [List.find].
  rewrite (H x) by left. apply IH. intros y Hy. apply H. by right.
Qed.

Lemma zip_with_ext_elem {A B C} (f g : A → B → C) (l : list A) (k : list B) :
  (∀ x y, x ∈ l → f x y = g x y) → zip_with f l k = zip_with g l k.
Proof.
  revert k. induction l as [|x l IH]; intros k H; [done|].
  destruct k as [|y k]; [done|]. cbn [zip_with]. f_equal.
  - apply H. left.
  - apply IH. intros x' y' Hx'. apply H. by right.
Qed.

Lemma foldr_max_const (c : Z) (l : list Z) :
  l ≠ [] → foldr Z.max 0 ((λ _, c) <$> l) = Z.max c 0.
Proof.
  induction l as [|x l IH]; [done|]. intros _. cbn [fmap list_fmap foldr].
  destruct l as [|y l]; [done|]. fold (fmap (M := list) (λ _ : Z, c) (y :: l)).
  rewrite IH by done. lia.
Qed.

Lemma sweep_length (lm : libm) (num_points num_procs : Z) (w : list Jacobi1D.mem) g w' :
  Jacobi1D.sweep lm num_points num_procs w = Ok (g, w') → length w' = length w.
Proof.
  unfold Jacobi1D.sweep, Jacobi1D.halo_exchange. intros H.
  apply bind_inv in H as (? & w1 & H1 & H).
  apply bind_inv in H as (? & w2 & H2 & H).
  apply bind_inv in H as (locals & w3 & H3 & H).
  apply bind_inv in H2 as (? & w4 & H4 & H2).
  apply bind_inv in H2 as (? & w5 & H5 & H2).
  apply mret_inv in H2 as [_ ->].
  apply on_ranks_inv in H1 as (_ & ? & _). apply on_ranks_inv in H3 as (_ & ? & _).
  apply on_ranks_inv in H4 as (_ & ? & _). apply on_ranks_inv in H5 as (_ & ? & _).
  unfold MPI.Allreduce_MAX in H. destruct locals; [done|]. injection H as _ <-.
  congruence.
Qed.

Section one_counter.
Import Jacobi1D PerProcess.
Context (lm : libm) (num_points num_procs : Z) (HP : 1 ≤ num_procs).
Abbreviation together := (in_step num_procs).
Abbreviation tol := (tolerance lm num_points).

Lemma length_in_step st b : Z.of_nat (length (together st b)) = num_procs.
Proof. unfold in_step. rewrite length_fmap, length_seqZ. lia. Qed.

Lemma process_of_in_step st b rank :
  0 ≤ rank < num_procs →
  process_of (together st b) rank
  = Process (Driver.LoopState (Driver.N st) (Driver.du_max st)
               (if rank =? 0 then Driver.progress st else [])) b.
Proof.
  intros Hr. unfold process_of, lookupZ, in_step.
  rewrite (proj2 (Z.leb_le 0 rank)) by lia.
  rewrite list_lookup_fmap, lookup_seqZ_lt by lia. cbn [fmap option_fmap option_map default].
  rewrite Z.add_0_l, Z2Nat.id by lia. done.
Qed.

Lemma enters_in_step st b rank :
  0 ≤ rank < num_procs →
  enters (together st b) rank = b && (Driver.N st <? MAX_ITERATIONS).
Proof. intros Hr. unfold enters. by rewrite process_of_in_step. Qed.

Lemma sweep_of_all active w :
  (∀ k : nat, (k < length w)%nat → active (Z.of_nat k) = true) →
  PerProcess.sweep lm num_points num_procs active w = Jacobi1D.sweep lm num_points num_procs w.
Proof.
  intros Hact.
  assert (∀ {A} (step : Z → M mem A) idle (w0 : list mem),
            length w0 = length w →
            on_ranks (among active step idle) 0 w0 = on_ranks step 0 w0) as Hall.
  { intros A step idle w0 Hl. apply on_ranks_ext. intros k m Hm.
    unfold among. rewrite Z.add_0_l, Hact; [done|].
    rewrite <- Hl. by apply lookup_lt_Some in Hm. }
  unfold PerProcess.sweep, Jacobi1D.sweep, PerProcess.halo_exchange, Jacobi1D.halo_exchange.
  unfold mbind, M_bind. rewrite Hall by done.
  destruct (on_ranks (λ _ : Z, copy_u num_points num_procs) 0 w) as [[xs w1]|e] eqn:H1;
    [|done].
  pose proof (on_ranks_inv _ _ _ _ _ H1) as (_ & Hl1 & _).
  rewrite Hall by done.
  destruct (on_ranks (post_sends num_points num_procs) 0 w1) as [[posted w2]|e] eqn:H2;
    [|done].
  pose proof (on_ranks_inv _ _ _ _ _ H2) as (_ & Hl2 & _).
  rewrite Hall by congruence.
  destruct (on_ranks (receive num_points num_procs (concat posted)) 0 w2)
    as [[received w3]|e] eqn:H3; [|done].
  pose proof (on_ranks_inv _ _ _ _ _ H3) as (_ & Hl3 & _).
  cbn [mret M_ret]. rewrite Hall by congruence.
  destruct (on_ranks (λ _ : Z, apply_jacobi lm num_points num_procs) 0 w3)
    as [[locals w4]|e] eqn:H4; [|done].
  pose proof (on_ranks_inv _ _ _ _ _ H4) as (_ & Hl4 & _).
  unfold MPI_Allreduce. rewrite find_none_all; [done|].
  intros rank Hin. apply elem_of_seqZ in Hin.
  replace rank with (Z.of_nat (Z.to_nat rank)) by lia. rewrite Hact; [done|]. lia.
Qed.

(** One pass of processes in step is a pass of the loop of [Driver]. *)
Lemma round_in_step st w :
  Z.of_nat (length w) = num_procs → Driver.N st < MAX_ITERATIONS →
  round lm num_points num_procs (together st true) w
  = match Driver.iteration PRINT_INTERVAL tol (Jacobi1D.sweep lm num_points num_procs) st w with
    | Ok ((continue, st'), w') => Ok (together st' continue, w')
    | Fault e => Fault e
    end.
Proof.
  intros Hlen Hlt. unfold round, Driver.iteration, mbind, M_bind.
  rewrite sweep_of_all.
  2:{ intros k Hk. rewrite enters_in_step by lia.
      by rewrite (proj2 (Z.ltb_lt _ _) Hlt). }
  destruct (Jacobi1D.sweep lm num_points num_procs w) as [[d w']|e]; [|done].
  assert (∀ c n,
            (∀ rank, 0 ≤ rank < num_procs →
               after_sweep lm num_points rank d
                 (Driver.LoopState (Driver.N st) (Driver.du_max st)
                    (if rank =? 0 then Driver.progress st else []))
               = Process (Driver.LoopState n d
                            (if rank =? 0
                             then if Driver.N st `rem` PRINT_INTERVAL =? 0
                                  then Driver.progress st ++ [Progress (Driver.N st) d]
                                  else Driver.progress st
                             else [])) c) →
            (λ rank, if enters (together st true) rank
                     then after_sweep lm num_points rank d
                            (vars (process_of (together st true) rank))
                     else Process (vars (process_of (together st true) rank)) false)
              <$> seqZ 0 (Z.of_nat (length (together st true)))
            = together
                (Driver.LoopState n d
                   (if Driver.N st `rem` PRINT_INTERVAL =? 0
                    then Driver.progress st ++ [Progress (Driver.N st) d]
                    else Driver.progress st)) c) as Heq.
  { intros c n H. rewrite length_in_step. unfold in_step at 4.
    apply Forall_fmap_ext, Forall_forall. intros rank Hr. apply elem_of_seqZ in Hr.
    cbn [Driver.N Driver.du_max Driver.progress].
    rewrite enters_in_step, process_of_in_step by lia.
    rewrite (proj2 (Z.ltb_lt _ _) Hlt). apply H. lia. }
  unfold mret, M_ret.
  destruct (d <? tol)%float eqn:Hd; do 2 f_equal; apply Heq;
    intros rank Hr; unfold after_sweep; rewrite Hd;
    cbn [Driver.N Driver.du_max Driver.progress];
    by destruct (rank =? 0), (Driver.N st `rem` PRINT_INTERVAL =? 0).
Qed.

(** Processes that have all left the loop make no further pass. *)
Lemma rounds_left fuel st w :
  rounds lm num_points num_procs fuel (together st false) w = Ok (together st false, w).
Proof.
  destruct fuel as [|fuel]; [done|]. cbn [rounds].
  destruct (existsb _ _) eqn:He; [|done].
  apply existsb_exists in He as (rank & Hin & He).
  apply list_elem_of_In, elem_of_seqZ in Hin. rewrite length_in_step in Hin.
  by rewrite enters_in_step in He by lia.
Qed.

Lemma rounds_in_step fuel : ∀ st w,
  Z.of_nat (length w) = num_procs →
  match Driver.while_loop MAX_ITERATIONS PRINT_INTERVAL tol
          (Jacobi1D.sweep lm num_points num_procs) fuel st w with
  | Ok (st', w') =>
      length w' = length w
      ∧ ∃ b, rounds lm num_points num_procs fuel (together st true) w
             = Ok (together st' b, w')
  | Fault e => rounds lm num_points num_procs fuel (together st true) w = Fault e
  end.
Proof.
  induction fuel as [|fuel IH]; intros st w Hlen.
  { cbn [Driver.while_loop rounds mret M_ret]. split; [done|]. by exists true. }
  cbn [Driver.while_loop rounds].
  destruct (Z.ltb_spec (Driver.N st) MAX_ITERATIONS) as [Hlt|Hge].
  - assert (existsb (enters (together st true))
              (seqZ 0 (Z.of_nat (length (together st true)))) = true) as ->.
    { apply existsb_exists. exists 0. split.
      - apply list_elem_of_In, elem_of_seqZ. rewrite length_in_step. lia.
      - rewrite enters_in_step by lia. by rewrite (proj2 (Z.ltb_lt _ _) Hlt). }
    assert ((round lm num_points num_procs (together st true)
             ≫= λ ps', rounds lm num_points num_procs fuel ps') w
            = match Driver.iteration PRINT_INTERVAL tol
                      (Jacobi1D.sweep lm num_points num_procs) st w with
              | Ok ((continue, st'), w') =>
                  rounds lm num_points num_procs fuel (together st' continue) w'
              | Fault e => Fault e
              end) as ->.
    { unfold mbind, M_bind. rewrite round_in_step by done.
      by destruct (Driver.iteration _ _ _ st w) as [[[? ?] ?]|]. }
    unfold mbind, M_bind.
    destruct (Driver.iteration _ _ _ st w) as [[[continue st1] w1]|e] eqn:Hit; [|done].
    assert (length w1 = length w) as Hl1.
    { unfold Driver.iteration in Hit. apply bind_inv in Hit as (d & w2 & Hs & Hit).
      apply sweep_length in Hs.
      destruct (d <? tol)%float; apply mret_inv in Hit as [_ ->]; done. }
    destruct continue.
    + specialize (IH st1 w1 ltac:(lia)).
      destruct (Driver.while_loop _ _ _ _ fuel st1 w1) as [[st' w']|e]; [|done].
      destruct IH as [Hl' Hb]. split; [congruence|done].
    + cbn [mret M_ret]. split; [done|]. exists false. apply rounds_left.
  - assert (existsb (enters (together st true))
              (seqZ 0 (Z.of_nat (length (together st true)))) = false) as ->.
    { destruct (existsb _ _) eqn:He; [|done].
      apply existsb_exists in He as (rank & Hin & He).
      apply list_elem_of_In, elem_of_seqZ in Hin. rewrite length_in_step in Hin.
      rewrite enters_in_step in He by lia.
      by rewrite (proj2 (Z.ltb_ge _ _) Hge) in He. }
    cbn [mret M_ret]. split; [done|]. by exists true.
Qed.

(** When all processes find the same value in their [N] and their
    [du_max], the run is the one in which they share the loop state. *)
Lemma main_one_counter (N0 : Z) (du_max0 : float)
    (garbage : Z → array_name → Z → float) :
  PerProcess.main lm num_points num_procs (λ _, N0) (λ _, du_max0) garbage
  = Jacobi1D.main lm num_points num_procs N0 du_max0 garbage.
Proof.
  unfold PerProcess.main, Jacobi1D.main. cbv zeta.
  destruct (on_ranks (initialize lm num_points num_procs) 0 _) as [[xs w]|e] eqn:Hi;
    cbn [mbind result_bind]; [|done].
  apply on_ranks_inv in Hi as (_ & Hlen & _).
  rewrite length_fmap, length_seqZ in Hlen.
  assert (start num_procs (λ _, N0) (λ _, du_max0)
          = together (Driver.LoopState N0 du_max0 []) true) as ->.
  { unfold start, in_step. apply Forall_fmap_ext, Forall_forall.
    intros rank _. cbn [Driver.N Driver.du_max Driver.progress].
    by destruct (rank =? 0). }
  assert (passes num_procs (λ _, N0) = Z.to_nat (MAX_ITERATIONS - N0)) as ->.
  { unfold passes. rewrite foldr_max_const; [lia|].
    intros H. apply (f_equal length) in H. rewrite length_seqZ in H.
    cbn [length] in H. lia. }
  unfold Driver.solve, Driver.jacobi_iterations, mbind, M_bind, result_bind.
  pose proof (rounds_in_step (Z.to_nat (MAX_ITERATIONS - N0))
                (Driver.LoopState N0 du_max0 []) w ltac:(lia)) as Hloop.
  destruct (Driver.while_loop _ _ _ _ _ _ w) as [[st w']|e]; [|by rewrite Hloop].
  destruct Hloop as (Hl' & b & ->).
  rewrite (on_ranks_ext _ (Driver.conclude MAX_ITERATIONS tol true
                             (write_output num_points num_procs) st) 0 w').
  2:{ intros k m Hm. apply lookup_lt_Some in Hm. rewrite Z.add_0_l.
      rewrite process_of_in_step by lia. by destruct st. }
  destruct (on_ranks _ 0 w') as [[outs w'']|e]; [|done]. unfold mret, M_ret.
  f_equal. rewrite (seqZ_cons 0 num_procs) by lia.
  destruct outs as [|o outs]; [done|]. cbn [Driver.with_progress zip_with]. f_equal.
  - rewrite process_of_in_step by lia. done.
  - apply zip_with_ext_elem. intros rank o' Hr. apply elem_of_seqZ in Hr.
    rewrite process_of_in_step by lia. cbn [vars Driver.progress].
    destruct (Z.eqb_spec rank 0); [lia|done].
Qed.

End one_counter.

Section rounds_exit.
Import Jacobi1D PerProcess.
Context (lm : libm) (num_points num_procs : Z).

Lemma enters_in_range ps rank :
  enters ps rank = true → 0 ≤ rank < Z.of_nat (length ps).
Proof.
  unfold enters, process_of. destruct (lookupZ ps rank) as [p|] eqn:H; [|done].
  intros _. apply lookupZ_Some in H as [? H]. apply lookup_lt_Some in H. lia.
Qed.

(** A process in the loop after a pass was in it before, and has counted
    the pass. *)
Lemma round_counts ps w ps' w' rank :
  round lm num_points num_procs ps w = Ok (ps', w') →
  enters ps' rank = true →
  enters ps rank = true
  ∧ Driver.N (vars (process_of ps' rank)) = Driver.N (vars (process_of ps rank)) + 1.
Proof.
  unfold round. intros H He.
  apply bind_inv in H as (d & w1 & _ & H). apply mret_inv in H as [-> _].
  pose proof (enters_in_range _ _ He) as Hr.
  rewrite length_fmap, length_seqZ in Hr.
  set (g := λ rank, if enters ps rank
                    then after_sweep lm num_points rank d (vars (process_of ps rank))
                    else Process (vars (process_of ps rank)) false) in *.
  assert (process_of (g <$> seqZ 0 (Z.of_nat (length ps))) rank = g rank) as Hp.
  { unfold process_of at 1, lookupZ. rewrite (proj2 (Z.leb_le 0 rank)) by lia.
    rewrite list_lookup_fmap, lookup_seqZ_lt by lia.
    cbn [fmap option_fmap option_map default]. by rewrite Z.add_0_l, Z2Nat.id by lia. }
  unfold enters in He. rewrite Hp in He. rewrite Hp. unfold g in *.
  destruct (enters ps rank); [|done]. unfold after_sweep in *.
  by destruct (d <? tolerance lm num_points)%float.
Qed.

(** The passes the loop is given are enough: when [rounds] returns, no
    process is left in the loop. *)
Lemma rounds_exit fuel : ∀ ps w ps' w',
  (∀ rank, enters ps rank = true →
     MAX_ITERATIONS - Driver.N (vars (process_of ps rank)) ≤ Z.of_nat fuel) →
  rounds lm num_points num_procs fuel ps w = Ok (ps', w') →
  ∀ rank, enters ps' rank = false.
Proof.
  induction fuel as [|fuel IH]; intros ps w ps' w' Hb H rank.
  - apply mret_inv in H as [-> _].
    destruct (enters ps rank) eqn:He; [|done].
    specialize (Hb rank He). unfold enters in He.
    apply andb_true_iff in He as [_ He]. apply Z.ltb_lt in He. lia.
  - cbn [rounds] in H.
    destruct (existsb (enters ps) (seqZ 0 (Z.of_nat (length ps)))) eqn:Hex.
    + apply bind_inv in H as (ps1 & w1 & Hround & H).
      apply (IH ps1 w1 ps' w'); [|done].
      intros r He. destruct (round_counts ps w ps1 w1 r Hround He) as [He0 ->].
      specialize (Hb r He0). lia.
    + apply mret_inv in H as [-> _].
      destruct (enters ps rank) eqn:He; [|done].
      assert (existsb (enters ps) (seqZ 0 (Z.of_nat (length ps))) = true) as Hex'.
      { apply existsb_exists. exists rank. split; [|done].
        apply list_elem_of_In, elem_of_seqZ. apply enters_in_range in He. lia. }
      congruence.
Qed.

Lemma foldr_max_bound (g : Z → Z) (l : list Z) x :
  x ∈ l → g x ≤ foldr Z.max 0 (g <$> l).
Proof.
  induction 1 as [x l|x y l Hin IH]; cbn [fmap list_fmap foldr].
  - lia.
  - fold (fmap (M := list) g l). lia.
Qed.

Lemma rounds_start_exit (N0 : Z → Z) (du_max0 : Z → float) w ps' w' :
  rounds lm num_points num_procs (passes num_procs N0) (start num_procs N0 du_max0) w
    = Ok (ps', w') →
  ∀ rank, enters ps' rank = false.
Proof.
  apply rounds_exit. intros rank He.
  pose proof (enters_in_range _ _ He) as Hr. unfold start in Hr.
  rewrite length_fmap, length_seqZ in Hr.
  unfold process_of, lookupZ, start. rewrite (proj2 (Z.leb_le 0 rank)) by lia.
  rewrite list_lookup_fmap, lookup_seqZ_lt by lia.
  cbn [fmap option_fmap option_map default vars Driver.N].
  rewrite Z.add_0_l, Z2Nat.id by lia. unfold passes.
  pose proof (foldr_max_bound (λ rank, MAX_ITERATIONS - N0 rank) (seqZ 0 num_procs) rank
                ltac:(apply elem_of_seqZ; lia)) as Hmax.
  cbn beta in Hmax. unfold id. cbn [vars Driver.N]. lia.
Qed.

End rounds_exit.

(** * The claims *)

(** C1.  Two processes on four points, two points each: [a1 a2] belong to
    rank 0 and [b1 b2] to rank 1, [a3] is the right ghost cell of rank 0 and
    [b0] the left ghost cell of rank 1.  Rank 0 sends [u_old[3]], its ghost
    cell, to the right with tag 2, and rank 1 sends [u_old[0]], its ghost
    cell, to the left with tag 1; each receives what the other sent (from
    the right with tag 1, from the left with tag 2).  After the exchange the
    two ghost cells have been swapped; neither holds an owned value of the
    neighbour. *)
Theorem halo_exchange_sends_ghost_cells (a0 a1 a2 a3 b0 b1 b2 b3 : float)
    (u0 f0 u1 f1 : list float) :
  Jacobi1D.halo_exchange 4 2
    [Jacobi1D.Mem u0 [a0; a1; a2; a3] f0; Jacobi1D.Mem u1 [b0; b1; b2; b3] f1]
  = Ok (([MPI.Message 0 1 2 [a3]; MPI.Message 1 0 1 [b0]], [[(1, 1)]; [(0, 2)]]),
        [Jacobi1D.Mem u0 [a0; a1; a2; b0] f0; Jacobi1D.Mem u1 [a3; b1; b2; b3] f1]).
Proof. reflexivity. Qed.

(** C2.  [dx = (b - a) / (num_points + 1)] and
    [tolerance = 0.1 * pow (dx, 2)], functions of [num_points] alone.  On
    arrays of the allocated size the kernels of all processes return, and the
    all-reduce over their Local Deltas returns one value [g] which is one of
    them and not below any: their maximum.  A sweep waits for no message; it
    returns with one or two processes, and whenever it returns, with a value
    [g]: [g] is the maximum of the Local Deltas of that sweep; every process,
    whatever its rank and its own counter, stores [g] in [du_max], leaves the
    loop exactly when [g < tolerance] and otherwise has incremented its
    counter; and so does the loop of the run. *)
Theorem global_delta_and_stop (lm : libm) (num_points num_procs : Z)
    (w : list Jacobi1D.mem) (st : Driver.loop_state) :
  1 ≤ num_points → 1 ≤ num_procs → num_points + num_procs ≤ Int32.int_max →
  Z.of_nat (length w) = num_procs →
  Forall (Spec1D.allocated num_points num_procs) w →
  Jacobi1D.dx num_points = ((Jacobi1D.b - Jacobi1D.a) / of_int (num_points + 1))%float
  ∧ Jacobi1D.tolerance lm num_points = (0.1 * pow lm (Jacobi1D.dx num_points) 2)%float
  ∧ (∃ du_max_procs g w',
       on_ranks (λ _, Jacobi1D.apply_jacobi lm num_points num_procs) 0 w
         = Ok (du_max_procs, w')
       ∧ length du_max_procs = length w
       ∧ MPI.Allreduce_MAX du_max_procs w' = Ok (g, w')
       ∧ g ∈ du_max_procs
       ∧ ∀ d, d ∈ du_max_procs → (d <=? g)%float = true)
  ∧ in_bounds_or_fault (Jacobi1D.sweep lm num_points num_procs w)
  ∧ (num_procs ≤ 2 → ∃ g w', Jacobi1D.sweep lm num_points num_procs w = Ok (g, w'))
  ∧ ∀ g w',
      Jacobi1D.sweep lm num_points num_procs w = Ok (g, w') →
      (∃ w0 du_max_procs,
          on_ranks (λ _, Jacobi1D.apply_jacobi lm num_points num_procs) 0 w0
            = Ok (du_max_procs, w')
          ∧ g ∈ du_max_procs
          ∧ ∀ d, d ∈ du_max_procs → (d <=? g)%float = true)
      ∧ (∀ rank own,
           let p := PerProcess.after_sweep lm num_points rank g own in
           PerProcess.in_loop p = negb (g <? Jacobi1D.tolerance lm num_points)%float
           ∧ Driver.du_max (PerProcess.vars p) = g
           ∧ Driver.N (PerProcess.vars p) =
             (if (g <? Jacobi1D.tolerance lm num_points)%float
              then Driver.N own else Driver.N own + 1))
      ∧ ∃ st',
          Driver.iteration Jacobi1D.PRINT_INTERVAL (Jacobi1D.tolerance lm num_points)
            (Jacobi1D.sweep lm num_points num_procs) st w
          = Ok ((negb (g <? Jacobi1D.tolerance lm num_points)%float, st'), w')
          ∧ Driver.du_max st' = g
          ∧ Driver.N st' =
            (if (g <? Jacobi1D.tolerance lm num_points)%float
             then Driver.N st else Driver.N st + 1)
          ∧ (Driver.N st < Jacobi1D.MAX_ITERATIONS →
             ∀ fuel,
               Driver.while_loop Jacobi1D.MAX_ITERATIONS Jacobi1D.PRINT_INTERVAL
                 (Jacobi1D.tolerance lm num_points)
                 (Jacobi1D.sweep lm num_points num_procs) (S fuel) st w
               = if (g <? Jacobi1D.tolerance lm num_points)%float
                 then Ok (st', w')
                 else Driver.while_loop Jacobi1D.MAX_ITERATIONS Jacobi1D.PRINT_INTERVAL
                        (Jacobi1D.tolerance lm num_points)
                        (Jacobi1D.sweep lm num_points num_procs) fuel st' w').
Proof.
  intros HN HP Hfit Hlen Hw. split_and!.
  - unfold Jacobi1D.dx, Int32.add. rewrite wrap_in_range; [done|]. int_range.
  - reflexivity.
  - destruct (global_change_allocated lm num_points num_procs w)
      as (locals & g & w' & Hk & Hl & Hg & Hin & Hle & _); [|done|].
    { intros ->. cbn [length] in Hlen. lia. }
    by exists locals, g, w'.
  - by apply sweep_allocated_in_bounds.
  - intros HP2.
    destruct (sweep_allocated_two lm num_points num_procs w ltac:(lia) ltac:(lia)
                ltac:(lia) Hlen Hw) as (g & w' & Hs & _).
    by exists g, w'.
  - intros g w' Hs. split_and!.
    + exact (sweep_inv lm num_points num_procs w g w' Hs).
    + intros rank own. unfold PerProcess.after_sweep.
      by destruct (g <? Jacobi1D.tolerance lm num_points)%float.
    + set (tol := Jacobi1D.tolerance lm num_points).
      set (shown := if Driver.N st `rem` Jacobi1D.PRINT_INTERVAL =? 0
                    then Driver.progress st ++ [Progress (Driver.N st) g]
                    else Driver.progress st).
      exists (Driver.LoopState (if (g <? tol)%float then Driver.N st else Driver.N st + 1)
                g shown).
      assert (Driver.iteration Jacobi1D.PRINT_INTERVAL tol
                (Jacobi1D.sweep lm num_points num_procs) st w
              = Ok ((negb (g <? tol)%float,
                     Driver.LoopState
                       (if (g <? tol)%float then Driver.N st else Driver.N st + 1)
                       g shown), w')) as Hit.
      { unfold Driver.iteration. rewrite (bind_Ok _ _ _ _ _ Hs).
        fold shown. by destruct (g <? tol)%float. }
      split_and!; [done..|].
      intros Hlt fuel. cbn [Driver.while_loop].
      rewrite (proj2 (Z.ltb_lt _ _) Hlt), (bind_Ok _ _ _ _ _ Hit).
      by destruct (g <? tol)%float.
Qed.

Lemma global_delta_and_stop_witness :
  ∃ g w' w0 du_max_procs,
    Jacobi1D.sweep sample_libm 4 2 [sample_mem; sample_mem] = Ok (g, w')
    ∧ on_ranks (λ _, Jacobi1D.apply_jacobi sample_libm 4 2) 0 w0 = Ok (du_max_procs, w')
    ∧ g ∈ du_max_procs
    ∧ ∀ d, d ∈ du_max_procs → (d <=? g)%float = true.
Proof.
  destruct (global_delta_and_stop sample_libm 4 2 [sample_mem; sample_mem]
              (Driver.LoopState 0 0 []))
    as (_ & _ & _ & _ & Hret & Hmax).
  - lia.
  - lia.
  - unfold Int32.int_max. lia.
  - reflexivity.
  - repeat constructor.
  - destruct Hret as (g & w' & Hs); [lia|].
    destruct (Hmax g w' Hs) as ((w0 & locals & Hk & Hin & Hle) & _).
    by exists g, w', w0, locals.
Defined.

(** C3.  For [N ≥ 1] interior points and [P ≥ 1] processes (with [N + P]
    an [int], so that line 66 does not overflow), rank [r] is assigned the
    half-open range [[r * ceil (N / P), min ((r + 1) * ceil (N / P), N))] of
    0-based interior indices, the loops using the same range shifted by one;
    the blocks taken in rank order are exactly [0, 1, ..., N - 1], so they
    are contiguous, disjoint and ordered, and their sizes add up to [N].
    The partition is a function of [N], [P] and the rank alone. *)
Theorem partition_blocks (N P : Z) :
  1 ≤ N → 1 ≤ P → N + P ≤ Int32.int_max →
  (∀ r, 0 ≤ r < P →
     Partition.start_index0 N P r = r * ceil_div N P
     ∧ Partition.end_index0 N P r + 1 = Z.min ((r + 1) * ceil_div N P) N
     ∧ Partition.start_index N P r = Partition.start_index0 N P r + 1
     ∧ Partition.end_index N P r = Partition.end_index0 N P r + 1
     ∧ ∀ i, i ∈ Partition.block N P r
            ↔ r * ceil_div N P ≤ i < Z.min ((r + 1) * ceil_div N P) N)
  ∧ concat (Partition.block N P <$> seqZ 0 P) = seqZ 0 N
  ∧ sum_list (length <$> (Partition.block N P <$> seqZ 0 P)) = Z.to_nat N.
Proof.
  intros HN HP Hfit. split; [|split].
  - intros r Hr.
    rewrite (start_index0_eq N P), (end_index0_eq N P), (start_index_eq N P),
      (end_index_eq N P), (block_eq N P) by done.
    split_and!; try lia.
    intros i. rewrite elem_of_seqZ. lia.
  - by apply blocks_cover.
  - rewrite <- length_concat_sum, blocks_cover by done. by rewrite length_seqZ.
Qed.

Lemma partition_blocks_witness :
  concat (Partition.block 10 4 <$> seqZ 0 4) = seqZ 0 10.
Proof.
  refine (proj1 (proj2 (partition_blocks 10 4 _ _ _))); unfold Int32.int_max; lia.
Defined.

(** C4.  Given arrays of the allocated size, the 1D kernel returns, leaves
    the previous iterate and the source term as they were, and sets every
    point [i] in [1 .. points_per_proc] of the current iterate to
    [0.5 * (u_old[i-1] + u_old[i+1] - pow (dx, 2) * f[i])], read from the
    previous iterate as it was when the kernel started.  The 2D solver
    allocates grids of [rank_num_points + 2] rows of [rank_num_points + 2]
    doubles (lines 77-86).  On them a relaxation step at a point [(i, j)] with
    [i] and [j] in [1 .. rank_num_points] returns, leaves the previous iterate
    and the source term as they were and sets [u[i][j]] to
    [0.25 * (u_old[i-1][j] + u_old[i+1][j] + u_old[i][j-1] + u_old[i][j+1]
             - pow (dx, 2) * f[i][j])];
    but the kernel runs [i] up to [num_points] (line 170), and with two or
    more processes, on every rank that owns a row, it leaves the previous
    iterate at the row [rank_num_points + 2], the east neighbour of the first
    point of the row [rank_num_points + 1]: the kernel does not return. *)
Theorem relaxation_update (lm : libm) (num_points num_procs : Z) (m : Jacobi1D.mem)
    (num_procs2 rank2 : Z) (m2 : Jacobi2D.mem) :
  Spec1D.allocated num_points num_procs m →
  2 ≤ num_procs2 → Jacobi2D.num_points + num_procs2 ≤ Int32.int_max →
  0 ≤ rank2 < num_procs2 → 1 ≤ Jacobi2D.rank_num_points num_procs2 rank2 →
  Spec2D.allocated num_procs2 rank2 m2 →
  (∃ du m',
      Jacobi1D.apply_jacobi lm num_points num_procs m = Ok (du, m')
      ∧ Jacobi1D.u_old m' = Jacobi1D.u_old m
      ∧ Jacobi1D.f m' = Jacobi1D.f m
      ∧ ∀ i left right rhs,
          1 ≤ i ≤ Jacobi1D.points_per_proc num_points num_procs →
          lookupZ (Jacobi1D.u_old m) (i - 1) = Some left →
          lookupZ (Jacobi1D.u_old m) (i + 1) = Some right →
          lookupZ (Jacobi1D.f m) i = Some rhs →
          lookupZ (Jacobi1D.u m') i =
          Some (0.5 * (left + right - pow lm (Jacobi1D.dx num_points) 2 * rhs))%float)
  ∧ (∀ i j acc,
       1 ≤ i ≤ Jacobi2D.rank_num_points num_procs2 rank2 →
       1 ≤ j ≤ Jacobi2D.rank_num_points num_procs2 rank2 →
       ∃ west east south north rhs m',
         lookup2 (Jacobi2D.u_old m2) (i - 1) j = Some west
         ∧ lookup2 (Jacobi2D.u_old m2) (i + 1) j = Some east
         ∧ lookup2 (Jacobi2D.u_old m2) i (j - 1) = Some south
         ∧ lookup2 (Jacobi2D.u_old m2) i (j + 1) = Some north
         ∧ lookup2 (Jacobi2D.f m2) i j = Some rhs
         ∧ Jacobi2D.relax_point lm i j acc m2
           = Ok (fmax acc (Spec2D.change lm (Jacobi2D.u_old m2) (Jacobi2D.f m2) i j), m')
         ∧ Jacobi2D.u_old m' = Jacobi2D.u_old m2
         ∧ Jacobi2D.f m' = Jacobi2D.f m2
         ∧ lookup2 (Jacobi2D.u m') i j =
           Some (0.25 * (west + east + south + north
                         - pow lm Jacobi2D.dx 2 * rhs))%float)
  ∧ Jacobi2D.apply_jacobi lm num_procs2 rank2 m2
    = Fault (OutOfBounds U_OLD (Jacobi2D.rank_num_points num_procs2 rank2 + 2)).
Proof.
  intros Ha HP Hfit Hrank Hown Ha2. split_and!.
  - eexists _, _. split_and!.
    + unfold Jacobi1D.apply_jacobi.
      apply (apply_jacobi_in_allocated lm num_points num_procs); [done|].
      eapply Forall_impl; [apply Forall_range_excl|]. simpl. lia.
    + done.
    + done.
    + intros i left right rhs Hi Hl Hr Hrhs. cbn [Jacobi1D.u].
      destruct Ha as (Hlu & Hlo & Hlf).
      rewrite lookupZ_bulk.
      2:{ eapply Forall_impl; [apply Forall_range_excl|]. simpl. lia. }
      rewrite decide_True by (unfold range_excl; rewrite elem_of_seqZ; lia).
      unfold Spec1D.relaxed, cell. by rewrite Hl, Hr, Hrhs.
  - intros i j acc Hi Hj. destruct Ha2 as (Hu & Ho & Hf).
    destruct m2 as [uc uo ff bf sb].
    cbn [Jacobi2D.u Jacobi2D.u_old Jacobi2D.f] in *.
    set (n := Jacobi2D.rank_num_points num_procs2 rank2 + 2) in *.
    exists (cell2 uo (i - 1) j), (cell2 uo (i + 1) j), (cell2 uo i (j - 1)),
      (cell2 uo i (j + 1)), (cell2 ff i j).
    eexists. split_and!.
    + apply (lookup2_cell2 _ n n); [done|lia..].
    + apply (lookup2_cell2 _ n n); [done|lia..].
    + apply (lookup2_cell2 _ n n); [done|lia..].
    + apply (lookup2_cell2 _ n n); [done|lia..].
    + apply (lookup2_cell2 _ n n); [done|lia..].
    + apply (relax_point_in_grid lm n n); [done..|lia|lia].
    + reflexivity.
    + reflexivity.
    + cbn [Jacobi2D.u]. by rewrite (lookup2_set2_eq _ n n) by (done || lia).
  - by apply apply_jacobi_allocated_fault.
Qed.

Lemma relaxation_update_witness :
  (∃ du m',
      Jacobi1D.apply_jacobi sample_libm 4 2 sample_mem = Ok (du, m')
      ∧ Jacobi1D.u_old m' = Jacobi1D.u_old sample_mem)
  ∧ Jacobi2D.apply_jacobi sample_libm 2 0 sample_mem2_allocated
    = Fault (OutOfBounds U_OLD (Jacobi2D.rank_num_points 2 0 + 2)).
Proof.
  destruct (relaxation_update sample_libm 4 2 sample_mem 2 0 sample_mem2_allocated)
    as [(du & m' & H & Ho & _) [_ Hfault]].
  - repeat split; reflexivity.
  - lia.
  - unfold Jacobi2D.num_points, Int32.int_max. lia.
  - lia.
  - replace (Jacobi2D.rank_num_points 2 0) with 10 by (vm_compute; reflexivity). lia.
  - unfold sample_mem2_allocated. apply allocate_allocated_2d.
    replace (Jacobi2D.rank_num_points 2 0) with 10 by (vm_compute; reflexivity). lia.
  - split; [|exact Hfault]. exists du, m'. split; assumption.
Defined.




(** The verdict when the processes share the counter.  Take an invariant
    of the processes' memories under which a sweep and the writing of the
    output do not fault.  A run started under it returns, with one outcome per
    process.  It leaves the loop either with the sweep counter at the cap, the
    global change not below the tolerance (or the loop never entered), or
    through [break] with the counter below the cap and the global change below
    the tolerance.  In the first case every process exits with status 1, rank
    0 alone reports the final global change and the tolerance, once, and no
    process writes an output file.  In the second case every process exits
    with status 0 after writing its own output file, and nothing reports a
    failure. *)
Lemma verdict_of_shared_counter {Mem : Type} (MAX_ITERATIONS PRINT_INTERVAL : Z)
    (tolerance : float) (sweep : M (list Mem) float) (announces : bool)
    (write_output : Z → M Mem (list (list field)))
    (Inv : list Mem → Prop) (N0 : Z) (du_max0 : float) (w : list Mem) :
  (∀ w, Inv w → ∃ d w', sweep w = Ok (d, w') ∧ Inv w') →
  (∀ w (k : nat) m, Inv w → w !! k = Some m →
     ∃ lines m', write_output (Z.of_nat k) m = Ok (lines, m')) →
  Inv w →
  ∃ st w1 outs w',
    Driver.jacobi_iterations MAX_ITERATIONS PRINT_INTERVAL tolerance sweep N0 du_max0 w
      = Ok (st, w1)
    ∧ Driver.solve MAX_ITERATIONS PRINT_INTERVAL tolerance sweep announces write_output
        N0 du_max0 w = Ok (outs, w')
    ∧ length outs = length w1
    ∧ ((MAX_ITERATIONS ≤ Driver.N st
        ∧ (st = Driver.LoopState N0 du_max0 []
           ∨ (Driver.du_max st <? tolerance)%float = false)
        ∧ ∀ (k : nat) o, outs !! k = Some o →
            exit_status o = 1
            ∧ List.filter is_report (events o) =
              (if decide (k = 0%nat)
               then [NotConverged (Driver.du_max st) tolerance] else [])
            ∧ List.filter is_output (events o) = [])
       ∨ (Driver.N st < MAX_ITERATIONS
          ∧ (Driver.du_max st <? tolerance)%float = true
          ∧ ∀ (k : nat) o, outs !! k = Some o →
              exit_status o = 0
              ∧ List.filter is_report (events o) = []
              ∧ ∃ m m' lines,
                  w1 !! k = Some m
                  ∧ write_output (Z.of_nat k) m = Ok (lines, m')
                  ∧ List.filter is_output (events o) = [OutputFile (Z.of_nat k) lines]
                  ∧ last (events o) = Some (OutputFile (Z.of_nat k) lines))).
Proof.
  intros Hsweep Hout Hw.
  destruct (solve_total MAX_ITERATIONS PRINT_INTERVAL tolerance sweep announces
              write_output Inv Hsweep N0 du_max0 w Hout Hw) as (outs & w' & Hrun).
  destruct (solve_verdict _ _ _ _ _ _ _ _ _ _ _ Hrun) as (st & w1 & Hloop & Hlen & Hcases).
  by exists st, w1, outs, w'.
Qed.

(** C6.  [N] is an automatic variable of [main] that is never assigned
    before line 105 reads it, so two processes can start from different
    values.  Two processes on one point, rank 0 finding the cap in its [N]
    and rank 1 finding 0: rank 0 does not enter the loop, announces that it
    has finished, reports the failure and exits with status 1; rank 1 enters
    the loop, and its receive from rank 0 with tag 2 waits for a send that
    rank 0 never posts.  The run does not end, and its processes have not
    come to one verdict.  When all processes find the same value, for any
    number of points and of processes, the run is the one in which they
    share the counter and the global change. *)
Theorem verdict_split_by_unassigned_counter (lm : libm) (du_max0 : Z → float)
    (garbage : Z → array_name → Z → float) :
  PerProcess.enters (PerProcess.start 2 stale_counters du_max0) 0 = false
  ∧ PerProcess.enters (PerProcess.start 2 stale_counters du_max0) 1 = true
  ∧ (∀ m, Driver.conclude Jacobi1D.MAX_ITERATIONS (Jacobi1D.tolerance lm 1) true
            (Jacobi1D.write_output 1 2)
            (PerProcess.vars
               (PerProcess.process_of (PerProcess.start 2 stale_counters du_max0) 0))
            0 m
          = Ok (Outcome 1 [Finished 0 Jacobi1D.MAX_ITERATIONS (du_max0 0);
                           NotConverged (du_max0 0) (Jacobi1D.tolerance lm 1)], m))
  ∧ PerProcess.main lm 1 2 stale_counters du_max0 garbage = Fault (Hang 1 0 2)
  ∧ ∀ num_points num_procs N0 d0,
      1 ≤ num_procs →
      PerProcess.main lm num_points num_procs (λ _, N0) (λ _, d0) garbage
      = Jacobi1D.main lm num_points num_procs N0 d0 garbage.
Proof.
  split_and!.
  - reflexivity.
  - reflexivity.
  - intros m. reflexivity.
  - vm_compute. reflexivity.
  - intros num_points num_procs N0 d0 HP. by apply main_one_counter.
Qed.

(** C7.  With one process the 1D exchange posts no send and takes no
    message, and a sweep on arrays of [num_points + 2] doubles is one step of
    the serial Jacobi iteration on the current iterate; the 2D solver prints
    that it only handles more than one process and returns, before it
    partitions or allocates anything. *)
Theorem single_process (lm : libm) (num_points : Z) (m : Jacobi1D.mem)
    (du_max0 : float) (garbage : Z → array_name → Z → Z → float)
    (undeclared : Z → list float) :
  1 ≤ num_points → num_points + 1 ≤ Int32.int_max →
  Z.of_nat (length (Jacobi1D.u m)) = num_points + 2 →
  Z.of_nat (length (Jacobi1D.u_old m)) = num_points + 2 →
  Z.of_nat (length (Jacobi1D.f m)) = num_points + 2 →
  Jacobi1D.halo_exchange num_points 1 [m] = Ok (([], [[]]), [m])
  ∧ Jacobi1D.sweep lm num_points 1 [m]
    = Ok ((Spec1D.serial_jacobi lm num_points (Jacobi1D.u m) (Jacobi1D.f m)).2,
          [Jacobi1D.Mem
             (Spec1D.serial_jacobi lm num_points (Jacobi1D.u m) (Jacobi1D.f m)).1
             (Jacobi1D.u m) (Jacobi1D.f m)])
  ∧ Jacobi2D.main lm 1 du_max0 garbage undeclared
    = Ok [Outcome 0 [Print "This program only handles more than one process."]].
Proof.
  intros HN Hfit Hu Ho Hf. split_and!.
  - apply exchange_single.
  - by apply sweep_single.
  - reflexivity.
Qed.

Lemma single_process_witness :
  Jacobi1D.sweep sample_libm 2 1 [Jacobi1D.Mem [0; 1; 2; 3] [9; 9; 9; 9] [0; 1; 1; 0]]%float
  = Ok ((Spec1D.serial_jacobi sample_libm 2 [0; 1; 2; 3] [0; 1; 1; 0]).2,
        [Jacobi1D.Mem (Spec1D.serial_jacobi sample_libm 2 [0; 1; 2; 3] [0; 1; 1; 0]).1
           [0; 1; 2; 3] [0; 1; 1; 0]])%float.
Proof.
  apply (single_process sample_libm 2
           (Jacobi1D.Mem [0; 1; 2; 3] [9; 9; 9; 9] [0; 1; 1; 0])%float
           0%float (λ _ _ _ _, 0%float) (λ _, []));
    unfold Int32.int_max; simpl; lia.
Defined.

(** C8.  One process on three points: the output file holds the left
    boundary, the points 1 and 2 and the right boundary; the owned point 3,
    [u3], is not written (the loop of line 235 stops before [end_index]). *)
Theorem write_output_skips_last_point (u0 u1 u2 u3 u4 : float) (uo ff : list float) :
  Jacobi1D.write_output 3 1 0 (Jacobi1D.Mem [u0; u1; u2; u3; u4] uo ff)
  = Ok ([[Num 0; Num u0];
         [Num (of_int 1 * Jacobi1D.dx 3); Num u1];
         [Num (of_int 2 * Jacobi1D.dx 3); Num u2];
         [Num Jacobi1D.b; Num u4]],
        Jacobi1D.Mem [u0; u1; u2; u3; u4] uo ff).
Proof. reflexivity. Qed.

(** C9.  Given arrays of the allocated size, running the 1D kernel over the
    interior points in any order yields the same Local Delta, and the same
    arrays, as running it in the order of the source: the running maximum is
    taken over absolute values, on which [fmax] is associative and
    commutative as an operation on doubles. *)
Theorem local_delta_order_invariant (lm : libm) (num_points num_procs : Z)
    (m : Jacobi1D.mem) (order : list Z) :
  Spec1D.allocated num_points num_procs m →
  order ≡ₚ range_excl 1 (Jacobi1D.points_per_proc num_points num_procs + 1) →
  ∃ du_max_proc m',
    Jacobi1D.apply_jacobi lm num_points num_procs m = Ok (du_max_proc, m')
    ∧ Jacobi1D.apply_jacobi_in lm num_points order m = Ok (du_max_proc, m').
Proof.
  intros Ha Hp.
  assert (Forall (λ i, 1 ≤ i ≤ Jacobi1D.points_per_proc num_points num_procs)
            (range_excl 1 (Jacobi1D.points_per_proc num_points num_procs + 1))) as Hsrc.
  { eapply Forall_impl; [apply Forall_range_excl|]. simpl. lia. }
  assert (Forall (λ i, 1 ≤ i ≤ Jacobi1D.points_per_proc num_points num_procs) order)
    as Hord by (by rewrite Hp).
  eexists _, _. split.
  - unfold Jacobi1D.apply_jacobi.
    by apply (apply_jacobi_in_allocated lm num_points num_procs).
  - rewrite (apply_jacobi_in_allocated lm num_points num_procs) by done.
    destruct Ha as (Hlu & Hlo & Hlf). do 2 f_equal.
    + apply fold_fmax_perm; [reflexivity| |by rewrite Hp].
      apply Forall_fmap, Forall_true. intros i. apply unsigned_fabs.
    + f_equal. apply bulk_perm; [|done].
      eapply Forall_impl; [exact Hord|]. simpl. lia.
Qed.

Lemma local_delta_order_invariant_witness :
  ∃ du_max_proc m',
    Jacobi1D.apply_jacobi sample_libm 2 1 sample_mem = Ok (du_max_proc, m')
    ∧ Jacobi1D.apply_jacobi_in sample_libm 2 [2; 1] sample_mem = Ok (du_max_proc, m').
Proof.
  apply (local_delta_order_invariant sample_libm 2 1 sample_mem [2; 1]).
  - exact sample_mem_allocated.
  - apply perm_swap.
Defined.

(** C10.  Two processes on four points: each array of rank 1 has
    [points_per_proc + 2 = 4] elements, and the initialization loop of lines
    89-94, which runs over the global indices 3 and 4, stores to [f[4]]. *)
Theorem initialize_out_of_bounds (lm : libm) (garbage : array_name → Z → float) :
  Jacobi1D.points_per_proc 4 2 + 2 = 4
  ∧ Jacobi1D.initialize lm 4 2 1 (Jacobi1D.allocate 4 2 garbage)
    = Fault (OutOfBounds F 4).
Proof. split; reflexivity. Qed.

(** ** Two remarks on the 2D solver *)

(** The arrays the 2D solver allocates have [rank_num_points + 2] rows, fewer
    than the [num_points + 2] rows its loops run over: with two processes the
    initialization of rank 0 leaves the source term at row 12. *)
Remark grid_allocation_too_small (lm : libm) (garbage : array_name → Z → Z → float)
    (undeclared : list float) :
  Jacobi2D.rank_num_points 2 0 + 2 = 12
  ∧ Jacobi2D.initialize lm 2 0 (Jacobi2D.allocate 2 0 garbage undeclared)
    = Fault (OutOfBounds F 12).
Proof. split; vm_compute; reflexivity. Qed.

(** With eight processes the last rank starts beyond the last point, and
    line 71 makes its [rank_num_points] negative. *)
Remark rank_num_points_negative :
  Partition.block 20 8 7 = [] ∧ Jacobi2D.rank_num_points 8 7 = -1.
Proof. split; reflexivity. Qed.

